(** * Distortion and quality measures of a tetrahedral mesh

    A shallow embedding of [scripts/distortion.py] (PyMesh) and the
    properties of its three passes: the distortion energy evaluator
    ([compute_distortion_energies]), the shape quality evaluator
    ([compute_tet_quality_measures]) and the tabular exporter
    ([output_to_csv]), together with the command line driver [main].

    Floating point numbers are IEEE 754 binary64 values, taken from the
    standard library's [SpecFloat]; NumPy arrays are lists; the mesh's
    attribute store is a finite map; exceptions and the mutable world
    (the mesh object, the log, the files) are threaded by a small state
    and error monad. *)

From Stdlib Require Import ZArith List Bool Lia Ascii.
From Stdlib Require Import Floats.SpecFloat.
From stdpp Require Import base option list gmap strings pretty.

Open Scope string_scope.
Open Scope list_scope.

(** ** IEEE 754 binary64 *)

Module Float64.

Abbreviation float := spec_float.

Definition prec : Z := 53.
Definition emax : Z := 1024.

Definition add : float -> float -> float := SFadd prec emax.
Definition mul : float -> float -> float := SFmul prec emax.
Definition sub : float -> float -> float := SFsub prec emax.
Definition div : float -> float -> float := SFdiv prec emax.
Definition opp : float -> float := SFopp.

Definition eqb : float -> float -> bool := SFeqb.
Definition ltb : float -> float -> bool := SFltb.
Definition leb : float -> float -> bool := SFleb.
Definition gtb (x y : float) : bool := SFltb y x.

Definition zero : float := S754_zero false.
Definition neg_zero : float := S754_zero true.
Definition inf : float := S754_infinity false.
Definition neg_inf : float := S754_infinity true.
Definition nan : float := S754_nan.

(** The double nearest to an integer. *)
Definition of_Z (z : Z) : float := binary_normalize prec emax z 0 false.

Definition one : float := Eval cbv in of_Z 1.
Definition neg_one : float := Eval cbv in of_Z (-1).

Definition is_nan (x : float) : bool :=
  match x with S754_nan => true | _ => false end.

(** [numpy.isfinite] on one element: neither an infinity nor a NaN. *)
Definition isfinite (x : float) : bool :=
  match x with
  | S754_zero _ | S754_finite _ _ _ => true
  | S754_infinity _ | S754_nan => false
  end.

(** The smallest positive double, 2^-1074. *)
Definition min_subnormal : float := S754_finite false 1 (-1074).

End Float64.

Import Float64.

(** ** NumPy arrays and small matrices *)

(** Python exceptions the program can raise or let through. *)
Inductive exn : Type :=
| RuntimeError (msg : string)
| ValueError (msg : string)
| NameError (name : string)
| IndexError
| LinAlgError
| IOError (path : string)
| MissingAttribute (name : string)
| TypeError (msg : string)
| SystemExit (code : nat).

Inductive result (A : Type) : Type :=
| Ok (a : A)
| Raise (e : exn).
Arguments Ok {A} a.
Arguments Raise {A} e.

#[global] Instance result_ret : MRet result := fun A a => Ok a.
#[global] Instance result_bind : MBind result := fun A B k r =>
  match r with
  | Ok a => k a
  | Raise e => Raise e
  end.

Module Np.

Abbreviation matrix := (list (list spec_float)).

(** Broadcasting of two one-dimensional arrays under a binary ufunc
    ([np.divide], [+]): equal lengths go element by element, a length-one
    array is stretched, anything else is a [ValueError]. *)
Definition broadcast (op : float -> float -> float) (a b : list float)
  : result (list float) :=
  if (length a =? length b)%nat then Ok (zip_with op a b)
  else match a, b with
       | _, [y] => Ok (map (fun x => op x y) a)
       | [x], _ => Ok (map (op x) b)
       | _, _ => Raise (ValueError "operands could not be broadcast together")
       end.

Definition divide : list float -> list float -> result (list float) :=
  broadcast div.
Definition add : list float -> list float -> result (list float) :=
  broadcast Float64.add.

Definition square (a : list float) : list float := map (fun x => mul x x) a.
Definition isfinite (a : list float) : list bool := map Float64.isfinite a.
Definition logical_not (a : list bool) : list bool := map negb a.

(** [np.count_nonzero] of a boolean array. *)
Definition count_nonzero (a : list bool) : nat := length (filter (fun b => b = true) a).

(** [a[mask(a)] = v]: every element selected by the mask is overwritten. *)
Definition mask_assign (mask : float -> bool) (v : float) (a : list float)
  : list float :=
  map (fun x => if mask x then v else x) a.

(** Sum of a non-empty run of terms from left to right; the empty sum is
    [0.0]. *)
Definition sum (l : list float) : float :=
  match l with
  | [] => zero
  | x :: xs => fold_left Float64.add xs x
  end.

Definition nrows (A : matrix) : nat := length A.
Definition ncols (A : matrix) : nat := length (hd [] A).
Definition entry (A : matrix) (i j : nat) : float := nth j (nth i A []) zero.

Definition column (A : matrix) (j : nat) : list float :=
  map (fun row => nth j row zero) A.

(** [A.T] *)
Definition T (A : matrix) : matrix :=
  map (column A) (seq 0 (ncols A)).

Definition inner (u v : list float) : float := sum (zip_with mul u v).

(** [np.dot(A, B)] for conformable two-dimensional operands. *)
Definition dot (A B : matrix) : matrix :=
  map (fun row => map (fun j => inner row (column B j)) (seq 0 (ncols B))) A.

(** [np.trace(A)] *)
Definition trace (A : matrix) : float :=
  sum (map (fun i => entry A i i) (seq 0 (min (nrows A) (ncols A)))).

(** [np.full((n, m), v)] *)
Definition full (n m : nat) (v : float) : matrix := repeat (repeat v m) n.

(** [np.minimum] and [np.maximum] on two doubles: the first operand when
    it is strictly below (above) the second or is a NaN, the second
    otherwise. A NaN on either side comes out, and of two values that
    compare equal (the two zeros) the second is kept. *)
Definition minimum (x y : float) : float :=
  if ltb x y || is_nan x then x else y.
Definition maximum (x y : float) : float :=
  if gtb x y || is_nan x then x else y.

(** [np.amin] and [np.amax] of one row: the reduction starts from the
    first entry and takes the others in, one after the other, as second
    operands; reducing an empty row is a [ValueError]. *)
Definition amin (row : list float) : result float :=
  match row with
  | [] => Raise (ValueError "zero-size array to reduction operation minimum which has no identity")
  | x :: xs => Ok (fold_left minimum xs x)
  end.
Definition amax (row : list float) : result float :=
  match row with
  | [] => Raise (ValueError "zero-size array to reduction operation maximum which has no identity")
  | x :: xs => Ok (fold_left maximum xs x)
  end.

(** [a.reshape((n, -1))] of a flat array: [n] rows of [len / n] entries.
    NumPy cannot infer the free dimension next to a zero one, and refuses
    a length that [n] does not divide: both are a [ValueError]. *)
Fixpoint chunks (n k : nat) (a : list float) : matrix :=
  match n with
  | 0%nat => []
  | S n' => take k a :: chunks n' k (drop k a)
  end.

Definition reshape_rows (n : nat) (a : list float) : result matrix :=
  match n with
  | 0%nat => Raise (ValueError "cannot reshape array")
  | S _ =>
      if (length a mod n =? 0)%nat then Ok (chunks n (length a / n) a)
      else Raise (ValueError "cannot reshape array")
  end.

End Np.

(** ** Sparse matrices *)

Module Sparse.

(** A sparse matrix as SciPy holds it: the number of columns and, row by
    row, the stored entries, each a column and a value, in the order in
    which a product visits them. An entry that is not stored takes no part
    in a product. SciPy keeps every stored column below the number of
    columns. *)
Record matrix : Type := {
  ncols : nat;
  rows : list (list (nat * spec_float))
}.

Definition nrows (G : matrix) : nat := length (rows G).

(** Every stored column is below the number of columns. *)
Definition valid (G : matrix) : bool :=
  forallb (forallb (fun e : nat * spec_float => (fst e <? ncols G)%nat)) (rows G).

(** [G * V] for a dense two-dimensional [V]: the result starts as zeros,
    and every stored entry [(j, a)] of row [i] adds [a * V[j, :]] to row
    [i] of the result. *)
Definition dot (G : matrix) (V : Np.matrix) : Np.matrix :=
  map (fun stored =>
         map (fun c =>
                fold_left (fun y (e : nat * spec_float) =>
                             add y (mul (snd e) (Np.entry V (fst e) c)))
                          stored zero)
             (seq 0 (Np.ncols V)))
      (rows G).

End Sparse.

(** ** The mesh, its attribute store and the world around the program *)

(** A value of a NumPy array handed to or returned by the attribute store. *)
Inductive ndarray : Type :=
| FloatArray (a : list float)
| BoolArray (a : list bool).

(** One cell of a row given to [csv.writer.writerow]. *)
Inductive cell : Type :=
| CStr (s : string)
| CInt (i : nat)
| CFloat (x : float)
| CBool (b : bool).

Abbreviation row := (list cell).

Record Geometry : Type := {
  vertices : Np.matrix;
  voxels : list (list nat);
  vertex_per_voxel : nat
}.

Definition num_voxels (g : Geometry) : nat := length (voxels g).

Record Mesh : Type := {
  geometry : Geometry;
  attributes : gmap string ndarray
}.

(** Levels of Python's [logging] module. *)
Definition DEBUG : nat := 10.
Definition INFO : nat := 20.
Definition WARNING : nat := 30.
Definition ERROR : nat := 40.
Definition CRITICAL : nat := 50.

Record LogRecord : Type := {
  logger_name : string;
  levelno : nat;
  message : string
}.

(** A file on disk: a table, as the rows written through a [csv.writer],
    or a mesh, as [pymesh.save_mesh] wrote it. *)
Inductive file : Type :=
| Table (rows : list row)
| MeshFile (m : Mesh).

(** What the program can see and change: the mesh object it works on, the
    records handed to the logging module and the root logger's level, the
    files on disk, each under its path, and the paths that cannot be
    opened for writing. *)
Record World : Type := {
  mesh : Mesh;
  root_level : nat;
  log : list LogRecord;
  files : gmap string file;
  unwritable : gset string
}.

Definition with_mesh (m : Mesh) (w : World) : World :=
  {| mesh := m; root_level := root_level w; log := log w;
     files := files w; unwritable := unwritable w |}.

Definition with_attributes (a : gmap string ndarray) (w : World) : World :=
  with_mesh {| geometry := geometry (mesh w); attributes := a |} w.

Definition with_log (l : list LogRecord) (w : World) : World :=
  {| mesh := mesh w; root_level := root_level w; log := l;
     files := files w; unwritable := unwritable w |}.

Definition with_root_level (n : nat) (w : World) : World :=
  {| mesh := mesh w; root_level := n; log := log w;
     files := files w; unwritable := unwritable w |}.

Definition with_files (f : gmap string file) (w : World) : World :=
  {| mesh := mesh w; root_level := root_level w; log := log w;
     files := f; unwritable := unwritable w |}.

(** The records that reach the handlers: those at or above the root level. *)
Definition emitted (w : World) : list LogRecord :=
  filter (fun r => (root_level w <= levelno r)%nat) (log w).

(** State and exceptions: a computation runs in a world and either returns
    a value or raises, and in both cases leaves a world behind. *)
Definition M (A : Type) : Type := World -> result A * World.

#[global] Instance M_ret : MRet M := fun A a w => (Ok a, w).
#[global] Instance M_bind : MBind M := fun A B k m w =>
  match m w with
  | (Ok a, w') => k a w'
  | (Raise e, w') => (Raise e, w')
  end.

Definition raise {A} (e : exn) : M A := fun w => (Raise e, w).
Definition lift {A} (r : result A) : M A := fun w => (r, w).
Definition get_world : M World := fun w => (Ok w, w).
Definition modify (f : World -> World) : M unit := fun w => (Ok tt, f w).
Definition when (b : bool) (m : M unit) : M unit := if b then m else mret tt.

(** A value a field of the parsed command line can hold: the word that
    was given, or a list of words where [argparse] leaves one. *)
Inductive argval : Type :=
| Str (s : string)
| StrList (l : list string).

Coercion Str : string >-> argval.

(** A path handed to the operating system: a string names it; for a list
    [open], [os.path.exists] and [os.path.splitext] raise a
    [TypeError]. *)
Definition fspath (v : argval) : result string :=
  match v with
  | Str path => Ok path
  | StrList _ =>
      Raise (TypeError "expected str, bytes or os.PathLike object, not list")
  end.

Fixpoint assoc {V} (name : string) (l : list (string * V)) : option V :=
  match l with
  | [] => None
  | (k, v) :: l' => if decide (k = name) then Some v else assoc name l'
  end.

(** The external collaborators: the geometry back-end of PyMesh and the
    NumPy routines whose code is not part of the script. *)
Record Backend : Type := {
  (** [Assembler(generate_regular_tetrahedron()).assemble("gradient")] *)
  gradient : Sparse.matrix;
  (** [numpy.linalg.det] *)
  linalg_det : Np.matrix -> float;
  (** [numpy.linalg.inv]; [None] when it gives up on a singular matrix
      (NumPy reports a zero pivot of the same factorisation from which
      [det] returns zero) *)
  linalg_inv : Np.matrix -> option Np.matrix;
  (** [np.cbrt] on one element *)
  cbrt : float -> float;
  (** [pymesh.get_tet_orientations] *)
  tet_orientations : Geometry -> list float;
  (** the attributes the back-end computes from the geometry *)
  voxel_inradius : Geometry -> list float;
  voxel_circumradius : Geometry -> list float;
  voxel_dihedral_angle : Geometry -> list float;
  voxel_radius_edge_ratio : Geometry -> list float;
  voxel_edge_ratio : Geometry -> list float
}.

Section Program.

Variable B : Backend.

(** The value the back-end gives an attribute when it is registered: the
    predefined names are computed from the geometry. *)
Definition predefined (name : string) (g : Geometry) : option (list float) :=
  if decide (name = "voxel_inradius") then Some (voxel_inradius B g)
  else if decide (name = "voxel_circumradius") then Some (voxel_circumradius B g)
  else if decide (name = "voxel_dihedral_angle") then Some (voxel_dihedral_angle B g)
  else if decide (name = "voxel_radius_edge_ratio") then Some (voxel_radius_edge_ratio B g)
  else if decide (name = "voxel_edge_ratio") then Some (voxel_edge_ratio B g)
  else None.

(** Modelled from the spec: the attribute sink of the mesh object
    ([Mesh.add_attribute], [Mesh.set_attribute], [Mesh.get_attribute],
    [Mesh.get_voxel_attribute] of the pymesh package, which the script
    imports). The spec gives [set(name, values)] and [get(name) -> Array],
    keyed by name, a registration of the name before the one bulk write,
    and a [MissingAttribute] failure for a name that was never computed;
    registering a predefined name asks the geometry provider for its
    values. *)
Definition add_attribute (name : string) : M unit :=
  modify (fun w =>
    let init := default [] (predefined name (geometry (mesh w))) in
    with_attributes (<[name := FloatArray init]> (attributes (mesh w))) w).

Definition set_attribute (name : string) (v : ndarray) : M unit :=
  w ← get_world;
  match attributes (mesh w) !! name with
  | Some _ => modify (with_attributes (<[name := v]> (attributes (mesh w))))
  | None => raise (MissingAttribute name)
  end.

Definition get_attribute (name : string) : M ndarray :=
  w ← get_world;
  match attributes (mesh w) !! name with
  | Some v => mret v
  | None => raise (MissingAttribute name)
  end.

(** A Boolean array read as numbers is an array of ones and zeros. *)
Definition as_floats (v : ndarray) : list float :=
  match v with
  | FloatArray a => a
  | BoolArray a => map (fun b : bool => if b then one else zero) a
  end.

(** Modelled from the spec: [Mesh.get_voxel_attribute], the stored array
    with one row per tetrahedron (the spec's [dihedral_angles(mesh)], one
    6-tuple per tet); for a mesh without tetrahedra there are no rows. *)
Definition get_voxel_attribute (name : string) : M Np.matrix :=
  v ← get_attribute name;
  w ← get_world;
  let n := num_voxels (geometry (mesh w)) in
  if (n =? 0)%nat then mret [] else lift (Np.reshape_rows n (as_floats v)).

(** [logging.getLogger(name).warn(msg)] *)
Definition logger_warn (name msg : string) : M unit :=
  modify (fun w =>
    with_log (log w ++ [ {| logger_name := name; levelno := WARNING; message := msg |} ]) w).

(** [a[i]] on a stored array *)
Definition item (v : ndarray) (i : nat) : result cell :=
  match v with
  | FloatArray a => match a !! i with Some x => Ok (CFloat x) | None => Raise IndexError end
  | BoolArray a => match a !! i with Some b => Ok (CBool b) | None => Raise IndexError end
  end.

(** ** [compute_distortion_energies] *)

Definition unsupported_element_kind : exn :=
  RuntimeError "Only tet mesh is supported for distortion computation".

(** The guard of lines 25 and 132: voxels that are not tetrahedra. *)
Definition not_tet_mesh (g : Geometry) : bool :=
  (0 <? num_voxels g)%nat && negb (vertex_per_voxel g =? 4)%nat.

(** [vertices[tet]]: the rows of the vertex array a voxel names. *)
Definition take_rows (V : Np.matrix) (tet : list nat) : result Np.matrix :=
  mapM (fun i => match V !! i with
                 | Some r => Ok r
                 | None => Raise IndexError
                 end) tet.

(** [G * V] for the sparse operator [G] and a dense [V]: the product over
    the stored entries of [G], refused when the inner dimensions differ. *)
Definition sparse_mul (G : Sparse.matrix) (V : Np.matrix) : result Np.matrix :=
  if (Sparse.ncols G =? Np.nrows V)%nat then Ok (Sparse.dot G V)
  else Raise (ValueError "dimension mismatch").

Definition deformation_gradient (g : Geometry) (tet : list nat)
  : result Np.matrix :=
  V ← take_rows (vertices g) tet; sparse_mul (gradient B) V.

(** [trace(A.T . A)], the squared Frobenius norm. *)
Definition frobenius2 (A : Np.matrix) : float := Np.trace (Np.dot (Np.T A) A).

(** The lambda of line 38. *)
Definition invert_J (args : Np.matrix * float) : result Np.matrix :=
  if eqb (snd args) zero then Ok (Np.full 3 3 inf)
  else match linalg_inv B (fst args) with
       | Some J_inv => Ok J_inv
       | None => Raise LinAlgError
       end.

(** Lines 47 and 48: the two masked assignments, one after the other. *)
Definition quantize (orientations : list float) : list float :=
  let orientations := Np.mask_assign (fun x => gtb x zero) one orientations in
  Np.mask_assign (fun x => ltb x zero) neg_one orientations.

Record Energies : Type := {
  conformal_amips : list float;
  finite_conformal_amips : list bool;
  symmetric_dirichlet : list float;
  finite_symmetric_dirichlet : list bool;
  orientations : list float
}.

(** Lines 28 to 48: the arrays, computed without touching the world. *)
Definition distortion_energies (g : Geometry) : result Energies :=
  let G := gradient B in
  let vertices := vertices g in
  let tets := voxels g in
  Js ← mapM (deformation_gradient g) tets;
  let J_F := map frobenius2 Js in
  let J_det := map (linalg_det B) Js in
  J_inv ← mapM invert_J (zip Js J_det);
  let J_inv_F := map frobenius2 J_inv in
  conformal_amips ← Np.divide J_F (map (cbrt B) (Np.square J_det));
  let finite_conformal_amips := Np.isfinite conformal_amips in
  symmetric_dirichlet ← Np.add J_F J_inv_F;
  let finite_symmetric_dirichlet := Np.isfinite symmetric_dirichlet in
  let orientations := quantize (tet_orientations B g) in
  Ok {| conformal_amips := conformal_amips;
        finite_conformal_amips := finite_conformal_amips;
        symmetric_dirichlet := symmetric_dirichlet;
        finite_symmetric_dirichlet := finite_symmetric_dirichlet;
        orientations := orientations |}.

Definition num_degenerate_tets (e : Energies) : nat :=
  Np.count_nonzero (map (fun x => eqb x zero) (orientations e)).
Definition num_inverted_tets (e : Energies) : nat :=
  Np.count_nonzero (map (fun x => ltb x zero) (orientations e)).
Definition num_nonfinite_amips (e : Energies) : nat :=
  Np.count_nonzero (Np.logical_not (finite_conformal_amips e)).
Definition num_nonfinite_dirichlet (e : Energies) : nat :=
  Np.count_nonzero (Np.logical_not (finite_symmetric_dirichlet e)).

Definition degenerate_msg (n : nat) : string := "degenerate tets: " +:+ pretty n.
Definition inverted_msg (n : nat) : string := "inverted tets: " +:+ pretty n.
Definition amips_msg (n : nat) : string := "Non-finite conformal AMIPS: " +:+ pretty n.
Definition dirichlet_msg (n : nat) : string :=
  "Non-finite symmetric Dirichlet: " +:+ pretty n.

(** Lines 50 to 65: the four counts and their warnings. *)
Definition report_anomalies (e : Energies) : M unit :=
  when (0 <? num_degenerate_tets e)%nat
       (logger_warn "Distorsion" (degenerate_msg (num_degenerate_tets e)));;
  when (0 <? num_inverted_tets e)%nat
       (logger_warn "Distorsion" (inverted_msg (num_inverted_tets e)));;
  when (0 <? num_nonfinite_amips e)%nat
       (logger_warn "Distorsion" (amips_msg (num_nonfinite_amips e)));;
  when (0 <? num_nonfinite_dirichlet e)%nat
       (logger_warn "Distorsion" (dirichlet_msg (num_nonfinite_dirichlet e))).

(** Lines 67 to 76: the five attributes, each registered and then set. *)
Definition store_energies (e : Energies) : M unit :=
  add_attribute "conformal_AMIPS";;
  set_attribute "conformal_AMIPS" (FloatArray (conformal_amips e));;
  add_attribute "finite_conformal_AMIPS";;
  set_attribute "finite_conformal_AMIPS" (BoolArray (finite_conformal_amips e));;
  add_attribute "symmetric_Dirichlet";;
  set_attribute "symmetric_Dirichlet" (FloatArray (symmetric_dirichlet e));;
  add_attribute "finite_symmetric_Dirichlet";;
  set_attribute "finite_symmetric_Dirichlet"
                (BoolArray (finite_symmetric_dirichlet e));;
  add_attribute "orientations";;
  set_attribute "orientations" (FloatArray (orientations e)).

Definition compute_distortion_energies : M unit :=
  w ← get_world;
  let g := geometry (mesh w) in
  if not_tet_mesh g then raise unsupported_element_kind
  else
    e ← lift (distortion_energies g);
    report_anomalies e;;
    store_energies e.

(** ** [compute_tet_quality_measures] *)

(** [np.amin(a, axis=1)] and [np.amax(a, axis=1)]: one reduction per row. *)
Definition amin_rows (a : Np.matrix) : result (list float) := mapM Np.amin a.
Definition amax_rows (a : Np.matrix) : result (list float) := mapM Np.amax a.

Definition compute_tet_quality_measures : M unit :=
  add_attribute "voxel_inradius";;
  add_attribute "voxel_circumradius";;
  inradius ← get_attribute "voxel_inradius";
  circumradius ← get_attribute "voxel_circumradius";
  radius_ratio ← lift (Np.divide (as_floats inradius) (as_floats circumradius));
  add_attribute "radius_ratio";;
  set_attribute "radius_ratio" (FloatArray radius_ratio);;
  add_attribute "voxel_dihedral_angle";;
  dihedral_angle ← get_voxel_attribute "voxel_dihedral_angle";
  w ← get_world;
  min_max ←
    (if (num_voxels (geometry (mesh w)) =? 0)%nat
     then mret ([], [])
     else
       min_dihedral_angle ← lift (amin_rows dihedral_angle);
       max_dihedral_angle ← lift (amax_rows dihedral_angle);
       mret (min_dihedral_angle, max_dihedral_angle));
  add_attribute "voxel_min_dihedral_angle";;
  set_attribute "voxel_min_dihedral_angle" (FloatArray (fst min_max));;
  add_attribute "voxel_max_dihedral_angle";;
  set_attribute "voxel_max_dihedral_angle" (FloatArray (snd min_max));;
  add_attribute "voxel_radius_edge_ratio";;
  add_attribute "voxel_edge_ratio".

(** ** [output_to_csv] *)

Definition csv_header : row :=
  [CStr "index"; CStr "edge_ratio"; CStr "radius_ratio";
   CStr "min_dihedral_angle"; CStr "max_dihedral_angle";
   CStr "radius_edge_ratio"; CStr "conformal_amips";
   CStr "symmetric_dirichlet"; CStr "orientation"].

(** [open(file, 'w')]: the file is created, or whatever was under the
    path is emptied, at once; the handle stands for the path. *)
Definition open_for_writing (file : argval) : M string :=
  path ← lift (fspath file);
  w ← get_world;
  if decide (path ∈ unwritable w) then raise (IOError path)
  else modify (with_files (<[path := Table []]> (files w)));; mret path.

(** The rows of the table under a path. *)
Definition table_at (path : string) (w : World) : list row :=
  match files w !! path with
  | Some (Table rows) => rows
  | _ => []
  end.

(** [writer.writerow(r)] for the writer on an open file; the file is
    closed when the [with] block is left, normally or by an exception, so
    every row written so far is on disk afterwards. *)
Definition writerow (fout : string) (r : row) : M unit :=
  modify (fun w =>
    with_files (<[fout := Table (table_at fout w ++ [r])]> (files w)) w).

(** [for i in l: body(i)] *)
Fixpoint for_each (l : list nat) (body : nat -> M unit) : M unit :=
  match l with
  | [] => mret tt
  | i :: l' => body i;; for_each l' body
  end.

Definition output_to_csv (csv_file : argval) : M unit :=
  fout ← open_for_writing csv_file;
  writerow fout csv_header;;
  w ← get_world;
  let n := num_voxels (geometry (mesh w)) in
  let index := seq 0 n in
  edge_ratio ← get_attribute "voxel_edge_ratio";
  radius_ratio ← get_attribute "radius_ratio";
  min_dihedral ← get_attribute "voxel_min_dihedral_angle";
  max_dihedral ← get_attribute "voxel_max_dihedral_angle";
  re_ratio ← get_attribute "voxel_radius_edge_ratio";
  amips ← get_attribute "conformal_AMIPS";
  dirichlet ← get_attribute "symmetric_Dirichlet";
  orientation ← get_attribute "orientations";
  for_each (seq 0 n) (fun i =>
    r ← lift (c1 ← item edge_ratio i;
              c2 ← item radius_ratio i;
              c3 ← item min_dihedral i;
              c4 ← item max_dihedral i;
              c5 ← item re_ratio i;
              c6 ← item amips i;
              c7 ← item dirichlet i;
              c8 ← item orientation i;
              mret [CInt i; c1; c2; c3; c4; c5; c6; c7; c8]);
    writerow fout r).

(** ** [parse_args]

    The parser of the script, as [argparse] of CPython 3.11 runs it: two
    options that each take one word, [--log] with its five choices and its
    default, and [--csv]; the help option every parser has; and two
    positionals. Words are strings of eight-bit characters. *)

Record Namespace : Type := {
  arg_log : argval;
  arg_csv : option argval;
  arg_input_mesh : argval;
  arg_output_mesh : argval
}.

Definition log_choices : list string :=
  ["DEBUG"; "INFO"; "WARNING"; "ERROR"; "CRITICAL"].
Definition log_default : string := "WARNING".

Inductive action : Type :=
| HelpAction
| StoreLog
| StoreCsv
| StoreInputMesh
| StoreOutputMesh.

Definition option_string_actions : list (string * action) :=
  [("-h", HelpAction); ("--help", HelpAction);
   ("--log", StoreLog); ("--csv", StoreCsv)].

Definition usage_error : exn := SystemExit 2.

(** [s.split(c, 1)] for a string that holds [c]: what is before the first
    [c], and what is after it. *)
Fixpoint split_at (c : ascii) (s : string) : option (string * string) :=
  match s with
  | EmptyString => None
  | String x s' =>
      if Ascii.eqb x c then Some (EmptyString, s')
      else match split_at c s' with
           | Some (before, after) => Some (String x before, after)
           | None => None
           end
  end.

Definition is_digit (c : ascii) : bool :=
  (48 <=? nat_of_ascii c)%nat && (nat_of_ascii c <=? 57)%nat.

Fixpoint skip_digits (s : string) : string :=
  match s with
  | String c s' => if is_digit c then skip_digits s' else s
  | EmptyString => s
  end.

(** Where [$] matches: at the end, or before a newline that ends the
    string. *)
Definition at_end (s : string) : bool :=
  match s with
  | EmptyString => true
  | String c EmptyString => Ascii.eqb c (ascii_of_nat 10)
  | _ => false
  end.

Definition starts_with_digit (s : string) : bool :=
  match s with String c _ => is_digit c | EmptyString => false end.

(** [_negative_number_matcher], the expression [^-\d+$|^-\d*\.\d+$]. *)
Definition negative_number_like (arg_string : string) : bool :=
  match arg_string with
  | String "-" s =>
      (starts_with_digit s && at_end (skip_digits s)) ||
      match skip_digits s with
      | String "." t => starts_with_digit t && at_end (skip_digits t)
      | _ => false
      end
  | _ => false
  end.

Definition has_char (c : ascii) (s : string) : bool :=
  match split_at c s with Some _ => true | None => false end.

(** How [_parse_optional] reads a word that is an option: its action, if
    the parser has one for it, the option string and the argument that
    came in the same word. *)
Record optional : Type := {
  opt_action : option action;
  option_string : string;
  explicit_arg : option string
}.

Definition second_is_dash (s : string) : bool :=
  match s with
  | String _ (String "-" _) => true
  | _ => false
  end.

(** [_get_option_tuples]: the options a word may abbreviate. *)
Definition get_option_tuples (arg_string : string) : list optional :=
  if second_is_dash arg_string then
    let '(option_prefix, explicit_arg) :=
      match split_at "=" arg_string with
      | Some (before, after) => (before, Some after)
      | None => (arg_string, None)
      end in
    omap (fun oa : string * action =>
            if String.prefix option_prefix (fst oa)
            then Some {| opt_action := Some (snd oa); option_string := fst oa;
                         explicit_arg := explicit_arg |}
            else None)
         option_string_actions
  else
    let short_option_prefix := String.substring 0 2 arg_string in
    let short_explicit_arg :=
      String.substring 2 (String.length arg_string - 2) arg_string in
    omap (fun oa : string * action =>
            if decide (fst oa = short_option_prefix)
            then Some {| opt_action := Some (snd oa); option_string := fst oa;
                         explicit_arg := Some short_explicit_arg |}
            else if String.prefix arg_string (fst oa)
            then Some {| opt_action := Some (snd oa); option_string := fst oa;
                         explicit_arg := None |}
            else None)
         option_string_actions.

(** [_parse_optional]: [None] for a word that is an argument. *)
Definition parse_optional (arg_string : string) : result (option optional) :=
  match arg_string with
  | EmptyString => Ok None
  | String c _ =>
      if negb (Ascii.eqb c "-") then Ok None
      else
        match assoc arg_string option_string_actions with
        | Some act =>
            Ok (Some {| opt_action := Some act; option_string := arg_string;
                        explicit_arg := None |})
        | None =>
            if (String.length arg_string =? 1)%nat then Ok None
            else
              match
                match split_at "=" arg_string with
                | Some (before, after) =>
                    match assoc before option_string_actions with
                    | Some act =>
                        Some {| opt_action := Some act; option_string := before;
                                explicit_arg := Some after |}
                    | None => None
                    end
                | None => None
                end
              with
              | Some tuple => Ok (Some tuple)
              | None =>
                  match get_option_tuples arg_string with
                  | _ :: _ :: _ => Raise usage_error
                  | [tuple] => Ok (Some tuple)
                  | [] =>
                      if negative_number_like arg_string then Ok None
                      else if has_char " " arg_string then Ok None
                      else Ok (Some {| opt_action := None;
                                       option_string := arg_string;
                                       explicit_arg := None |})
                  end
              end
        end
  end.

(** The pattern of the command line: ['A'] for an argument, ['O'] for an
    option and ['-'] for the first ["--"]. *)
Inductive token : Type :=
| TokenA (arg_string : string)
| TokenO (arg_string : string) (o : optional)
| TokenDash.

Fixpoint scan (arg_strings : list string) : result (list token) :=
  match arg_strings with
  | [] => Ok []
  | arg_string :: rest =>
      if decide (arg_string = "--") then Ok (TokenDash :: map TokenA rest)
      else
        o ← parse_optional arg_string;
        tokens ← scan rest;
        Ok (match o with
            | None => TokenA arg_string
            | Some tuple => TokenO arg_string tuple
            end :: tokens)
  end.

Definition arg_string_of (t : token) : string :=
  match t with
  | TokenA a => a
  | TokenO a _ => a
  | TokenDash => "--"
  end.

Definition is_option (t : token) : bool :=
  match t with TokenO _ _ => true | _ => false end.

(** The namespace while it is filled, the positionals that have not got
    their word yet, and the words nothing has taken. *)
Record Parsed : Type := {
  p_log : argval;
  p_csv : option argval;
  p_input_mesh : option argval;
  p_output_mesh : option argval;
  p_positionals : list action;
  p_extras : list string
}.

Definition store (act : action) (v : argval) (st : Parsed) : Parsed :=
  {| p_log := match act with StoreLog => v | _ => p_log st end;
     p_csv := match act with StoreCsv => Some v | _ => p_csv st end;
     p_input_mesh :=
       match act with StoreInputMesh => Some v | _ => p_input_mesh st end;
     p_output_mesh :=
       match act with StoreOutputMesh => Some v | _ => p_output_mesh st end;
     p_positionals := p_positionals st;
     p_extras := p_extras st |}.

Definition with_positionals (l : list action) (st : Parsed) : Parsed :=
  {| p_log := p_log st; p_csv := p_csv st;
     p_input_mesh := p_input_mesh st; p_output_mesh := p_output_mesh st;
     p_positionals := l; p_extras := p_extras st |}.

Definition add_extras (l : list string) (st : Parsed) : Parsed :=
  {| p_log := p_log st; p_csv := p_csv st;
     p_input_mesh := p_input_mesh st; p_output_mesh := p_output_mesh st;
     p_positionals := p_positionals st;
     p_extras := (p_extras st ++ l)%list |}.

(** [_check_value]: a value given to [--log] is checked against the
    choices. *)
Definition check_value (act : action) (v : string) : result unit :=
  match act with
  | StoreLog =>
      if bool_decide (v ∈ log_choices) then Ok tt else Raise usage_error
  | _ => Ok tt
  end.

(** [list.remove(x)], when [x] is there. *)
Fixpoint remove_first (x : string) (l : list string) : list string :=
  match l with
  | [] => []
  | y :: l' => if decide (y = x) then l' else y :: remove_first x l'
  end.

(** [_get_values] for an action that takes one word: the first ["--"]
    among the words is taken out; one word left is the value, checked
    against the choices, and any other number of words is left as a
    list. *)
Definition get_values (act : action) (arg_strings : list string)
  : result argval :=
  match remove_first "--" arg_strings with
  | [arg_string] => check_value act arg_string;; Ok (Str arg_string)
  | arg_strings => mapM (check_value act) arg_strings;; Ok (StrList arg_strings)
  end.

(** [take_action]: the help action prints the help and ends the process
    with status 0; a store action puts the value in the namespace. *)
Definition take_action (act : action) (arg_strings : list string)
  (st : Parsed) : result Parsed :=
  v ← get_values act arg_strings;
  match act with
  | HelpAction => Raise (SystemExit 0)
  | _ => Ok (store act v st)
  end.

(** The explicit argument of [-h], which takes none, is read as more
    single-dash options, letter by letter; [-h] is the only one. *)
Fixpoint help_cluster (explicit_arg : string) (st : Parsed) : result Parsed :=
  match explicit_arg with
  | EmptyString => Raise usage_error
  | String c tail =>
      if Ascii.eqb c "h" then
        match tail with
        | EmptyString => take_action HelpAction [] st
        | _ => help_cluster tail st
        end
      else Raise usage_error
  end.

(** How many tokens the expression [-*A-*] of a positional takes. *)
Fixpoint dashes (tokens : list token) : nat :=
  match tokens with
  | TokenDash :: rest => S (dashes rest)
  | _ => 0
  end.

Definition match_positional (tokens : list token) : option nat :=
  let d := dashes tokens in
  match drop d tokens with
  | TokenA _ :: rest => Some (d + 1 + dashes rest)%nat
  | _ => None
  end.

Fixpoint match_groups (n : nat) (tokens : list token) : option (list nat) :=
  match n with
  | 0%nat => Some []
  | S n' =>
      count ← match_positional tokens;
      counts ← match_groups n' (drop count tokens);
      Some (count :: counts)
  end.

(** [_match_arguments_partial]: as many of the positionals as the pattern
    has room for. *)
Fixpoint match_arguments_partial (n : nat) (tokens : list token) : list nat :=
  match n with
  | 0%nat => []
  | S n' =>
      match match_groups n tokens with
      | Some counts => counts
      | None => match_arguments_partial n' tokens
      end
  end.

(** [consume_positionals] *)
Fixpoint take_positionals (arg_counts : list nat) (tokens : list token)
  (st : Parsed) : result (list token * Parsed) :=
  match arg_counts, p_positionals st with
  | arg_count :: arg_counts', act :: positionals =>
      st' ← take_action act (map arg_string_of (take arg_count tokens))
                        (with_positionals positionals st);
      take_positionals arg_counts' (drop arg_count tokens) st'
  | _, _ => Ok (tokens, st)
  end.

Definition consume_positionals (tokens : list token) (st : Parsed)
  : result (list token * Parsed) :=
  take_positionals
    (match_arguments_partial (length (p_positionals st)) tokens) tokens st.

(** The loop of [_parse_known_args]. Up to the last option the pattern
    has no ['-'], so the positionals take the arguments before an option
    one by one, and what is left of them before the option goes to the
    extras; after the last option the positionals are matched once
    more, and the rest goes to the extras. *)
Fixpoint consume (tokens : list token) (st : Parsed) : result Parsed :=
  if existsb is_option tokens then
    match tokens with
    | TokenO arg_string o :: rest =>
        match opt_action o, explicit_arg o with
        | None, _ => consume rest (add_extras [arg_string] st)
        | Some HelpAction, Some explicit_arg =>
            if second_is_dash (option_string o) then Raise usage_error
            else help_cluster explicit_arg st
        | Some act, Some explicit_arg =>
            st' ← take_action act [explicit_arg] st; consume rest st'
        | Some HelpAction, None => take_action HelpAction [] st
        | Some act, None =>
            match rest with
            | TokenA arg_string :: rest' =>
                st' ← take_action act [arg_string] st; consume rest' st'
            | _ => Raise usage_error
            end
        end
    | t :: rest =>
        match p_positionals st with
        | act :: positionals =>
            st' ← take_action act [arg_string_of t]
                              (with_positionals positionals st);
            consume rest st'
        | [] => consume rest (add_extras [arg_string_of t] st)
        end
    | [] => Ok st
    end
  else
    '(rest, st') ← consume_positionals tokens st;
    Ok (add_extras (map arg_string_of rest) st').

(** Before a word is read: the defaults are in the namespace, and both
    positionals are to come. *)
Definition initial : Parsed :=
  {| p_log := log_default; p_csv := None;
     p_input_mesh := None; p_output_mesh := None;
     p_positionals := [StoreInputMesh; StoreOutputMesh];
     p_extras := [] |}.

(** [parse_known_args]: a positional that got no word is a usage error. *)
Definition parse_known_args (arg_strings : list string) : result Parsed :=
  tokens ← scan arg_strings;
  st ← consume tokens initial;
  match p_positionals st with
  | [] => Ok st
  | _ => Raise usage_error
  end.

(** [parse_args()] on the words after the program name: a word nothing
    has taken is a usage error. *)
Definition parse_args (argv : list string) : result Namespace :=
  st ← parse_known_args argv;
  match p_extras st, p_input_mesh st, p_output_mesh st with
  | [], Some input_mesh, Some output_mesh =>
      Ok {| arg_log := p_log st; arg_csv := p_csv st;
            arg_input_mesh := input_mesh; arg_output_mesh := output_mesh |}
  | _, _, _ => Raise usage_error
  end.

(** ** [main] *)

(** The Python values [main] looks at. *)
Inductive pyobj : Type :=
| PyInt (n : nat)
| PyBool (b : bool)
| PyNone
| PyObject (kind : string).

Definition str (v : pyobj) : string :=
  match v with
  | PyInt n => pretty n
  | PyBool true => "True"
  | PyBool false => "False"
  | PyNone => "None"
  | PyObject kind => "<" +:+ kind +:+ ">"
  end.

(** The names of the [logging] module of CPython 3.11, with the kind of
    what each is bound to. The eight level constants are integers, and so
    are, for [isinstance], the four switches, [bool] being a subclass of
    [int]; nothing else in the module is an integer. *)
Definition logging_levels : list (string * pyobj) :=
  [("CRITICAL", PyInt 50); ("FATAL", PyInt 50); ("ERROR", PyInt 40);
   ("WARNING", PyInt 30); ("WARN", PyInt 30); ("INFO", PyInt 20);
   ("DEBUG", PyInt 10); ("NOTSET", PyInt 0)].

Definition logging_switches : list (string * pyobj) :=
  [("raiseExceptions", PyBool true); ("logThreads", PyBool true);
   ("logMultiprocessing", PyBool true); ("logProcesses", PyBool true)].

Definition logging_others : list (string * pyobj) :=
  [("BASIC_FORMAT", PyObject "str"); ("BufferingFormatter", PyObject "type");
   ("FileHandler", PyObject "type"); ("Filter", PyObject "type");
   ("Filterer", PyObject "type"); ("Formatter", PyObject "type");
   ("GenericAlias", PyObject "type"); ("Handler", PyObject "type");
   ("LogRecord", PyObject "type"); ("Logger", PyObject "type");
   ("LoggerAdapter", PyObject "type"); ("Manager", PyObject "type");
   ("NullHandler", PyObject "type"); ("PercentStyle", PyObject "type");
   ("PlaceHolder", PyObject "type"); ("RootLogger", PyObject "type");
   ("StrFormatStyle", PyObject "type"); ("StreamHandler", PyObject "type");
   ("StringTemplateStyle", PyObject "type"); ("Template", PyObject "type");
   ("_STYLES", PyObject "dict"); ("_StderrHandler", PyObject "type");
   ("__all__", PyObject "list"); ("__author__", PyObject "str");
   ("__builtins__", PyObject "dict"); ("__cached__", PyObject "str");
   ("__date__", PyObject "str"); ("__doc__", PyObject "str");
   ("__file__", PyObject "str"); ("__loader__", PyObject "SourceFileLoader");
   ("__name__", PyObject "str"); ("__package__", PyObject "str");
   ("__path__", PyObject "list"); ("__spec__", PyObject "ModuleSpec");
   ("__status__", PyObject "str"); ("__version__", PyObject "str");
   ("_acquireLock", PyObject "function");
   ("_addHandlerRef", PyObject "function");
   ("_after_at_fork_child_reinit_locks", PyObject "function");
   ("_at_fork_reinit_lock_weakset", PyObject "WeakSet");
   ("_checkLevel", PyObject "function");
   ("_defaultFormatter", PyObject "Formatter");
   ("_defaultLastResort", PyObject "_StderrHandler");
   ("_handlerList", PyObject "list");
   ("_handlers", PyObject "WeakValueDictionary");
   ("_is_internal_frame", PyObject "function");
   ("_levelToName", PyObject "dict"); ("_lock", PyObject "RLock");
   ("_logRecordFactory", PyObject "type"); ("_loggerClass", PyObject "type");
   ("_nameToLevel", PyObject "dict");
   ("_register_at_fork_reinit_lock", PyObject "function");
   ("_releaseLock", PyObject "function");
   ("_removeHandlerRef", PyObject "function");
   ("_showwarning", PyObject "function"); ("_srcfile", PyObject "str");
   ("_startTime", PyObject "float"); ("_str_formatter", PyObject "Formatter");
   ("_warnings_showwarning", PyNone); ("addLevelName", PyObject "function");
   ("atexit", PyObject "module"); ("basicConfig", PyObject "function");
   ("captureWarnings", PyObject "function");
   ("collections", PyObject "module"); ("critical", PyObject "function");
   ("currentframe", PyObject "function"); ("debug", PyObject "function");
   ("disable", PyObject "function"); ("error", PyObject "function");
   ("exception", PyObject "function"); ("fatal", PyObject "function");
   ("getLevelName", PyObject "function");
   ("getLevelNamesMapping", PyObject "function");
   ("getLogRecordFactory", PyObject "function");
   ("getLogger", PyObject "function");
   ("getLoggerClass", PyObject "function"); ("info", PyObject "function");
   ("io", PyObject "module"); ("lastResort", PyObject "_StderrHandler");
   ("log", PyObject "function"); ("makeLogRecord", PyObject "function");
   ("os", PyObject "module"); ("re", PyObject "module");
   ("root", PyObject "RootLogger");
   ("setLogRecordFactory", PyObject "function");
   ("setLoggerClass", PyObject "function"); ("shutdown", PyObject "function");
   ("sys", PyObject "module"); ("threading", PyObject "module");
   ("time", PyObject "module"); ("traceback", PyObject "module");
   ("warn", PyObject "function"); ("warning", PyObject "function");
   ("warnings", PyObject "module"); ("weakref", PyObject "module")].

Definition logging_module : list (string * pyobj) :=
  logging_levels ++ logging_switches ++ logging_others.

(** [getattr(module, name, default)]; a name that is not a string is a
    [TypeError]. *)
Definition getattr (module : list (string * pyobj)) (name : argval)
  (default : pyobj) : result pyobj :=
  match name with
  | Str name =>
      Ok match assoc name module with
         | Some v => v
         | None => default
         end
  | StrList _ => Raise (TypeError "attribute name must be string, not 'list'")
  end.

(** [isinstance(v, int)] *)
Definition isinstance_int (v : pyobj) : bool :=
  match v with
  | PyInt _ | PyBool _ => true
  | PyNone | PyObject _ => false
  end.

(** The names bound where line 137 is evaluated: the locals of [main] and
    the globals of the script (its imports and its functions). *)
Definition main_scope (numeric_level : pyobj) : list (string * pyobj) :=
  [("args", PyObject "Namespace"); ("mesh", PyObject "Mesh");
   ("numeric_level", numeric_level);
   ("argparse", PyObject "module"); ("pymesh", PyObject "module");
   ("np", PyObject "module"); ("numpy", PyObject "module");
   ("logging", PyObject "module"); ("csv", PyObject "module");
   ("parse_args", PyObject "function");
   ("compute_distortion_energies", PyObject "function");
   ("compute_tet_quality_measures", PyObject "function");
   ("output_to_csv", PyObject "function"); ("main", PyObject "function")].

(** Reading a variable: an unbound name is a [NameError]. *)
Definition load_name (scope : list (string * pyobj)) (name : string)
  : result pyobj :=
  match assoc name scope with
  | Some v => Ok v
  | None => Raise (NameError name)
  end.

(** [logging.basicConfig(level=...)]: the root logger takes an integer
    level as it is, [True] and [False] standing for 1 and 0. *)
Definition basicConfig (level : pyobj) : M unit :=
  match level with
  | PyInt n => modify (with_root_level n)
  | PyBool b => modify (with_root_level (if b then 1 else 0))
  | PyNone => mret tt
  | PyObject _ => raise (TypeError "Level not an integer or a valid string")
  end.

(** [pymesh.load_mesh] and [pymesh.save_mesh] on the files of the world:
    a mesh is read from a mesh file only, and is written over whatever is
    under the path. *)
Definition load_mesh (filename : argval) : M unit :=
  path ← lift (fspath filename);
  w ← get_world;
  match files w !! path with
  | Some (MeshFile m) => modify (with_mesh m)
  | _ => raise (IOError path)
  end.

Definition save_mesh (filename : argval) : M unit :=
  path ← lift (fspath filename);
  w ← get_world;
  if decide (path ∈ unwritable w) then raise (IOError path)
  else modify (with_files (<[path := MeshFile (mesh w)]> (files w))).

(** Lines 131 to 145: [main] once the arguments are parsed. *)
Definition run (args : Namespace) : M unit :=
  load_mesh (arg_input_mesh args);;
  w ← get_world;
  if not_tet_mesh (geometry (mesh w)) then raise unsupported_element_kind
  else
    numeric_level ← lift (getattr logging_module (arg_log args) PyNone);
    (if negb (isinstance_int numeric_level)
     then
       loglevel ← lift (load_name (main_scope numeric_level) "loglevel");
       raise (ValueError ("Invalid log level: " +:+ str loglevel))
     else mret tt);;
    basicConfig numeric_level;;
    compute_distortion_energies;;
    compute_tet_quality_measures;;
    match arg_csv args with
    | Some csv_file => output_to_csv csv_file
    | None => mret tt
    end;;
    save_mesh (arg_output_mesh args).

Definition main (argv : list string) : M unit :=
  args ← lift (parse_args argv);
  run args.

End Program.

(** ** A concrete back-end and a few meshes to run the program on *)

Module Sample.

(** The reference tetrahedron with corners 0, e1, e2, e3: the gradient of
    its linear shape functions sends four vertices to their three edge
    vectors from the first one. Two entries are stored in each row. *)
Definition G : Sparse.matrix :=
  {| Sparse.ncols := 4;
     Sparse.rows := [[(0, neg_one); (1, one)];
                     [(0, neg_one); (2, one)];
                     [(0, neg_one); (3, one)]]%nat |}.

(** Determinant of a 3 by 3 matrix by expansion along the first row. *)
Definition det3 (A : Np.matrix) : float :=
  let a := Np.entry A in
  let minor i j k l := sub (mul (a i j) (a k l)) (mul (a i l) (a k j)) in
  Float64.add
    (sub (mul (a 0 0) (minor 1 1 2 2)) (mul (a 0 1) (minor 1 0 2 2)))
    (mul (a 0 2) (minor 1 0 2 1))%nat.

(** Inverse by the adjugate; a zero determinant is reported as singular. *)
Definition inv3 (A : Np.matrix) : option Np.matrix :=
  let a := Np.entry A in
  let d := det3 A in
  let c i j k l := div (sub (mul (a i j) (a k l)) (mul (a i l) (a k j))) d in
  if eqb d zero then None
  else Some [[c 1 1 2 2; c 0 2 2 1; c 0 1 1 2];
             [c 1 2 2 0; c 0 0 2 2; c 0 2 1 0];
             [c 1 0 2 1; c 0 1 2 0; c 0 0 1 1]]%nat.

(** Integer cube root, bit by bit from the top. *)
Fixpoint icbrt (bits : nat) (m acc : Z) : Z :=
  match bits with
  | O => acc
  | S b =>
      let t := (acc + 2 ^ Z.of_nat b)%Z in
      icbrt b m (if (t * t * t <=? m)%Z then t else acc)
  end.

(** Correctly rounded cube root of a double. *)
Definition cbrt_rn (x : float) : float :=
  match x with
  | S754_finite s m e =>
      let k := (168 + (e - 168) mod 3)%Z in
      let m' := (Z.pos m * 2 ^ k)%Z in
      let q := icbrt 80 m' 0 in
      binary_round_aux prec emax s q ((e - k) / 3)
        (if (q * q * q =? m')%Z then loc_Exact else loc_Inexact Lt)
  | _ => x
  end.

(** A double from a fraction of two integers. *)
Definition frac (n d : Z) : float := div (of_Z n) (of_Z d).

(** The signed volume measure of a voxel: the determinant of its edge
    vectors; [nan] when a vertex is missing. *)
Definition orientation (g : Geometry) (tet : list nat) : float :=
  match mapM (fun i => vertices g !! i) tet with
  | Some V => det3 (Sparse.dot G V)
  | None => nan
  end.

(** Shape primitives of the corner tetrahedron 0, e1, e2, e3, to four
    digits; the back-end reports them for every voxel. *)
Definition inradius : float := frac 2113 10000.
Definition circumradius : float := frac 8660 10000.
Definition dihedral_angles : list float :=
  [frac 15708 10000; frac 15708 10000; frac 15708 10000;
   frac 9553 10000; frac 9553 10000; frac 9553 10000].
Definition radius_edge_ratio : float := frac 8660 10000.
Definition edge_ratio : float := frac 7071 10000.

Definition backend : Backend :=
  {| gradient := G;
     linalg_det := det3;
     linalg_inv := inv3;
     cbrt := cbrt_rn;
     tet_orientations := fun g => map (orientation g) (voxels g);
     voxel_inradius := fun g => map (fun _ => inradius) (voxels g);
     voxel_circumradius := fun g => map (fun _ => circumradius) (voxels g);
     voxel_dihedral_angle := fun g => concat (map (fun _ => dihedral_angles) (voxels g));
     voxel_radius_edge_ratio := fun g => map (fun _ => radius_edge_ratio) (voxels g);
     voxel_edge_ratio := fun g => map (fun _ => edge_ratio) (voxels g) |}.

Definition fresh (g : Geometry) : World :=
  {| mesh := {| geometry := g; attributes := ∅ |};
     root_level := WARNING;
     log := [];
     files := ∅;
     unwritable := ∅ |}.

Definition pt (x y z : Z) : list float := [of_Z x; of_Z y; of_Z z].

(** One corner tetrahedron. *)
Definition corner : Geometry :=
  {| vertices := [pt 0 0 0; pt 1 0 0; pt 0 1 0; pt 0 0 1];
     voxels := [[0; 1; 2; 3]]%nat;
     vertex_per_voxel := 4 |}.

(** The corner tetrahedron, its mirror image and a flat one. *)
Definition three : Geometry :=
  {| vertices := [pt 0 0 0; pt 1 0 0; pt 0 1 0; pt 0 0 1; pt 1 1 0];
     voxels := [[0; 1; 2; 3]; [0; 2; 1; 3]; [0; 1; 2; 4]]%nat;
     vertex_per_voxel := 4 |}.

(** A surface mesh: vertices and no voxels. *)
Definition surface : Geometry :=
  {| vertices := [pt 0 0 0; pt 1 0 0; pt 0 1 0];
     voxels := [];
     vertex_per_voxel := 0 |}.

(** One hexahedron. *)
Definition hex : Geometry :=
  {| vertices := [pt 0 0 0; pt 1 0 0; pt 1 1 0; pt 0 1 0;
                  pt 0 0 1; pt 1 0 1; pt 1 1 1; pt 0 1 1];
     voxels := [[0; 1; 2; 3; 4; 5; 6; 7]]%nat;
     vertex_per_voxel := 8 |}.

(** A tetrahedron with a vertex whose first coordinate is not a number. *)
Definition broken : Geometry :=
  {| vertices := [pt 0 0 0; [nan; zero; zero]; pt 0 1 0; pt 0 0 1];
     voxels := [[0; 1; 2; 3]]%nat;
     vertex_per_voxel := 4 |}.

(** The world after the distortion evaluator has run on a fresh mesh,
    and the arrays it computed. *)
Definition distorted (g : Geometry) : World :=
  snd (compute_distortion_energies backend (fresh g)).

Definition energies (g : Geometry) : Energies :=
  match distortion_energies backend g with
  | Ok e => e
  | Raise _ =>
      {| conformal_amips := []; finite_conformal_amips := [];
         symmetric_dirichlet := []; finite_symmetric_dirichlet := [];
         orientations := [] |}
  end.

End Sample.

(** ** The formulas of the algorithm, written out

    The quantities the specification names, written with the lists and the
    binary64 operations of the standard library only; the statements below
    compare what the program computes and stores with them. *)

Module Formula.

(** A sum, term after term from the left. *)
Definition total (l : list spec_float) : spec_float :=
  match l with
  | [] => S754_zero false
  | x :: xs => fold_left (SFadd 53 1024) xs x
  end.

(** [trace(A^T . A)]: entry [(k, k)] of [A^T . A] is the sum, over the
    rows [r] of [A], of [r[k] * r[k]]; the trace adds these up over the
    columns [k]. *)
Definition trace_of_gram (A : list (list spec_float)) : spec_float :=
  total (map (fun k =>
                total (map (fun r => SFmul 53 1024 (nth k r (S754_zero false))
                                                   (nth k r (S754_zero false)))
                           A))
             (seq 0 (length (hd [] A)))).

(** [G . V] for an operator [G] given by the stored entries of its rows:
    entry [(i, c)] of the product starts as zero and takes in
    [a * V[j][c]] for every stored entry [(j, a)] of row [i]. *)
Definition product (G : list (list (nat * spec_float)))
  (V : list (list spec_float)) : list (list spec_float) :=
  map (fun stored =>
         map (fun c =>
                fold_left (fun y (e : nat * spec_float) =>
                             SFadd 53 1024 y
                               (SFmul 53 1024 (snd e)
                                  (nth c (nth (fst e) V []) (S754_zero false))))
                          stored (S754_zero false))
             (seq 0 (length (hd [] V))))
      G.

(** An infinity of either sign, or a NaN. *)
Definition non_finite (x : spec_float) : Prop :=
  match x with
  | S754_infinity _ | S754_nan => True
  | S754_zero _ | S754_finite _ _ _ => False
  end.

Definition is_non_finite (x : spec_float) : bool :=
  match x with
  | S754_infinity _ | S754_nan => true
  | S754_zero _ | S754_finite _ _ _ => false
  end.

(** How many entries of an array pass a test. *)
Definition count (p : spec_float -> bool) (a : list spec_float) : nat :=
  length (List.filter p a).

End Formula.

(** ** Expected outcomes, for the statements below *)

Section Expected.

Variable B : Backend.

Definition warning (msg : string) : LogRecord :=
  {| logger_name := "Distorsion"; levelno := WARNING; message := msg |}.

(** The records the evaluator hands to its logger for given arrays. *)
Definition warnings (e : Energies) : list LogRecord :=
  ((if (0 <? num_degenerate_tets e)%nat
    then [warning (degenerate_msg (num_degenerate_tets e))] else []) ++
   (if (0 <? num_inverted_tets e)%nat
    then [warning (inverted_msg (num_inverted_tets e))] else []) ++
   (if (0 <? num_nonfinite_amips e)%nat
    then [warning (amips_msg (num_nonfinite_amips e))] else []) ++
   (if (0 <? num_nonfinite_dirichlet e)%nat
    then [warning (dirichlet_msg (num_nonfinite_dirichlet e))] else []))%list.

(** The attribute store after the five arrays are written. *)
Definition stored (e : Energies) (a : gmap string ndarray)
  : gmap string ndarray :=
  <["orientations" := FloatArray (orientations e)]>
  (<["finite_symmetric_Dirichlet" := BoolArray (finite_symmetric_dirichlet e)]>
  (<["symmetric_Dirichlet" := FloatArray (symmetric_dirichlet e)]>
  (<["finite_conformal_AMIPS" := BoolArray (finite_conformal_amips e)]>
  (<["conformal_AMIPS" := FloatArray (conformal_amips e)]> a)))).

Definition after_distortion (e : Energies) (w : World) : World :=
  with_attributes (stored e (attributes (mesh w)))
                  (with_log (log w ++ warnings e) w).

(** The mesh invariant of the data model: every voxel has
    [vertex_per_voxel] vertex indices, all within bounds. *)
Definition well_formed (g : Geometry) : bool :=
  forallb (fun tet =>
    (length tet =? vertex_per_voxel g)%nat &&
    forallb (fun i => (i <? length (vertices g))%nat) tet) (voxels g).

(** The formulas of the algorithm on one deformation gradient. *)
Definition amips_of (J : Np.matrix) : float :=
  let d := linalg_det B J in div (frobenius2 J) (cbrt B (mul d d)).

Definition dirichlet_of (J J_inv : Np.matrix) : float :=
  Float64.add (frobenius2 J) (frobenius2 J_inv).

(** One of -1, 0 and +1; a zero of either sign is zero. *)
Definition is_sign (o : float) : Prop :=
  o = neg_one \/ eqb o zero = true \/ o = one.

(** The matrix [invert_J] hands out for a zero determinant. *)
Definition all_inf : Np.matrix :=
  [[inf; inf; inf]; [inf; inf; inf]; [inf; inf; inf]].

(** The minimum and the maximum of a row as NumPy reduces it: a NaN in the
    row wins; otherwise the result is an entry of the row that no entry is
    below (above). *)
Definition is_minimum_of (m : float) (row : list float) : Prop :=
  if existsb is_nan row then is_nan m = true
  else m ∈ row /\ forall x, x ∈ row -> leb m x = true.

Definition is_maximum_of (m : float) (row : list float) : Prop :=
  if existsb is_nan row then is_nan m = true
  else m ∈ row /\ forall x, x ∈ row -> leb x m = true.

(** The six dihedral angles of tetrahedron [i] in the flat array. *)
Definition angles_of (flat : list float) (i : nat) : list float :=
  take 6 (drop (i * 6) flat).

(** The attribute store after the shape quality evaluator. *)
Definition quality_stored (g : Geometry) (radius_ratio mins maxs : list float)
  (a : gmap string ndarray) : gmap string ndarray :=
  <["voxel_edge_ratio" := FloatArray (voxel_edge_ratio B g)]>
  (<["voxel_radius_edge_ratio" := FloatArray (voxel_radius_edge_ratio B g)]>
  (<["voxel_max_dihedral_angle" := FloatArray maxs]>
  (<["voxel_min_dihedral_angle" := FloatArray mins]>
  (<["voxel_dihedral_angle" := FloatArray (voxel_dihedral_angle B g)]>
  (<["radius_ratio" := FloatArray radius_ratio]>
  (<["voxel_circumradius" := FloatArray (voxel_circumradius B g)]>
  (<["voxel_inradius" := FloatArray (voxel_inradius B g)]> a))))))).

(** The geometry provider's contract on the shape primitives: one
    inradius and one circumradius per tetrahedron, six angles each. *)
Definition primitives_fit (g : Geometry) : Prop :=
  length (voxel_inradius B g) = num_voxels g /\
  length (voxel_circumradius B g) = num_voxels g /\
  length (voxel_dihedral_angle B g) = (num_voxels g * 6)%nat.

End Expected.

(** The attributes the exporter reads, in the order of its columns. *)
Definition required_attributes : list string :=
  ["voxel_edge_ratio"; "radius_ratio"; "voxel_min_dihedral_angle";
   "voxel_max_dihedral_angle"; "voxel_radius_edge_ratio"; "conformal_AMIPS";
   "symmetric_Dirichlet"; "orientations"].

Definition size (v : ndarray) : nat :=
  match v with
  | FloatArray a => length a
  | BoolArray a => length a
  end.

(** The cell for entry [i] of a stored array. *)
Definition cell_at (v : ndarray) (i : nat) : cell :=
  match item v i with
  | Ok c => c
  | Raise _ => CStr ""
  end.

(** A cell shows entry [i] of a stored array when it holds the number, or
    the truth value, found at index [i] of the array. *)
Definition shows (c : cell) (v : ndarray) (i : nat) : Prop :=
  match v with
  | FloatArray a => exists x, a !! i = Some x /\ c = CFloat x
  | BoolArray a => exists b, a !! i = Some b /\ c = CBool b
  end.

(** The world once the table file holds the given rows. *)
Definition with_table (path : string) (rows : list row) (w : World) : World :=
  with_files (<[path := Table rows]> (files w)) w.

(** An order-preserving key for the doubles that are numbers. *)
Definition rank (x : float) : Z * Z * Z :=
  match x with
  | S754_infinity true => (-2, 0, 0)
  | S754_finite true m e => (-1, - e, - Z.pos m)
  | S754_zero _ | S754_nan => (0, 0, 0)
  | S754_finite false m e => (1, e, Z.pos m)
  | S754_infinity false => (2, 0, 0)
  end%Z.

Definition lex_le (a b : Z * Z * Z) : Prop :=
  (a.1.1 < b.1.1 \/
   (a.1.1 = b.1.1 /\ (a.1.2 < b.1.2 \/ (a.1.2 = b.1.2 /\ a.2 <= b.2))))%Z.

(** Runs of the whole pipeline on the sample meshes. *)
Module Runs.

Definition gradients (g : Geometry) : list Np.matrix :=
  match mapM (deformation_gradient Sample.backend g) (voxels g) with
  | Ok Js => Js
  | Raise _ => []
  end.

Definition inverses (g : Geometry) : list Np.matrix :=
  match mapM (invert_J Sample.backend)
             (zip (gradients g) (map Sample.det3 (gradients g))) with
  | Ok J_inv => J_inv
  | Raise _ => []
  end.

(** The world after both evaluators. *)
Definition measured (g : Geometry) : World :=
  snd (compute_tet_quality_measures Sample.backend (Sample.distorted g)).

(** The stored arrays the exporter reads, in column order. *)
Definition columns (w : World) : list ndarray :=
  map (fun name => default (FloatArray []) (attributes (mesh w) !! name))
      required_attributes.


(** A world with one mesh file. *)
Definition on_disk (g : Geometry) : World :=
  with_files {["in.msh" := MeshFile {| geometry := g; attributes := ∅ |}]}
             (Sample.fresh Sample.surface).

End Runs.

(** ** Further outcomes, for the statements about the whole program *)

(** A computation leaves an observation of the world as it was, however
    it ends. *)
Definition preserves {A X} (f : World -> X) (m : M A) : Prop :=
  forall w, f (snd (m w)) = f w.

(** The files on disk and the configuration of the logging module. *)
Definition surroundings (w : World) : gmap string file * gset string * nat :=
  (files w, unwritable w, root_level w).

(** The five attributes the distortion evaluator writes. *)
Definition distortion_attributes : list string :=
  ["conformal_AMIPS"; "finite_conformal_AMIPS"; "symmetric_Dirichlet";
   "finite_symmetric_Dirichlet"; "orientations"].

(** The eight names the shape quality evaluator registers. *)
Definition quality_attributes : list string :=
  ["voxel_inradius"; "voxel_circumradius"; "radius_ratio";
   "voxel_dihedral_angle"; "voxel_min_dihedral_angle";
   "voxel_max_dihedral_angle"; "voxel_radius_edge_ratio";
   "voxel_edge_ratio"].

(** Row [i] of the table for given stored arrays. *)
Definition table_row (vs : list ndarray) (i : nat) : row :=
  CInt i :: map (fun v => cell_at v i) vs.

(** How many rows the loop of the exporter gets through: the number of
    tetrahedra, or the length of the shortest array if that is less. *)
Definition rows_available (n : nat) (vs : list ndarray) : nat :=
  foldr (fun v k => Nat.min (size v) k) n vs.




(** A command line word that is read as an argument: it is not the
    separator ["--"], and the parser does not take it for an option. *)
Definition is_argument (a : string) : bool :=
  negb (String.eqb a "--") &&
  match parse_optional a with
  | Ok None => true
  | _ => false
  end.

Definition plain (a : string) : Prop := is_argument a = true.


Definition positional (act : action) : Prop :=
  act = StoreInputMesh \/ act = StoreOutputMesh.


(** Further worlds to run the program in. *)
Module Cases.

(** The measured sample mesh, with an orientation array that is one entry
    short. *)
Definition short (g : Geometry) : World :=
  with_attributes
    (<["orientations" := FloatArray [one; neg_one]]>
       (attributes (mesh (Runs.measured g))))
    (Runs.measured g).

(** A world in which a path cannot be opened for writing. *)
Definition read_only (path : string) (w : World) : World :=
  {| mesh := mesh w; root_level := root_level w; log := log w;
     files := files w; unwritable := {[path]} |}.

Definition args (level : string) (csv : option string) : Namespace :=
  {| arg_log := level; arg_csv := Str <$> csv;
     arg_input_mesh := "in.msh"; arg_output_mesh := "out.msh" |}.

(** A back-end whose circumradius array has two entries too many. *)
Definition skewed : Backend :=
  {| gradient := gradient Sample.backend;
     linalg_det := linalg_det Sample.backend;
     linalg_inv := linalg_inv Sample.backend;
     cbrt := cbrt Sample.backend;
     tet_orientations := tet_orientations Sample.backend;
     voxel_inradius := voxel_inradius Sample.backend;
     voxel_circumradius := fun g =>
       Sample.circumradius :: Sample.circumradius ::
       voxel_circumradius Sample.backend g;
     voxel_dihedral_angle := voxel_dihedral_angle Sample.backend;
     voxel_radius_edge_ratio := voxel_radius_edge_ratio Sample.backend;
     voxel_edge_ratio := voxel_edge_ratio Sample.backend |}.

(** A mesh whose one voxel names a vertex that does not exist. *)
Definition dangling : Geometry :=
  {| vertices := vertices Sample.corner;
     voxels := [[0; 1; 2; 7]]%nat;
     vertex_per_voxel := 4 |}.

End Cases.

(** ** Facts about the monads and the array operations *)

Lemma mapM_Ok_Forall2 {A C} (f : A -> result C) (l : list A) (k : list C) :
  mapM f l = Ok k <-> Forall2 (fun x y => f x = Ok y) l k.
Proof.
  revert k. induction l as [|x l IH]; intros k; simpl.
  - split.
    + intros [= <-]. constructor.
    + intros H. inversion H. reflexivity.
  - split.
    + destruct (f x) as [y|] eqn:Hx; [|discriminate].
      destruct (mapM f l) as [k'|] eqn:Hl; [|discriminate].
      intros [= <-]. constructor; [assumption|]. apply IH. reflexivity.
    + intros H. inversion H as [|x' y l' k' Hxy Hlk]; subst.
      apply IH in Hlk. rewrite Hxy, Hlk. reflexivity.
Qed.

Lemma mapM_Ok_length {A C} (f : A -> result C) (l : list A) (k : list C) :
  mapM f l = Ok k -> length k = length l.
Proof.
  intros H. apply mapM_Ok_Forall2 in H.
  symmetry. eapply Forall2_length, H.
Qed.

Lemma mapM_Ok_lookup {A C} (f : A -> result C) (l : list A) (k : list C) i x :
  mapM f l = Ok k -> l !! i = Some x -> exists y, k !! i = Some y /\ f x = Ok y.
Proof.
  intros H Hx. apply mapM_Ok_Forall2 in H.
  destruct (Forall2_lookup_l _ _ _ _ _ H Hx) as (y & Hy & Hf). eauto.
Qed.

Lemma mapM_total {A C} (f : A -> result C) (l : list A) :
  Forall (fun x => exists y, f x = Ok y) l -> exists k, mapM f l = Ok k.
Proof.
  induction 1 as [|x l [y Hy] _ [k Hk]].
  - exists []. reflexivity.
  - exists (y :: k). simpl. rewrite Hy, Hk. reflexivity.
Qed.

Lemma broadcast_same_length op (a b : list float) :
  length a = length b -> Np.broadcast op a b = Ok (zip_with op a b).
Proof.
  intros H. unfold Np.broadcast.
  rewrite (proj2 (Nat.eqb_eq _ _) H). reflexivity.
Qed.

(** ** The distortion energy evaluator, step by step *)

Section Distortion.

Variable B : Backend.

Lemma zip_with_two_maps {A} (op : float -> float -> float) (f h : A -> float)
  (l : list A) :
  zip_with op (map f l) (map h l) = map (fun x => op (f x) (h x)) l.
Proof. induction l as [|x l IH]; simpl; [reflexivity | now rewrite IH]. Qed.

Lemma zip_with_maps {A C} (op : float -> float -> float) (f : A -> float)
  (h : C -> float) (l : list A) (k : list C) :
  zip_with op (map f l) (map h k) = zip_with (fun x y => op (f x) (h y)) l k.
Proof.
  revert k. induction l as [|x l IH]; intros [|y k]; simpl;
    [reflexivity .. | now rewrite IH].
Qed.

(** What a successful run of lines 28 to 48 has computed. *)
Lemma distortion_energies_Ok g e :
  distortion_energies B g = Ok e ->
  exists Js J_inv,
    mapM (deformation_gradient B g) (voxels g) = Ok Js /\
    mapM (invert_J B) (zip Js (map (linalg_det B) Js)) = Ok J_inv /\
    length J_inv = length Js /\
    conformal_amips e = map (amips_of B) Js /\
    finite_conformal_amips e = map isfinite (conformal_amips e) /\
    symmetric_dirichlet e = zip_with dirichlet_of Js J_inv /\
    finite_symmetric_dirichlet e = map isfinite (symmetric_dirichlet e) /\
    orientations e = quantize (tet_orientations B g).
Proof.
  unfold distortion_energies.
  destruct (mapM (deformation_gradient B g) (voxels g)) as [Js|] eqn:HJs;
    [|discriminate].
  simpl.
  destruct (mapM (invert_J B) (zip Js (map (linalg_det B) Js)))
    as [J_inv|] eqn:Hinv; [|discriminate].
  simpl.
  assert (Hlen : length J_inv = length Js).
  { apply mapM_Ok_length in Hinv. rewrite Hinv.
    rewrite length_zip, length_map. lia. }
  unfold Np.divide, Np.add, Np.square.
  rewrite broadcast_same_length by (rewrite !length_map; lia).
  simpl.
  rewrite broadcast_same_length by (rewrite !length_map; lia).
  simpl. intros [= <-]. simpl.
  exists Js, J_inv. repeat split; try reflexivity; try assumption.
  - rewrite !map_map. apply zip_with_two_maps.
  - apply zip_with_maps.
Qed.

(** Lines 28 to 48 go through as soon as every gradient can be formed and
    every inverse that is asked for is delivered. *)
Lemma distortion_energies_total g Js J_inv :
  mapM (deformation_gradient B g) (voxels g) = Ok Js ->
  mapM (invert_J B) (zip Js (map (linalg_det B) Js)) = Ok J_inv ->
  exists e, distortion_energies B g = Ok e.
Proof.
  intros HJs Hinv. unfold distortion_energies.
  rewrite HJs. simpl. rewrite Hinv. simpl.
  assert (Hlen : length J_inv = length Js).
  { apply mapM_Ok_length in Hinv. rewrite Hinv.
    rewrite length_zip, length_map. lia. }
  unfold Np.divide, Np.add, Np.square.
  rewrite broadcast_same_length by (rewrite !length_map; lia).
  simpl.
  rewrite broadcast_same_length by (rewrite !length_map; lia).
  simpl. eexists. reflexivity.
Qed.

Lemma take_rows_total (V : Np.matrix) (tet : list nat) :
  forallb (fun i => (i <? length V)%nat) tet = true ->
  exists R, take_rows V tet = Ok R /\ length R = length tet.
Proof.
  intros H. unfold take_rows.
  destruct (mapM_total
    (fun i => match V !! i with Some r => Ok r | None => Raise IndexError end)
    tet) as [R HR].
  - apply Forall_forall. intros i Hi.
    rewrite forallb_forall in H. apply list_elem_of_In in Hi.
    specialize (H i Hi). apply Nat.ltb_lt in H.
    destruct (lookup_lt_is_Some_2 V i H) as [r Hr].
    exists r. simpl. rewrite Hr. reflexivity.
  - exists R. split; [assumption|]. eapply mapM_Ok_length, HR.
Qed.

(** On a well-formed tetrahedral mesh, with an operator of four columns,
    every deformation gradient is formed. *)
Lemma gradients_total g :
  well_formed g = true ->
  not_tet_mesh g = false ->
  Sparse.ncols (gradient B) = 4%nat ->
  exists Js, mapM (deformation_gradient B g) (voxels g) = Ok Js.
Proof.
  intros Hwf Htet HG. apply mapM_total.
  apply Forall_forall. intros tet Hin.
  unfold well_formed in Hwf. rewrite forallb_forall in Hwf.
  apply list_elem_of_In in Hin.
  specialize (Hwf tet Hin). apply andb_true_iff in Hwf as [Hlen Hidx].
  apply Nat.eqb_eq in Hlen.
  assert (Hv : vertex_per_voxel g = 4%nat).
  { unfold not_tet_mesh, num_voxels in Htet.
    apply andb_false_iff in Htet as [Htet|Htet].
    - apply Nat.ltb_ge in Htet. destruct (voxels g); [inversion Hin | simpl in Htet; lia].
    - apply negb_false_iff, Nat.eqb_eq in Htet. assumption. }
  destruct (take_rows_total (vertices g) tet Hidx) as (R & HR & HRlen).
  unfold deformation_gradient. rewrite HR. simpl.
  unfold sparse_mul, Np.nrows.
  rewrite HG, HRlen, Hlen, Hv. simpl. eauto.
Qed.

(** The inverses are delivered when [linalg_inv] answers on every
    gradient whose determinant is not zero. *)
Lemma inverses_total (Js : list Np.matrix) :
  Forall (fun J => eqb (linalg_det B J) zero = false ->
                   is_Some (linalg_inv B J)) Js ->
  exists J_inv, mapM (invert_J B) (zip Js (map (linalg_det B) Js)) = Ok J_inv.
Proof.
  intros H. apply mapM_total.
  apply Forall_forall. intros [J d] Hin.
  apply list_elem_of_lookup in Hin as [i Hi].
  apply lookup_zip_with_Some in Hi as (J' & d' & [= <- <-] & HJ & Hd).
  rewrite list_lookup_fmap, HJ in Hd. injection Hd as <-.
  unfold invert_J. simpl.
  destruct (eqb (linalg_det B J) zero) eqn:Hz; [eauto|].
  rewrite Forall_forall in H.
  destruct (H J) as [M HM]; [|assumption|].
  - eapply list_elem_of_lookup_2, HJ.
  - rewrite HM. eauto.
Qed.

End Distortion.

Section DistortionRun.

Variable B : Backend.

Lemma add_then_set name v (k : M unit) w :
  (add_attribute B name ≫= fun _ => set_attribute name v ≫= fun _ => k) w =
  k (with_attributes (<[name := v]> (attributes (mesh w))) w).
Proof.
  unfold add_attribute, set_attribute, modify, get_world, mbind, M_bind.
  simpl. rewrite lookup_insert_eq. simpl.
  unfold with_attributes at 1. simpl.
  rewrite insert_insert_eq. reflexivity.
Qed.

Lemma add_then_set_last name v w :
  (add_attribute B name ≫= fun _ => set_attribute name v) w =
  (Ok tt, with_attributes (<[name := v]> (attributes (mesh w))) w).
Proof.
  unfold add_attribute, set_attribute, modify, get_world, mbind, M_bind.
  simpl. rewrite lookup_insert_eq. simpl.
  unfold with_attributes at 1. simpl.
  rewrite insert_insert_eq. reflexivity.
Qed.

Lemma store_energies_run e w :
  store_energies B e w =
  (Ok tt, with_attributes (stored e (attributes (mesh w))) w).
Proof.
  unfold store_energies.
  rewrite !add_then_set, add_then_set_last. reflexivity.
Qed.

Lemma report_anomalies_run e w :
  report_anomalies e w = (Ok tt, with_log (log w ++ warnings e) w).
Proof.
  destruct w as [m lvl l fs ro].
  unfold report_anomalies, warnings, when, logger_warn, modify, mbind, M_bind,
    mret, M_ret, with_log.
  destruct (0 <? num_degenerate_tets e)%nat, (0 <? num_inverted_tets e)%nat,
    (0 <? num_nonfinite_amips e)%nat, (0 <? num_nonfinite_dirichlet e)%nat;
    simpl; rewrite <- ?app_assoc, ?app_nil_r; reflexivity.
Qed.

(** A run of the evaluator on a mesh that passes the guard, once the
    arrays are computed: the warnings are handed over, the five
    attributes are written, and nothing else changes. *)
Lemma compute_distortion_energies_run w e :
  not_tet_mesh (geometry (mesh w)) = false ->
  distortion_energies B (geometry (mesh w)) = Ok e ->
  compute_distortion_energies B w = (Ok tt, after_distortion e w).
Proof.
  intros Htet He.
  unfold compute_distortion_energies, get_world, mbind, M_bind at 1.
  rewrite Htet. unfold lift, M_bind at 1. rewrite He.
  unfold M_bind. rewrite report_anomalies_run, store_energies_run.
  reflexivity.
Qed.

(** Every way the evaluator can end. *)
Lemma compute_distortion_energies_cases w :
  (not_tet_mesh (geometry (mesh w)) = true /\
   compute_distortion_energies B w = (Raise unsupported_element_kind, w)) \/
  (not_tet_mesh (geometry (mesh w)) = false /\
   exists x, distortion_energies B (geometry (mesh w)) = Raise x /\
             compute_distortion_energies B w = (Raise x, w)) \/
  (not_tet_mesh (geometry (mesh w)) = false /\
   exists e, distortion_energies B (geometry (mesh w)) = Ok e /\
             compute_distortion_energies B w = (Ok tt, after_distortion e w)).
Proof.
  destruct (not_tet_mesh (geometry (mesh w))) eqn:Htet.
  - left. split; [reflexivity|].
    unfold compute_distortion_energies, get_world, mbind, M_bind.
    rewrite Htet. reflexivity.
  - right.
    destruct (distortion_energies B (geometry (mesh w))) as [e|x] eqn:He.
    + right. split; [reflexivity|]. exists e. split; [reflexivity|].
      now apply compute_distortion_energies_run.
    + left. split; [reflexivity|]. exists x. split; [reflexivity|].
      unfold compute_distortion_energies, get_world, mbind, M_bind at 1.
      rewrite Htet. unfold lift, M_bind. rewrite He. reflexivity.
Qed.

Lemma compute_distortion_energies_Ok w w' :
  compute_distortion_energies B w = (Ok tt, w') ->
  not_tet_mesh (geometry (mesh w)) = false /\
  exists e, distortion_energies B (geometry (mesh w)) = Ok e /\
            w' = after_distortion e w.
Proof.
  intros Hrun.
  destruct (compute_distortion_energies_cases w)
    as [[_ H] | [[_ (x & _ & H)] | [Htet (e & He & H)]]];
    rewrite H in Hrun; try discriminate.
  injection Hrun as <-. eauto.
Qed.

End DistortionRun.

(** ** The claims about the distortion energy evaluator *)

Section DistortionClaims.

Variable B : Backend.

Lemma after_distortion_attributes e w :
  attributes (mesh (after_distortion e w)) = stored e (attributes (mesh w)).
Proof. reflexivity. Qed.

Lemma after_distortion_log e w :
  log (after_distortion e w) = (log w ++ warnings e)%list.
Proof. reflexivity. Qed.

Lemma stored_lookups e a :
  stored e a !! "conformal_AMIPS" = Some (FloatArray (conformal_amips e)) /\
  stored e a !! "finite_conformal_AMIPS" =
    Some (BoolArray (finite_conformal_amips e)) /\
  stored e a !! "symmetric_Dirichlet" =
    Some (FloatArray (symmetric_dirichlet e)) /\
  stored e a !! "finite_symmetric_Dirichlet" =
    Some (BoolArray (finite_symmetric_dirichlet e)) /\
  stored e a !! "orientations" = Some (FloatArray (orientations e)).
Proof. unfold stored. repeat split; by simplify_map_eq. Qed.

Lemma energies_lengths g e :
  distortion_energies B g = Ok e ->
  length (conformal_amips e) = num_voxels g /\
  length (symmetric_dirichlet e) = num_voxels g /\
  length (orientations e) = length (tet_orientations B g).
Proof.
  intros He.
  destruct (distortion_energies_Ok B g e He)
    as (Js & J_inv & HJs & Hinv & Hlen & Ha & _ & Hd & _ & Ho).
  apply mapM_Ok_length in HJs.
  rewrite Ha, Hd, Ho. unfold quantize, Np.mask_assign, num_voxels.
  rewrite length_zip_with, !length_map. lia.
Qed.


Lemma eqb_zero_exact (d : float) :
  eqb d zero = true <-> exists s, d = S754_zero s.
Proof.
  split.
  - destruct d as [s|[]| |[] m e]; try discriminate. eauto.
  - intros [s ->]. reflexivity.
Qed.

(** The two masked assignments on one element: a positive value becomes
    1, a negative one -1, a zero and a NaN are left as they are. *)
Lemma quantize_lookup (raw : list float) i r :
  raw !! i = Some r ->
  quantize raw !! i =
    Some match r with
         | S754_nan | S754_zero _ => r
         | S754_infinity s | S754_finite s _ _ => if s then neg_one else one
         end.
Proof.
  intros H. unfold quantize, Np.mask_assign.
  rewrite !list_lookup_fmap, H. simpl.
  destruct r as [[]|[]| |[] m e]; reflexivity.
Qed.

(** C2, as amended: the stored [orientations[i]] is one of -1, 0, +1 for
    every raw value that is a number, it is zero exactly when the raw value
    is zero, and a raw NaN is stored as NaN. *)
Theorem orientations_quantized (w w' : World) :
  compute_distortion_energies B w = (Ok tt, w') ->
  exists os : list float,
    attributes (mesh w') !! "orientations" = Some (FloatArray os) /\
    length os = length (tet_orientations B (geometry (mesh w))) /\
    forall i r, tet_orientations B (geometry (mesh w)) !! i = Some r ->
      exists o, os !! i = Some o /\
        (is_nan r = false -> is_sign o) /\
        (is_nan r = true -> o = nan) /\
        (eqb o zero = true <-> eqb r zero = true).
Proof.
  intros Hrun.
  apply compute_distortion_energies_Ok in Hrun as (_ & e & He & ->).
  destruct (energies_lengths _ _ He) as (_ & _ & Hlo).
  destruct (distortion_energies_Ok B _ e He)
    as (Js & J_inv & _ & _ & _ & _ & _ & _ & _ & Ho).
  destruct (stored_lookups e (attributes (mesh w))) as (_ & _ & _ & _ & L5).
  exists (orientations e). rewrite after_distortion_attributes.
  split; [assumption|]. split; [assumption|].
  intros i r Hr. rewrite Ho, (quantize_lookup _ i r Hr).
  eexists. split; [reflexivity|].
  unfold is_sign.
  destruct r as [s|[]| |[] m e']; simpl;
    repeat split; intros; try discriminate; auto.
Qed.

(** C3: the inverse handed to the next step is the matrix of nine
    infinities exactly when the determinant is a zero, with no tolerance,
    and the answer of [numpy.linalg.inv] for every other determinant,
    however small or whether a number at all. *)
Theorem invert_J_exact_zero :
  (forall J d,
     invert_J B (J, d) =
       match d with
       | S754_zero _ => Ok all_inf
       | _ => match linalg_inv B J with
              | Some M => Ok M
              | None => Raise LinAlgError
              end
       end) /\
  (forall Js J_inv,
     mapM (invert_J B) (zip Js (map (linalg_det B) Js)) = Ok J_inv ->
     forall i J, Js !! i = Some J ->
       J_inv !! i =
         match linalg_det B J with
         | S754_zero _ => Some all_inf
         | _ => linalg_inv B J
         end).
Proof.
  assert (H1 : forall J d,
     invert_J B (J, d) =
       match d with
       | S754_zero _ => Ok all_inf
       | _ => match linalg_inv B J with
              | Some M => Ok M
              | None => Raise LinAlgError
              end
       end).
  { intros J d. unfold invert_J. simpl.
    destruct d as [s|[]| |[] m e]; reflexivity. }
  split; [exact H1|].
  intros Js J_inv Hinv i J HJ.
  assert (Hz : zip Js (map (linalg_det B) Js) !! i = Some (J, linalg_det B J)).
  { apply lookup_zip_with_Some. exists J, (linalg_det B J).
    rewrite list_lookup_fmap, HJ. auto. }
  destruct (mapM_Ok_lookup _ _ _ _ _ Hinv Hz) as (M & HM & Hf).
  rewrite HM. rewrite H1 in Hf.
  destruct (linalg_det B J); try (injection Hf as <-; reflexivity);
    destruct (linalg_inv B J); try discriminate; injection Hf as <-; reflexivity.
Qed.

Lemma deformation_gradient_Ok g tet J :
  deformation_gradient B g tet = Ok J ->
  exists V_t, take_rows (vertices g) tet = Ok V_t /\
              J = Sparse.dot (gradient B) V_t.
Proof.
  unfold deformation_gradient.
  destruct (take_rows (vertices g) tet) as [V|] eqn:HV; [|discriminate].
  simpl. unfold sparse_mul.
  destruct (Sparse.ncols (gradient B) =? Np.nrows V)%nat; [|discriminate].
  intros [= <-]. eauto.
Qed.

Lemma take_rows_Forall2 (V : Np.matrix) tet V_t :
  take_rows V tet = Ok V_t ->
  Forall2 (fun v r => V !! v = Some r) tet V_t.
Proof.
  intros H. apply mapM_Ok_Forall2 in H.
  eapply Forall2_impl; [exact H|].
  intros v r. simpl. destruct (V !! v); [intros [= ->]; reflexivity | discriminate].
Qed.

(** The product of the sparse operator, entry by entry. *)
Lemma sparse_dot_formula (G : Sparse.matrix) (V : Np.matrix) :
  Sparse.dot G V = Formula.product (Sparse.rows G) V.
Proof. reflexivity. Qed.

(** [trace(dot(A.T, A))] as NumPy evaluates it is the sum of the squares
    of the entries, column after column. *)
Lemma frobenius2_formula (A : Np.matrix) :
  frobenius2 A = Formula.trace_of_gram A.
Proof.
  unfold frobenius2, Np.trace, Np.dot, Np.T, Formula.trace_of_gram.
  rewrite map_map.
  set (n := Np.ncols A).
  assert (Hmin : Nat.min
            (Np.nrows (map (fun k => map (fun j => Np.inner (Np.column A k)
                                                     (Np.column A j)) (seq 0 n))
                           (seq 0 n)))
            (Np.ncols (map (fun k => map (fun j => Np.inner (Np.column A k)
                                                     (Np.column A j)) (seq 0 n))
                           (seq 0 n))) = n).
  { unfold Np.nrows, Np.ncols. rewrite length_map, length_seq.
    destruct n as [|n']; [reflexivity|].
    simpl. rewrite length_map, length_seq. lia. }
  rewrite Hmin.
  change (length (hd [] A)) with n.
  assert (Hd : map (fun i : nat =>
                 Np.entry (map (fun k => map (fun j => Np.inner (Np.column A k)
                                                        (Np.column A j)) (seq 0 n))
                               (seq 0 n)) i i) (seq 0 n) =
               map (fun k => Formula.total
                      (map (fun r => SFmul 53 1024 (nth k r (S754_zero false))
                                                   (nth k r (S754_zero false))) A))
                   (seq 0 n)).
  { apply map_ext_in. intros i Hi. apply in_seq in Hi as [_ Hi]. simpl in Hi.
    unfold Np.entry.
    rewrite (nth_lookup_Some _ i []
               (map (fun j => Np.inner (Np.column A i) (Np.column A j)) (seq 0 n)))
      by (rewrite list_lookup_fmap, lookup_seq_lt by assumption; reflexivity).
    rewrite (nth_lookup_Some _ i zero (Np.inner (Np.column A i) (Np.column A i)))
      by (rewrite list_lookup_fmap, lookup_seq_lt by assumption; reflexivity).
    unfold Np.inner, Np.column. rewrite zip_with_two_maps. reflexivity. }
  rewrite Hd. reflexivity.
Qed.

Lemma div_by_zero_non_finite (x : float) (s : bool) :
  Formula.non_finite (SFdiv 53 1024 x (S754_zero s)).
Proof. destruct x as [[]|[]| |[] m e], s; exact I. Qed.

Lemma add_inf_non_finite (x : float) :
  Formula.non_finite (SFadd 53 1024 x (S754_infinity false)).
Proof. destruct x as [[]|[]| |[] m e]; exact I. Qed.

Lemma trace_of_gram_infinities :
  Formula.trace_of_gram (repeat (repeat (S754_infinity false) 3) 3) =
  S754_infinity false.
Proof. reflexivity. Qed.

(** C4: for every tetrahedron the evaluator forms [J = G . V_t] from the
    rows [V_t] of the vertex array the tetrahedron names, takes
    [J_F = trace(J^T . J)], and stores the IEEE quotient
    [J_F / cbrt(det_J^2)] as its conformal AMIPS and the IEEE sum
    [J_F + J_inv_F] as its symmetric Dirichlet energy, with [J_inv] the
    matrix of infinities for a zero determinant and the inverse otherwise.
    Nothing is trapped: the run ends without an exception, a denominator
    that is zero gives an infinity or a NaN, and so does a determinant
    that is zero. *)
Theorem energies_by_formula (w : World) :
  well_formed (geometry (mesh w)) = true ->
  not_tet_mesh (geometry (mesh w)) = false ->
  Sparse.ncols (gradient B) = 4%nat ->
  Sparse.valid (gradient B) = true ->
  (forall J, eqb (linalg_det B J) zero = false -> is_Some (linalg_inv B J)) ->
  exists w' (amips dirichlet : list float),
    compute_distortion_energies B w = (Ok tt, w') /\
    attributes (mesh w') !! "conformal_AMIPS" = Some (FloatArray amips) /\
    attributes (mesh w') !! "symmetric_Dirichlet" = Some (FloatArray dirichlet) /\
    forall i tet, voxels (geometry (mesh w)) !! i = Some tet ->
      exists V_t J J_inv a d,
        Forall2 (fun v r => vertices (geometry (mesh w)) !! v = Some r) tet V_t /\
        J = Formula.product (Sparse.rows (gradient B)) V_t /\
        match linalg_det B J with
        | S754_zero _ => J_inv = repeat (repeat (S754_infinity false) 3) 3
        | _ => linalg_inv B J = Some J_inv
        end /\
        amips !! i = Some a /\
        a = SFdiv 53 1024 (Formula.trace_of_gram J)
              (cbrt B (SFmul 53 1024 (linalg_det B J) (linalg_det B J))) /\
        dirichlet !! i = Some d /\
        d = SFadd 53 1024 (Formula.trace_of_gram J) (Formula.trace_of_gram J_inv) /\
        (forall s,
           cbrt B (SFmul 53 1024 (linalg_det B J) (linalg_det B J)) = S754_zero s ->
           Formula.non_finite a) /\
        (forall s, linalg_det B J = S754_zero s -> Formula.non_finite d).
Proof.
  intros Hwf Htet HG _ Hinv.
  destruct (gradients_total B _ Hwf Htet HG) as [Js HJs].
  destruct (inverses_total B Js) as [J_inv HJi].
  { apply Forall_forall. intros J _. apply Hinv. }
  destruct (distortion_energies_total B _ Js J_inv HJs HJi) as [e He].
  destruct (distortion_energies_Ok B _ e He)
    as (Js' & J_inv' & HJs' & HJi' & Hlen & Ha & _ & Hd & _ & _).
  rewrite HJs in HJs'. injection HJs' as <-.
  rewrite HJi in HJi'. injection HJi' as <-.
  destruct (stored_lookups e (attributes (mesh w))) as (L1 & _ & L3 & _ & _).
  exists (after_distortion e w), (conformal_amips e), (symmetric_dirichlet e).
  rewrite after_distortion_attributes.
  split; [now apply compute_distortion_energies_run|].
  split; [assumption|]. split; [assumption|].
  intros i tet Htet_i.
  destruct (mapM_Ok_lookup _ _ _ _ _ HJs Htet_i) as (J & HJ & HdJ).
  destruct (deformation_gradient_Ok _ _ _ HdJ) as (V_t & HV & HJeq).
  assert (Hz : zip Js (map (linalg_det B) Js) !! i = Some (J, linalg_det B J)).
  { apply lookup_zip_with_Some. exists J, (linalg_det B J).
    rewrite list_lookup_fmap, HJ. auto. }
  destruct (mapM_Ok_lookup _ _ _ _ _ HJi Hz) as (Ji & HJi_i & HfJi).
  assert (Hai : conformal_amips e !! i = Some (amips_of B J)).
  { rewrite Ha, list_lookup_fmap, HJ. reflexivity. }
  assert (Hdi : symmetric_dirichlet e !! i = Some (dirichlet_of J Ji)).
  { rewrite Hd. apply lookup_zip_with_Some. exists J, Ji. auto. }
  assert (HJi_cases :
            match linalg_det B J with
            | S754_zero _ => Ji = repeat (repeat (S754_infinity false) 3) 3
            | _ => linalg_inv B J = Some Ji
            end).
  { unfold invert_J in HfJi. simpl in HfJi.
    destruct (linalg_det B J) as [s|[]| |[] m e']; simpl in HfJi;
      try (injection HfJi as <-; reflexivity);
      destruct (linalg_inv B J); try discriminate;
      injection HfJi as <-; reflexivity. }
  exists V_t, J, Ji,
    (SFdiv 53 1024 (Formula.trace_of_gram J)
       (cbrt B (SFmul 53 1024 (linalg_det B J) (linalg_det B J)))),
    (SFadd 53 1024 (Formula.trace_of_gram J) (Formula.trace_of_gram Ji)).
  split_and!.
  - now apply take_rows_Forall2.
  - now rewrite <- sparse_dot_formula.
  - exact HJi_cases.
  - rewrite Hai. unfold amips_of. now rewrite frobenius2_formula.
  - reflexivity.
  - rewrite Hdi. unfold dirichlet_of. now rewrite !frobenius2_formula.
  - reflexivity.
  - intros s ->. apply div_by_zero_non_finite.
  - intros s Hs. rewrite Hs in HJi_cases. rewrite HJi_cases.
    rewrite trace_of_gram_infinities. apply add_inf_non_finite.
Qed.

Lemma mapM_Raise {A C} (f : A -> result C) (l : list A) x :
  mapM f l = Raise x -> exists a, a ∈ l /\ f a = Raise x.
Proof.
  induction l as [|a l IH]; simpl; [discriminate|].
  destruct (f a) as [y|x'] eqn:Ha.
  - destruct (mapM f l) as [k|x''] eqn:Hl; [discriminate|].
    intros [= <-]. destruct (IH eq_refl) as (a' & Hin & Hf).
    exists a'. split; [now right | assumption].
  - intros [= <-]. exists a. split; [now left | assumption].
Qed.

(** What lines 28 to 48 can raise: a vertex index out of range, operands
    that do not fit, or an inverse that is refused. *)
Lemma distortion_energies_Raise g x :
  distortion_energies B g = Raise x ->
  x = IndexError \/ (exists msg, x = ValueError msg) \/ x = LinAlgError.
Proof.
  unfold distortion_energies.
  destruct (mapM (deformation_gradient B g) (voxels g)) as [Js|x'] eqn:HJs.
  - simpl.
    destruct (mapM (invert_J B) (zip Js (map (linalg_det B) Js)))
      as [J_inv|x''] eqn:Hinv.
    + simpl.
      assert (Hlen : length J_inv = length Js).
      { apply mapM_Ok_length in Hinv. rewrite Hinv.
        rewrite length_zip, length_map. lia. }
      unfold Np.divide, Np.add, Np.square.
      rewrite broadcast_same_length by (rewrite !length_map; lia).
      simpl.
      rewrite broadcast_same_length by (rewrite !length_map; lia).
      discriminate.
    + simpl. intros [= <-].
      apply mapM_Raise in Hinv as ([J d] & _ & Hf).
      unfold invert_J in Hf. simpl in Hf.
      destruct (eqb d zero); [discriminate|].
      destruct (linalg_inv B J); [discriminate|].
      injection Hf as <-. auto.
  - simpl. intros [= <-].
    apply mapM_Raise in HJs as (tet & _ & Hf).
    unfold deformation_gradient in Hf.
    destruct (take_rows (vertices g) tet) as [V|y] eqn:HV.
    + simpl in Hf. unfold sparse_mul in Hf.
      destruct (Sparse.ncols (gradient B) =? Np.nrows V)%nat; [discriminate|].
      injection Hf as <-. eauto.
    + simpl in Hf. injection Hf as <-.
      apply mapM_Raise in HV as (i & _ & Hi).
      destruct (vertices g !! i); [discriminate|].
      injection Hi as <-. auto.
Qed.

Lemma not_tet_mesh_spec g :
  not_tet_mesh g = true <->
  (0 < num_voxels g)%nat /\ vertex_per_voxel g <> 4%nat.
Proof.
  unfold not_tet_mesh.
  rewrite andb_true_iff, negb_true_iff, Nat.ltb_lt, Nat.eqb_neq.
  reflexivity.
Qed.

Lemma distortion_energies_no_voxels g :
  num_voxels g = 0%nat ->
  length (tet_orientations B g) = num_voxels g ->
  distortion_energies B g =
    Ok {| conformal_amips := []; finite_conformal_amips := [];
          symmetric_dirichlet := []; finite_symmetric_dirichlet := [];
          orientations := [] |}.
Proof.
  unfold num_voxels. intros Hn Ho. rewrite Hn in Ho.
  apply nil_length_inv in Hn. apply nil_length_inv in Ho.
  unfold distortion_energies. rewrite Hn, Ho. reflexivity.
Qed.

(** C5: the evaluator fails with the unsupported element kind error
    exactly when the mesh has a voxel and its voxels do not have four
    vertices; a mesh without voxels passes and gets five empty arrays. *)
Theorem unsupported_element_kind_iff (w : World) :
  (fst (compute_distortion_energies B w) = Raise unsupported_element_kind <->
   (0 < num_voxels (geometry (mesh w)))%nat /\
   vertex_per_voxel (geometry (mesh w)) <> 4%nat) /\
  (num_voxels (geometry (mesh w)) = 0%nat ->
   length (tet_orientations B (geometry (mesh w))) =
     num_voxels (geometry (mesh w)) ->
   exists w',
     compute_distortion_energies B w = (Ok tt, w') /\
     attributes (mesh w') !! "conformal_AMIPS" = Some (FloatArray []) /\
     attributes (mesh w') !! "finite_conformal_AMIPS" = Some (BoolArray []) /\
     attributes (mesh w') !! "symmetric_Dirichlet" = Some (FloatArray []) /\
     attributes (mesh w') !! "finite_symmetric_Dirichlet" = Some (BoolArray []) /\
     attributes (mesh w') !! "orientations" = Some (FloatArray [])).
Proof.
  split.
  - rewrite <- not_tet_mesh_spec.
    destruct (compute_distortion_energies_cases B w)
      as [[Ht H] | [[Ht (x & Hx & H)] | [Ht (e & He & H)]]]; rewrite H; simpl.
    + split; auto.
    + rewrite Ht. split; [|discriminate].
      intros [= ->]. apply distortion_energies_Raise in Hx.
      destruct Hx as [Hx | [[msg Hx] | Hx]]; discriminate.
    + rewrite Ht. split; discriminate.
  - intros Hn Ho.
    pose proof (distortion_energies_no_voxels _ Hn Ho) as He.
    assert (Ht : not_tet_mesh (geometry (mesh w)) = false).
    { unfold not_tet_mesh. rewrite Hn. reflexivity. }
    eexists. split; [apply (compute_distortion_energies_run B w _ Ht He)|].
    rewrite after_distortion_attributes.
    match goal with |- context [stored ?e ?a] =>
      destruct (stored_lookups e a) as (L1 & L2 & L3 & L4 & L5) end.
    auto.
Qed.

Lemma warnings_spec e r :
  r ∈ warnings e <->
  ((0 < num_degenerate_tets e)%nat /\
     r = warning (degenerate_msg (num_degenerate_tets e))) \/
  ((0 < num_inverted_tets e)%nat /\
     r = warning (inverted_msg (num_inverted_tets e))) \/
  ((0 < num_nonfinite_amips e)%nat /\
     r = warning (amips_msg (num_nonfinite_amips e))) \/
  ((0 < num_nonfinite_dirichlet e)%nat /\
     r = warning (dirichlet_msg (num_nonfinite_dirichlet e))).
Proof.
  unfold warnings. rewrite !elem_of_app.
  destruct (0 <? num_degenerate_tets e)%nat eqn:H1;
    destruct (0 <? num_inverted_tets e)%nat eqn:H2;
    destruct (0 <? num_nonfinite_amips e)%nat eqn:H3;
    destruct (0 <? num_nonfinite_dirichlet e)%nat eqn:H4;
    rewrite ?Nat.ltb_lt in *; rewrite ?Nat.ltb_ge in *;
    rewrite ?list_elem_of_singleton, ?elem_of_nil;
    intuition lia.
Qed.

Lemma messages_distinct n m :
  degenerate_msg n <> inverted_msg m /\
  degenerate_msg n <> amips_msg m /\
  degenerate_msg n <> dirichlet_msg m /\
  inverted_msg n <> amips_msg m /\
  inverted_msg n <> dirichlet_msg m /\
  amips_msg n <> dirichlet_msg m.
Proof.
  unfold degenerate_msg, inverted_msg, amips_msg, dirichlet_msg.
  repeat split; intros H; cbn [String.append] in H; discriminate H.
Qed.

Ltac clash :=
  exfalso;
  match goal with
  | D : ?a <> ?b, H : ?a = ?b |- _ => exact (D H)
  | D : ?a <> ?b, H : ?b = ?a |- _ => exact (D (eq_sym H))
  end.

(** Each of the four messages is among the warnings exactly when its
    count is above zero. *)
Lemma warnings_iff e :
  ((exists r n, r ∈ warnings e /\ message r = degenerate_msg n) <->
     (0 < num_degenerate_tets e)%nat) /\
  ((exists r n, r ∈ warnings e /\ message r = inverted_msg n) <->
     (0 < num_inverted_tets e)%nat) /\
  ((exists r n, r ∈ warnings e /\ message r = amips_msg n) <->
     (0 < num_nonfinite_amips e)%nat) /\
  ((exists r n, r ∈ warnings e /\ message r = dirichlet_msg n) <->
     (0 < num_nonfinite_dirichlet e)%nat).
Proof.
  assert (Hk : forall (msg : nat -> string) (count : nat),
    (forall r, r ∈ warnings e ->
       (exists n, message r = msg n) ->
       (0 < count)%nat /\ r = warning (msg count)) ->
    ((0 < count)%nat -> warning (msg count) ∈ warnings e) ->
    ((exists r n, r ∈ warnings e /\ message r = msg n) <-> (0 < count)%nat)).
  { intros msg count Hfrom Hto. split.
    - intros (r & n & Hr & Hm). destruct (Hfrom r Hr) as [Hc _]; eauto.
    - intros Hc. exists (warning (msg count)), count. split; [auto | reflexivity]. }
  split_and!.
  - apply Hk.
    + intros r Hr [n Hm]. apply warnings_spec in Hr.
      destruct (messages_distinct n (num_inverted_tets e)) as (D1 & _).
      destruct (messages_distinct n (num_nonfinite_amips e)) as (_ & D2 & _).
      destruct (messages_distinct n (num_nonfinite_dirichlet e)) as (_ & _ & D3 & _).
      destruct Hr as [[Hc ->] | [[_ ->] | [[_ ->] | [_ ->]]]];
        simpl in Hm; try (split; [assumption | reflexivity]); clash.
    + intros Hc. apply warnings_spec. auto.
  - apply Hk.
    + intros r Hr [n Hm]. apply warnings_spec in Hr.
      destruct (messages_distinct (num_degenerate_tets e) n) as (D1 & _).
      destruct (messages_distinct n (num_nonfinite_amips e)) as (_ & _ & _ & D2 & _).
      destruct (messages_distinct n (num_nonfinite_dirichlet e))
        as (_ & _ & _ & _ & D3 & _).
      destruct Hr as [[_ ->] | [[Hc ->] | [[_ ->] | [_ ->]]]];
        simpl in Hm; try (split; [assumption | reflexivity]); clash.
    + intros Hc. apply warnings_spec. auto.
  - apply Hk.
    + intros r Hr [n Hm]. apply warnings_spec in Hr.
      destruct (messages_distinct (num_degenerate_tets e) n) as (_ & D1 & _).
      destruct (messages_distinct (num_inverted_tets e) n) as (_ & _ & _ & D2 & _).
      destruct (messages_distinct n (num_nonfinite_dirichlet e))
        as (_ & _ & _ & _ & _ & D3).
      destruct Hr as [[_ ->] | [[_ ->] | [[Hc ->] | [_ ->]]]];
        simpl in Hm; try (split; [assumption | reflexivity]); clash.
    + intros Hc. apply warnings_spec. auto 6.
  - apply Hk.
    + intros r Hr [n Hm]. apply warnings_spec in Hr.
      destruct (messages_distinct (num_degenerate_tets e) n) as (_ & _ & D1 & _).
      destruct (messages_distinct (num_inverted_tets e) n)
        as (_ & _ & _ & _ & D2 & _).
      destruct (messages_distinct (num_nonfinite_amips e) n)
        as (_ & _ & _ & _ & _ & D3).
      destruct Hr as [[_ ->] | [[_ ->] | [[_ ->] | [Hc ->]]]];
        simpl in Hm; try (split; [assumption | reflexivity]); clash.
    + intros Hc. apply warnings_spec. auto 6.
Qed.

(** [np.count_nonzero] of a mask is the number of entries that pass the
    test of the mask. *)
Lemma count_nonzero_map (p : float -> bool) (a : list float) :
  Np.count_nonzero (map p a) = Formula.count p a.
Proof.
  unfold Np.count_nonzero, Formula.count.
  induction a as [|x a IH]; [reflexivity|].
  simpl. destruct (p x) eqn:Hp.
  - rewrite filter_cons_True by reflexivity. simpl. now rewrite IH.
  - rewrite filter_cons_False by discriminate. exact IH.
Qed.

Lemma count_ext (p q : float -> bool) (a : list float) :
  (forall x, p x = q x) -> Formula.count p a = Formula.count q a.
Proof.
  intros H. unfold Formula.count. f_equal. now apply List.filter_ext.
Qed.

(** The four counts of the evaluator, as counts over its arrays. *)
Lemma counts_by_formula g e :
  distortion_energies B g = Ok e ->
  num_degenerate_tets e =
    Formula.count (fun o => SFeqb o (S754_zero false)) (orientations e) /\
  num_inverted_tets e =
    Formula.count (fun o => SFltb o (S754_zero false)) (orientations e) /\
  num_nonfinite_amips e =
    Formula.count Formula.is_non_finite (conformal_amips e) /\
  num_nonfinite_dirichlet e =
    Formula.count Formula.is_non_finite (symmetric_dirichlet e).
Proof.
  intros He.
  destruct (distortion_energies_Ok B g e He)
    as (Js & J_inv & _ & _ & _ & _ & Hfa & _ & Hfd & _).
  unfold num_degenerate_tets, num_inverted_tets, num_nonfinite_amips,
    num_nonfinite_dirichlet, Np.logical_not.
  rewrite Hfa, Hfd, !map_map, !count_nonzero_map.
  split_and!; try reflexivity;
    apply count_ext; intros [[]|[]| |[] m e']; reflexivity.
Qed.

(** C9: each of the four counts, taken over the stored arrays (orientation
    zero, orientation negative, conformal AMIPS not finite, symmetric
    Dirichlet not finite), gets a warning, which carries the count,
    exactly when it is above zero, and the warnings come in this order;
    whatever the counts, the run goes on and writes the five attributes; a
    mesh without tetrahedra gets no warning. *)
Theorem warnings_iff_counts (w : World) (e : Energies) :
  not_tet_mesh (geometry (mesh w)) = false ->
  distortion_energies B (geometry (mesh w)) = Ok e ->
  exists w' new (n_degenerate n_inverted n_amips n_dirichlet : nat),
    compute_distortion_energies B w = (Ok tt, w') /\
    log w' = (log w ++ new)%list /\
    attributes (mesh w') !! "conformal_AMIPS" =
      Some (FloatArray (conformal_amips e)) /\
    attributes (mesh w') !! "finite_conformal_AMIPS" =
      Some (BoolArray (finite_conformal_amips e)) /\
    attributes (mesh w') !! "symmetric_Dirichlet" =
      Some (FloatArray (symmetric_dirichlet e)) /\
    attributes (mesh w') !! "finite_symmetric_Dirichlet" =
      Some (BoolArray (finite_symmetric_dirichlet e)) /\
    attributes (mesh w') !! "orientations" =
      Some (FloatArray (orientations e)) /\
    n_degenerate =
      Formula.count (fun o => SFeqb o (S754_zero false)) (orientations e) /\
    n_inverted =
      Formula.count (fun o => SFltb o (S754_zero false)) (orientations e) /\
    n_amips = Formula.count Formula.is_non_finite (conformal_amips e) /\
    n_dirichlet = Formula.count Formula.is_non_finite (symmetric_dirichlet e) /\
    new =
      ((if (0 <? n_degenerate)%nat
        then [ {| logger_name := "Distorsion"; levelno := 30;
                  message := "degenerate tets: " +:+ pretty n_degenerate |} ]
        else []) ++
       (if (0 <? n_inverted)%nat
        then [ {| logger_name := "Distorsion"; levelno := 30;
                  message := "inverted tets: " +:+ pretty n_inverted |} ]
        else []) ++
       (if (0 <? n_amips)%nat
        then [ {| logger_name := "Distorsion"; levelno := 30;
                  message := "Non-finite conformal AMIPS: " +:+ pretty n_amips |} ]
        else []) ++
       (if (0 <? n_dirichlet)%nat
        then [ {| logger_name := "Distorsion"; levelno := 30;
                  message :=
                    "Non-finite symmetric Dirichlet: " +:+ pretty n_dirichlet |} ]
        else []))%list /\
    ((exists r (n : nat), r ∈ new /\ message r = "degenerate tets: " +:+ pretty n) <->
       (0 < n_degenerate)%nat) /\
    ((exists r (n : nat), r ∈ new /\ message r = "inverted tets: " +:+ pretty n) <->
       (0 < n_inverted)%nat) /\
    ((exists r (n : nat), r ∈ new /\
                  message r = "Non-finite conformal AMIPS: " +:+ pretty n) <->
       (0 < n_amips)%nat) /\
    ((exists r (n : nat), r ∈ new /\
                  message r = "Non-finite symmetric Dirichlet: " +:+ pretty n) <->
       (0 < n_dirichlet)%nat) /\
    (num_voxels (geometry (mesh w)) = 0%nat ->
     length (tet_orientations B (geometry (mesh w))) = 0%nat ->
     new = []).
Proof.
  intros Ht He.
  destruct (counts_by_formula _ _ He) as (C1 & C2 & C3 & C4).
  exists (after_distortion e w), (warnings e),
    (num_degenerate_tets e), (num_inverted_tets e),
    (num_nonfinite_amips e), (num_nonfinite_dirichlet e).
  rewrite after_distortion_attributes.
  destruct (stored_lookups e (attributes (mesh w))) as (L1 & L2 & L3 & L4 & L5).
  destruct (warnings_iff e) as (W1 & W2 & W3 & W4).
  split_and!; try assumption; try reflexivity.
  - now apply compute_distortion_energies_run.
  - intros Hn Ho. rewrite <- Hn in Ho.
    rewrite (distortion_energies_no_voxels _ Hn Ho) in He.
    injection He as <-. reflexivity.
Qed.

End DistortionClaims.

(** ** The evaluator on the sample meshes *)


(** The stored orientation of a tetrahedron with a vertex that is not a
    number is NaN, which is none of -1, 0 and +1. *)
Lemma orientation_nan_counterexample :
  exists w' o,
    tet_orientations Sample.backend Sample.broken = [nan] /\
    compute_distortion_energies Sample.backend (Sample.fresh Sample.broken) =
      (Ok tt, w') /\
    attributes (mesh w') !! "orientations" = Some (FloatArray [o]) /\
    ~ is_sign o.
Proof.
  exists (Sample.distorted Sample.broken), nan.
  split; [vm_compute; reflexivity|].
  split; [vm_compute; reflexivity|].
  split; [vm_compute; reflexivity|].
  unfold is_sign. intros [H | [H | H]]; discriminate H.
Qed.

Lemma orientations_quantized_witness :
  exists os : list float,
    attributes (mesh (Sample.distorted Sample.three)) !! "orientations" =
      Some (FloatArray os) /\
    length os = length (tet_orientations Sample.backend Sample.three) /\
    forall i r, tet_orientations Sample.backend Sample.three !! i = Some r ->
      exists o, os !! i = Some o /\
        (is_nan r = false -> is_sign o) /\
        (is_nan r = true -> o = nan) /\
        (eqb o zero = true <-> eqb r zero = true).
Proof.
  apply (orientations_quantized Sample.backend (Sample.fresh Sample.three)).
  vm_compute. reflexivity.
Defined.

(** ** Order of the doubles, minimum and maximum of a row *)

Lemma leb_rank (x y : float) :
  is_nan x = false -> is_nan y = false ->
  (leb x y = true <-> lex_le (rank x) (rank y)).
Proof.
  unfold leb, SFleb, lex_le.
  destruct x as [[]|[]| |[] m1 e1], y as [[]|[]| |[] m2 e2];
    try discriminate; intros _ _; simpl;
    try (split; [intros _; lia | reflexivity]);
    try (split; [discriminate | intros; lia]).
  - destruct (Z.compare_spec e1 e2); simpl.
    + change (Pos.compare_cont Eq m1 m2) with (Pos.compare m1 m2).
      destruct (Pos.compare_spec m1 m2); simpl;
        (split; [intros; try discriminate; lia | intros; try reflexivity; lia]).
    + split; [discriminate | intros; lia].
    + split; [intros; lia | reflexivity].
  - destruct (Z.compare_spec e1 e2); simpl.
    + change (Pos.compare_cont Eq m1 m2) with (Pos.compare m1 m2).
      destruct (Pos.compare_spec m1 m2); simpl;
        (split; [intros; try discriminate; lia | intros; try reflexivity; lia]).
    + split; [intros; lia | reflexivity].
    + split; [discriminate | intros; lia].
Qed.

Lemma leb_refl (x : float) : is_nan x = false -> leb x x = true.
Proof. intros H. apply leb_rank; auto. unfold lex_le. lia. Qed.

Lemma leb_total (x y : float) :
  is_nan x = false -> is_nan y = false -> leb x y = false -> leb y x = true.
Proof.
  intros Hx Hy H. apply leb_rank; auto.
  assert (Hn : ~ lex_le (rank x) (rank y)).
  { intros Hle. apply (leb_rank x y Hx Hy) in Hle. congruence. }
  unfold lex_le in *. lia.
Qed.

Lemma leb_trans (x y z : float) :
  is_nan x = false -> is_nan y = false -> is_nan z = false ->
  leb x y = true -> leb y z = true -> leb x z = true.
Proof.
  intros Hx Hy Hz H1 H2.
  apply leb_rank in H1; auto. apply leb_rank in H2; auto.
  apply leb_rank; auto. unfold lex_le in *. lia.
Qed.

Lemma existsb_is_nan_false (row : list float) x :
  existsb is_nan row = false -> x ∈ row -> is_nan x = false.
Proof.
  intros H Hx. destruct (is_nan x) eqn:E; [|reflexivity].
  rewrite <- H. symmetry. apply existsb_exists.
  exists x. split; [now apply list_elem_of_In | assumption].
Qed.

Lemma ltb_leb (x y : float) :
  is_nan x = false -> is_nan y = false -> ltb x y = negb (leb y x).
Proof.
  unfold ltb, leb, SFltb, SFleb.
  destruct x as [[]|[]| |[] m1 e1], y as [[]|[]| |[] m2 e2];
    try discriminate; intros _ _; simpl; try reflexivity.
  - rewrite (Z.compare_antisym e2 e1).
    destruct (e2 ?= e1)%Z eqn:E; simpl; try reflexivity.
    change (Pos.compare_cont Eq m1 m2) with (Pos.compare m1 m2).
    change (Pos.compare_cont Eq m2 m1) with (Pos.compare m2 m1).
    rewrite (Pos.compare_antisym m2 m1).
    destruct (m2 ?= m1)%positive; reflexivity.
  - rewrite (Z.compare_antisym e2 e1).
    destruct (e2 ?= e1)%Z eqn:E; simpl; try reflexivity.
    change (Pos.compare_cont Eq m1 m2) with (Pos.compare m1 m2).
    change (Pos.compare_cont Eq m2 m1) with (Pos.compare m2 m1).
    rewrite (Pos.compare_antisym m2 m1).
    destruct (m2 ?= m1)%positive; reflexivity.
Qed.

Lemma ltb_nan_r (x y : float) : is_nan y = true -> ltb x y = false.
Proof.
  destruct y; try discriminate. intros _.
  destruct x as [[]|[]| |[] m e]; reflexivity.
Qed.

Lemma minimum_step (acc y : float) (seen : list float) :
  is_minimum_of acc seen -> is_minimum_of (Np.minimum acc y) (seen ++ [y]).
Proof.
  unfold is_minimum_of, Np.minimum. rewrite existsb_app. simpl.
  destruct (existsb is_nan seen) eqn:Hs; simpl.
  - intros H. rewrite H, orb_true_r. assumption.
  - intros [Hin Hle]. rewrite !orb_false_r.
    pose proof (existsb_is_nan_false _ _ Hs Hin) as Hacc. rewrite Hacc.
    destruct (is_nan y) eqn:Hy.
    + rewrite (ltb_nan_r acc y Hy). assumption.
    + rewrite (ltb_leb acc y Hacc Hy).
      destruct (leb y acc) eqn:Hc; simpl.
      * split; [apply elem_of_app; right; now apply list_elem_of_singleton|].
        intros x [Hx | Hx%list_elem_of_singleton]%elem_of_app.
        -- apply (leb_trans y acc x); auto.
           eapply existsb_is_nan_false; eauto.
        -- subst. now apply leb_refl.
      * pose proof (leb_total _ _ Hy Hacc Hc) as Hyacc.
        split; [apply elem_of_app; auto|].
        intros x [Hx | Hx%list_elem_of_singleton]%elem_of_app; [auto | now subst].
Qed.

Lemma maximum_step (acc y : float) (seen : list float) :
  is_maximum_of acc seen -> is_maximum_of (Np.maximum acc y) (seen ++ [y]).
Proof.
  unfold is_maximum_of, Np.maximum, gtb. rewrite existsb_app. simpl.
  destruct (existsb is_nan seen) eqn:Hs; simpl.
  - intros H. rewrite H, orb_true_r. assumption.
  - intros [Hin Hle]. rewrite !orb_false_r.
    pose proof (existsb_is_nan_false _ _ Hs Hin) as Hacc. rewrite Hacc.
    destruct (is_nan y) eqn:Hy.
    + replace (SFltb y acc) with false; [assumption|].
      destruct y; try discriminate.
      destruct acc as [[]|[]| |[] m e]; reflexivity.
    + change (SFltb y acc) with (ltb y acc).
      rewrite (ltb_leb y acc Hy Hacc).
      destruct (leb acc y) eqn:Hc; simpl.
      * split; [apply elem_of_app; right; now apply list_elem_of_singleton|].
        intros x [Hx | Hx%list_elem_of_singleton]%elem_of_app.
        -- apply (leb_trans x acc y); auto.
           eapply existsb_is_nan_false; eauto.
        -- subst. now apply leb_refl.
      * pose proof (leb_total _ _ Hacc Hy Hc) as Hyacc.
        split; [apply elem_of_app; auto|].
        intros x [Hx | Hx%list_elem_of_singleton]%elem_of_app; [auto | now subst].
Qed.

Lemma fold_minimum_spec (xs seen : list float) (acc : float) :
  is_minimum_of acc seen ->
  is_minimum_of (fold_left Np.minimum xs acc) (seen ++ xs).
Proof.
  revert seen acc. induction xs as [|y xs IH]; intros seen acc H; simpl.
  - now rewrite app_nil_r.
  - replace (seen ++ y :: xs) with ((seen ++ [y]) ++ xs)
      by (now rewrite <- app_assoc).
    apply IH. now apply minimum_step.
Qed.

Lemma fold_maximum_spec (xs seen : list float) (acc : float) :
  is_maximum_of acc seen ->
  is_maximum_of (fold_left Np.maximum xs acc) (seen ++ xs).
Proof.
  revert seen acc. induction xs as [|y xs IH]; intros seen acc H; simpl.
  - now rewrite app_nil_r.
  - replace (seen ++ y :: xs) with ((seen ++ [y]) ++ xs)
      by (now rewrite <- app_assoc).
    apply IH. now apply maximum_step.
Qed.

Lemma singleton_extremum (x : float) :
  is_minimum_of x [x] /\ is_maximum_of x [x].
Proof.
  unfold is_minimum_of, is_maximum_of. simpl. rewrite orb_false_r.
  destruct (is_nan x) eqn:Hx; [auto|].
  split; (split; [now apply list_elem_of_singleton|]);
    intros y ->%list_elem_of_singleton; now apply leb_refl.
Qed.

(** [np.amin] and [np.amax] of a row that is not empty. *)
Lemma amin_spec (row : list float) :
  row <> [] -> exists m, Np.amin row = Ok m /\ is_minimum_of m row.
Proof.
  destruct row as [|x xs]; [congruence|]. intros _.
  eexists. split; [reflexivity|].
  apply (fold_minimum_spec xs [x] x), singleton_extremum.
Qed.

Lemma amax_spec (row : list float) :
  row <> [] -> exists m, Np.amax row = Ok m /\ is_maximum_of m row.
Proof.
  destruct row as [|x xs]; [congruence|]. intros _.
  eexists. split; [reflexivity|].
  apply (fold_maximum_spec xs [x] x), singleton_extremum.
Qed.

(** ** The shape quality evaluator, step by step *)

Lemma chunks_length n k (a : list float) : length (Np.chunks n k a) = n.
Proof. revert a. induction n as [|n IH]; intros a; simpl; [|rewrite IH]; reflexivity. Qed.

Lemma chunks_lookup n k (a : list float) i :
  (i < n)%nat -> Np.chunks n k a !! i = Some (take k (drop (i * k) a)).
Proof.
  revert a i. induction n as [|n IH]; intros a i Hi; [lia|].
  destruct i as [|i]; simpl.
  - reflexivity.
  - rewrite IH by lia. rewrite drop_drop. reflexivity.
Qed.

Lemma reshape_rows_six n (a : list float) :
  n <> 0%nat -> length a = (n * 6)%nat ->
  Np.reshape_rows n a = Ok (Np.chunks n 6 a).
Proof.
  intros Hn Hlen. unfold Np.reshape_rows.
  destruct n as [|n']; [congruence|].
  rewrite Hlen, (Nat.mul_comm (S n') 6), Nat.Div0.mod_mul, Nat.div_mul by lia.
  reflexivity.
Qed.

Lemma angles_of_length (flat : list float) n i :
  length flat = (n * 6)%nat -> (i < n)%nat -> length (angles_of flat i) = 6%nat.
Proof.
  intros Hlen Hi. unfold angles_of.
  rewrite length_take, length_drop. lia.
Qed.

Ltac lookup_now :=
  cbn [attributes mesh with_attributes with_mesh geometry with_table
       with_files];
  repeat (rewrite lookup_insert_ne by done);
  first [rewrite lookup_insert_eq; reflexivity | eassumption].

Section Quality.

Variable B : Backend.

Lemma add_step {A} name (k : M A) w :
  (add_attribute B name ≫= fun _ => k) w =
  k (with_attributes
       (<[name := FloatArray (default [] (predefined B name (geometry (mesh w))))]>
          (attributes (mesh w))) w).
Proof. reflexivity. Qed.

Lemma get_step {A} name v (k : ndarray -> M A) w :
  attributes (mesh w) !! name = Some v ->
  (get_attribute name ≫= k) w = k v w.
Proof.
  intros H. unfold get_attribute, get_world, mbind, M_bind. rewrite H.
  reflexivity.
Qed.

Lemma get_missing {A} name (k : ndarray -> M A) w :
  attributes (mesh w) !! name = None ->
  (get_attribute name ≫= k) w = (Raise (MissingAttribute name), w).
Proof.
  intros H. unfold get_attribute, get_world, mbind, M_bind. rewrite H.
  reflexivity.
Qed.

Lemma lift_step {A C} (r : result A) x (k : A -> M C) w :
  r = Ok x -> (lift r ≫= k) w = k x w.
Proof. intros ->. reflexivity. Qed.

Lemma get_voxel_step {A} name v rows (k : Np.matrix -> M A) w :
  attributes (mesh w) !! name = Some v ->
  (if (num_voxels (geometry (mesh w)) =? 0)%nat then Ok []
   else Np.reshape_rows (num_voxels (geometry (mesh w))) (as_floats v)) =
    Ok rows ->
  (get_voxel_attribute name ≫= k) w = k rows w.
Proof.
  intros Hv Hrows.
  unfold get_voxel_attribute, get_attribute, get_world, lift, mbind, M_bind.
  rewrite Hv. cbn [mret M_ret].
  destruct (num_voxels (geometry (mesh w)) =? 0)%nat.
  - injection Hrows as <-. reflexivity.
  - rewrite Hrows. reflexivity.
Qed.

Lemma get_world_step {A} (k : World -> M A) w : (get_world ≫= k) w = k w w.
Proof. reflexivity. Qed.

Lemma ret_step {A C} (x : A) (k : A -> M C) w : (mret x ≫= k) w = k x w.
Proof. reflexivity. Qed.

Lemma pair_step {A1 A2 C} (r1 : result A1) (r2 : result A2) x1 x2
  (k : A1 * A2 -> M C) w :
  r1 = Ok x1 -> r2 = Ok x2 ->
  ((lift r1 ≫= fun a => lift r2 ≫= fun b => mret (a, b)) ≫= k) w =
  k (x1, x2) w.
Proof. intros -> ->. reflexivity. Qed.

Lemma rows_extrema (rows : list (list float)) :
  Forall (fun row => row <> []) rows ->
  exists mins maxs,
    amin_rows rows = Ok mins /\ amax_rows rows = Ok maxs /\
    (forall i row, rows !! i = Some row ->
       exists mn mx, mins !! i = Some mn /\ maxs !! i = Some mx /\
                     is_minimum_of mn row /\ is_maximum_of mx row).
Proof.
  intros Hne.
  destruct (mapM_total Np.amin rows) as [mins Hmins].
  { eapply Forall_impl; [exact Hne|]. intros row Hrow.
    destruct (amin_spec row Hrow) as (m & Hm & _). eauto. }
  destruct (mapM_total Np.amax rows) as [maxs Hmaxs].
  { eapply Forall_impl; [exact Hne|]. intros row Hrow.
    destruct (amax_spec row Hrow) as (m & Hm & _). eauto. }
  exists mins, maxs. split; [exact Hmins|]. split; [exact Hmaxs|].
  intros i row Hrow.
  destruct (mapM_Ok_lookup _ _ _ _ _ Hmins Hrow) as (mn & Hmn & Hfmn).
  destruct (mapM_Ok_lookup _ _ _ _ _ Hmaxs Hrow) as (mx & Hmx & Hfmx).
  assert (Hr : row <> []).
  { rewrite Forall_forall in Hne. apply Hne.
    eapply list_elem_of_lookup_2, Hrow. }
  destruct (amin_spec row Hr) as (mn' & Hmn' & Hmin).
  destruct (amax_spec row Hr) as (mx' & Hmx' & Hmax).
  rewrite Hfmn in Hmn'. injection Hmn' as <-.
  rewrite Hfmx in Hmx'. injection Hmx' as <-.
  exists mn, mx. auto.
Qed.

(** A run of the shape quality evaluator, given the ratio array and the
    two arrays of extrema. *)
Lemma compute_tet_quality_measures_run w radius_ratio mins maxs :
  Np.divide (voxel_inradius B (geometry (mesh w)))
            (voxel_circumradius B (geometry (mesh w))) = Ok radius_ratio ->
  (if (num_voxels (geometry (mesh w)) =? 0)%nat
   then mins = [] /\ maxs = []
   else exists rows,
       Np.reshape_rows (num_voxels (geometry (mesh w)))
                       (voxel_dihedral_angle B (geometry (mesh w))) = Ok rows /\
       amin_rows rows = Ok mins /\ amax_rows rows = Ok maxs) ->
  compute_tet_quality_measures B w =
  (Ok tt,
   with_attributes
     (quality_stored B (geometry (mesh w)) radius_ratio mins maxs
        (attributes (mesh w))) w).
Proof.
  intros Hdiv Hrows. unfold compute_tet_quality_measures.
  rewrite !add_step.
  erewrite get_step by lookup_now. cbv beta.
  erewrite get_step by lookup_now. cbv beta.
  cbn [as_floats default predefined].
  erewrite lift_step by (cbn; exact Hdiv). cbv beta.
  rewrite add_then_set, add_step.
  destruct (num_voxels (geometry (mesh w)) =? 0)%nat eqn:Hn.
  - destruct Hrows as [-> ->].
    erewrite get_voxel_step;
      [| lookup_now
       | cbn [attributes mesh with_attributes with_mesh geometry];
         rewrite Hn; reflexivity].
    cbv beta. rewrite get_world_step.
    cbn [attributes mesh with_attributes with_mesh geometry].
    rewrite Hn, ret_step. cbn [fst snd].
    rewrite !add_then_set. rewrite !add_step.
    reflexivity.
  - destruct Hrows as (rows & Hresh & Hmin & Hmax).
    erewrite get_voxel_step;
      [| lookup_now
       | cbn [attributes mesh with_attributes with_mesh geometry as_floats];
         rewrite Hn; exact Hresh].
    cbv beta. rewrite get_world_step.
    cbn [attributes mesh with_attributes with_mesh geometry].
    rewrite Hn. erewrite pair_step by eassumption. cbn [fst snd].
    rewrite !add_then_set. rewrite !add_step.
    reflexivity.
Qed.

End Quality.

Section QualityClaims.

Variable B : Backend.

Lemma quality_stored_lookups g ratio mins maxs a :
  quality_stored B g ratio mins maxs a !! "radius_ratio" =
    Some (FloatArray ratio) /\
  quality_stored B g ratio mins maxs a !! "voxel_min_dihedral_angle" =
    Some (FloatArray mins) /\
  quality_stored B g ratio mins maxs a !! "voxel_max_dihedral_angle" =
    Some (FloatArray maxs) /\
  quality_stored B g ratio mins maxs a !! "voxel_edge_ratio" =
    Some (FloatArray (voxel_edge_ratio B g)) /\
  quality_stored B g ratio mins maxs a !! "voxel_radius_edge_ratio" =
    Some (FloatArray (voxel_radius_edge_ratio B g)).
Proof. unfold quality_stored. repeat split; by simplify_map_eq. Qed.

(** C6: the shape quality evaluator stores, for every tetrahedron, the
    IEEE quotient of its inradius by its circumradius, whatever the two
    values are: a circumradius that is zero gives an infinity or a NaN and
    no exception. It stores the minimum and the maximum of the six
    dihedral angles of every tetrahedron; the run ends without an
    exception, and for a mesh without tetrahedra the two arrays of extrema
    are empty. *)
Theorem quality_measures (w : World) :
  primitives_fit B (geometry (mesh w)) ->
  exists w' (ratio mins maxs : list float),
    compute_tet_quality_measures B w = (Ok tt, w') /\
    attributes (mesh w') !! "radius_ratio" = Some (FloatArray ratio) /\
    attributes (mesh w') !! "voxel_min_dihedral_angle" =
      Some (FloatArray mins) /\
    attributes (mesh w') !! "voxel_max_dihedral_angle" =
      Some (FloatArray maxs) /\
    length ratio = num_voxels (geometry (mesh w)) /\
    length mins = num_voxels (geometry (mesh w)) /\
    length maxs = num_voxels (geometry (mesh w)) /\
    (forall i, (i < num_voxels (geometry (mesh w)))%nat ->
       exists r c q mn mx,
         voxel_inradius B (geometry (mesh w)) !! i = Some r /\
         voxel_circumradius B (geometry (mesh w)) !! i = Some c /\
         ratio !! i = Some q /\
         q = SFdiv 53 1024 r c /\
         ((exists s, c = S754_zero s) -> Formula.non_finite q) /\
         mins !! i = Some mn /\ maxs !! i = Some mx /\
         is_minimum_of mn
           (angles_of (voxel_dihedral_angle B (geometry (mesh w))) i) /\
         is_maximum_of mx
           (angles_of (voxel_dihedral_angle B (geometry (mesh w))) i)) /\
    (num_voxels (geometry (mesh w)) = 0%nat -> mins = [] /\ maxs = []).
Proof.
  intros (Hir & Hcr & Hda).
  set (g := geometry (mesh w)) in *.
  set (ir := voxel_inradius B g) in *.
  set (cr := voxel_circumradius B g) in *.
  set (flat := voxel_dihedral_angle B g) in *.
  assert (Hdiv : Np.divide ir cr = Ok (zip_with div ir cr)).
  { apply broadcast_same_length. congruence. }
  assert (Hratio : forall i, (i < num_voxels g)%nat ->
            exists r c, ir !! i = Some r /\ cr !! i = Some c /\
                        zip_with div ir cr !! i = Some (div r c)).
  { intros i Hi.
    destruct (lookup_lt_is_Some_2 ir i) as [r Hr]; [lia|].
    destruct (lookup_lt_is_Some_2 cr i) as [c Hc]; [lia|].
    exists r, c. split; [assumption|]. split; [assumption|].
    apply lookup_zip_with_Some. eauto. }
  assert (Hlr : length (zip_with div ir cr) = num_voxels g).
  { rewrite length_zip_with. lia. }
  destruct (num_voxels g =? 0)%nat eqn:Hn.
  - apply Nat.eqb_eq in Hn.
    exists (with_attributes
              (quality_stored B g (zip_with div ir cr) [] [] (attributes (mesh w))) w),
      (zip_with div ir cr), [], [].
    destruct (quality_stored_lookups g (zip_with div ir cr) [] []
                (attributes (mesh w))) as (L1 & L2 & L3 & _).
    split_and!; try assumption; try (simpl; lia).
    + apply compute_tet_quality_measures_run; [exact Hdiv|].
      fold g. rewrite (proj2 (Nat.eqb_eq _ _) Hn). auto.
    + auto.
  - apply Nat.eqb_neq in Hn.
    pose proof (reshape_rows_six _ flat Hn Hda) as Hresh.
    assert (Hrow : forall i row, Np.chunks (num_voxels g) 6 flat !! i = Some row ->
              (i < num_voxels g)%nat /\ row = angles_of flat i).
    { intros i row Hi.
      assert (Hlt : (i < num_voxels g)%nat).
      { apply lookup_lt_Some in Hi. now rewrite chunks_length in Hi. }
      split; [assumption|].
      rewrite chunks_lookup in Hi by assumption. now injection Hi as <-. }
    destruct (rows_extrema (Np.chunks (num_voxels g) 6 flat))
      as (mins & maxs & Hmins & Hmaxs & Hext).
    { apply Forall_lookup. intros i row Hi.
      destruct (Hrow i row Hi) as [Hlt ->].
      pose proof (angles_of_length flat _ i Hda Hlt) as Hl.
      intros E. rewrite E in Hl. discriminate Hl. }
    exists (with_attributes
              (quality_stored B g (zip_with div ir cr) mins maxs
                 (attributes (mesh w))) w),
      (zip_with div ir cr), mins, maxs.
    destruct (quality_stored_lookups g (zip_with div ir cr) mins maxs
                (attributes (mesh w))) as (L1 & L2 & L3 & _).
    assert (Hlmin : length mins = num_voxels g).
    { apply mapM_Ok_length in Hmins. now rewrite Hmins, chunks_length. }
    assert (Hlmax : length maxs = num_voxels g).
    { apply mapM_Ok_length in Hmaxs. now rewrite Hmaxs, chunks_length. }
    split_and!; try assumption.
    + apply compute_tet_quality_measures_run; [exact Hdiv|].
      fold g. rewrite (proj2 (Nat.eqb_neq _ _) Hn). eauto.
    + intros i Hi.
      destruct (Hratio i Hi) as (r & c & Hr & Hc & Hrc).
      destruct (Hext i (angles_of flat i)) as (mn & mx & Hmn & Hmx & Hmin & Hmax).
      { now apply chunks_lookup. }
      exists r, c, (SFdiv 53 1024 r c), mn, mx.
      split_and!; try assumption; try reflexivity.
      intros [s ->]. apply div_by_zero_non_finite.
    + intros E. congruence.
Qed.

End QualityClaims.

(** ** The tabular exporter, step by step *)

Lemma item_cell_at v i : (i < size v)%nat -> item v i = Ok (cell_at v i).
Proof.
  intros Hi. unfold cell_at, item.
  destruct v as [a|a]; simpl in Hi;
    destruct (lookup_lt_is_Some_2 a i Hi) as [x Hx]; rewrite Hx; reflexivity.
Qed.

Lemma cell_at_shows v i : (i < size v)%nat -> shows (cell_at v i) v i.
Proof.
  intros Hi. unfold cell_at, item, shows.
  destruct v as [a|a]; simpl in Hi;
    destruct (lookup_lt_is_Some_2 a i Hi) as [x Hx]; rewrite Hx; eauto.
Qed.

Lemma with_table_twice path rows rows' w :
  with_table path rows' (with_table path rows w) = with_table path rows' w.
Proof.
  unfold with_table, with_files. simpl. now rewrite insert_insert_eq.
Qed.

Lemma writerow_run path r rows w :
  files w !! path = Some (Table rows) ->
  writerow path r w = (Ok tt, with_table path (rows ++ [r]) w).
Proof. intros H. unfold writerow, modify, table_at. rewrite H. reflexivity. Qed.

Lemma with_table_lookup path rows w :
  files (with_table path rows w) !! path = Some (Table rows).
Proof. unfold with_table. simpl. apply lookup_insert_eq. Qed.

(** The loop of lines 118 to 127 appends one row per index. *)
Lemma for_each_rows path (mk : nat -> row) (body : nat -> M unit) l :
  (forall i w0, i ∈ l -> body i w0 = writerow path (mk i) w0) ->
  forall w rows,
    files w !! path = Some (Table rows) ->
    for_each l body w = (Ok tt, with_table path (rows ++ map mk l) w).
Proof.
  intros Hbody. induction l as [|i l IH]; intros w rows Hrows; simpl.
  - rewrite app_nil_r. unfold with_table, with_files.
    rewrite insert_id by assumption. destruct w; reflexivity.
  - unfold mbind, M_bind.
    rewrite Hbody by (now left).
    rewrite (writerow_run _ _ _ _ Hrows).
    rewrite (IH (fun j w0 Hj => Hbody j w0 (list_elem_of_further _ _ _ Hj))
               _ (rows ++ [mk i]) (with_table_lookup _ _ _)).
    rewrite with_table_twice, <- app_assoc. reflexivity.
Qed.

Lemma open_for_writing_run (path : string) w :
  path ∉ unwritable w ->
  open_for_writing path w = (Ok path, with_table path [] w).
Proof.
  intros H. unfold open_for_writing, fspath, lift, get_world, mbind, M_bind.
  destruct (decide (path ∈ unwritable w)); [contradiction|]. reflexivity.
Qed.

(** Up to the reading of the attributes: the file is opened and the
    header is in it. *)
Lemma output_to_csv_header {A} (path : string) (k : string -> M A) w :
  path ∉ unwritable w ->
  (open_for_writing path ≫= fun fout =>
   writerow fout csv_header ≫= fun _ => k fout) w =
  k path (with_table path [csv_header] w).
Proof.
  intros H. unfold mbind at 1, M_bind at 1.
  rewrite (open_for_writing_run _ _ H).
  unfold mbind at 1, M_bind at 1.
  rewrite (writerow_run _ _ [] _ (with_table_lookup _ _ _)).
  rewrite with_table_twice. reflexivity.
Qed.

Ltac in_list :=
  repeat first [apply list_elem_of_here | apply list_elem_of_further].

Section ExporterClaims.

(** C7: with every required attribute stored as an array of one entry per
    tetrahedron, the exporter leaves a table of one header row, with the
    nine column names in their order, and one data row per tetrahedron in
    mesh order; row [i] starts with the index [i], counted from zero, and
    goes on with eight cells, the [k]-th of which holds the value found at
    index [i] of the [k]-th stored attribute. *)
Theorem table_rows (csv_file : string) (w : World) (vs : list ndarray) :
  csv_file ∉ unwritable w ->
  Forall2 (fun name v =>
             attributes (mesh w) !! name = Some v /\
             size v = num_voxels (geometry (mesh w)))
          required_attributes vs ->
  exists w' rows,
    output_to_csv csv_file w = (Ok tt, w') /\
    mesh w' = mesh w /\
    files w' !! csv_file =
      Some (Table
              ([CStr "index"; CStr "edge_ratio"; CStr "radius_ratio";
                CStr "min_dihedral_angle"; CStr "max_dihedral_angle";
                CStr "radius_edge_ratio"; CStr "conformal_amips";
                CStr "symmetric_dirichlet"; CStr "orientation"] :: rows)) /\
    length rows = num_voxels (geometry (mesh w)) /\
    forall i, (i < num_voxels (geometry (mesh w)))%nat ->
      exists cells,
        rows !! i = Some (CInt i :: cells) /\
        Forall2 (fun v c => shows c v i) vs cells.
Proof.
  intros Hw Hall. unfold required_attributes in Hall.
  repeat match goal with
  | H : Forall2 _ (_ :: _) _ |- _ =>
      apply Forall2_cons_inv_l in H as (? & ? & [? ?] & ? & ->)
  end.
  match goal with
  | H : Forall2 _ [] _ |- _ => apply Forall2_nil_inv_l in H as ->
  end.
  match goal with
  | |- context [Forall2 _ [?v1; ?v2; ?v3; ?v4; ?v5; ?v6; ?v7; ?v8] _] =>
      set (mk := fun i : nat =>
        [CInt i; cell_at v1 i; cell_at v2 i; cell_at v3 i; cell_at v4 i;
         cell_at v5 i; cell_at v6 i; cell_at v7 i; cell_at v8 i])
  end.
  set (n := num_voxels (geometry (mesh w))) in *.
  exists (with_table csv_file (csv_header :: map mk (seq 0 n)) w),
    (map mk (seq 0 n)).
  split_and!.
  - unfold output_to_csv.
    rewrite output_to_csv_header by assumption.
    rewrite get_world_step.
    do 8 (erewrite get_step by lookup_now; cbv beta).
    cbn [mesh geometry with_table with_files]. fold n.
    erewrite for_each_rows with (mk := mk) (rows := [csv_header]).
    + rewrite with_table_twice. reflexivity.
    + intros i w0 Hi. apply elem_of_seq in Hi as [_ Hi]. simpl in Hi.
      rewrite !item_cell_at by lia. reflexivity.
    + apply with_table_lookup.
  - reflexivity.
  - apply with_table_lookup.
  - now rewrite length_map, length_seq.
  - intros i Hi. eexists. split.
    + rewrite list_lookup_fmap, lookup_seq_lt by assumption. reflexivity.
    + repeat constructor; apply cell_at_shows; lia.
Qed.

(** C8, as amended: when a required attribute is missing (and the table
    file can be opened), the exporter fails with the missing attribute
    error for the first such attribute in reading order, before any data
    row is written; the table file has by then been created or emptied and
    holds the header row, and nothing else in the world has changed. *)
Theorem missing_attribute_aborts (csv_file : string) (w : World) :
  csv_file ∉ unwritable w ->
  (exists name, name ∈ required_attributes /\
                attributes (mesh w) !! name = None) ->
  exists name,
    name ∈ required_attributes /\
    attributes (mesh w) !! name = None /\
    output_to_csv csv_file w =
      (Raise (MissingAttribute name), with_table csv_file [csv_header] w).
Proof.
  intros Hw (missing & Hin & Hmiss).
  unfold output_to_csv.
  rewrite output_to_csv_header by assumption.
  rewrite get_world_step.
  unfold required_attributes in *.
  repeat match goal with
  | |- context [get_attribute ?name ≫= _] =>
      destruct (attributes (mesh w) !! name) as [?v|] eqn:?;
        [ erewrite get_step by lookup_now; cbv beta
        | exists name; split; [in_list|]; split; [assumption|];
          erewrite get_missing by lookup_now; reflexivity ]
  end.
  exfalso.
  repeat match goal with
  | H : missing ∈ _ :: _ |- _ => apply elem_of_cons in H as [-> | H]
  end; try congruence.
  now apply elem_of_nil in Hin.
Qed.

End ExporterClaims.

(** ** The command line *)

Lemma plain_spec a : plain a -> a <> "--" /\ parse_optional a = Ok None.
Proof.
  unfold plain, is_argument. intros H. apply andb_true_iff in H as [H1 H2].
  split.
  - intros ->. discriminate H1.
  - destruct (parse_optional a) as [[o|]|]; try discriminate. reflexivity.
Qed.

Lemma parse_optional_Raise a x : parse_optional a = Raise x -> x = usage_error.
Proof.
  unfold parse_optional.
  destruct a as [|c a']; [discriminate|].
  destruct (negb (Ascii.eqb c "-")); [discriminate|].
  destruct (assoc (String c a') option_string_actions); [discriminate|].
  destruct (String.length (String c a') =? 1)%nat; [discriminate|].
  destruct (match split_at "=" (String c a') with
            | Some (before, after) =>
                match assoc before option_string_actions with
                | Some act =>
                    Some {| opt_action := Some act; option_string := before;
                            explicit_arg := Some after |}
                | None => None
                end
            | None => None
            end); [discriminate|].
  destruct (get_option_tuples (String c a')) as [|t1 [|t2 ts]].
  - destruct (negative_number_like (String c a')); [discriminate|].
    destruct (has_char " " (String c a')); discriminate.
  - discriminate.
  - now intros [= <-].
Qed.

Lemma scan_Raise argv x : scan argv = Raise x -> x = usage_error.
Proof.
  induction argv as [|a rest IH]; simpl; [discriminate|].
  destruct (decide (a = "--")); [discriminate|].
  destruct (parse_optional a) as [o|y] eqn:Ho; simpl.
  - destruct (scan rest) as [tokens|y]; simpl; [discriminate|].
    intros [= <-]. now apply IH.
  - intros [= <-]. now apply parse_optional_Raise in Ho.
Qed.

Lemma scan_cons_plain a rest :
  plain a -> scan (a :: rest) = (tokens ← scan rest; Ok (TokenA a :: tokens)).
Proof.
  intros [Hne Hp]%plain_spec. simpl.
  destruct (decide (a = "--")); [contradiction|]. rewrite Hp. reflexivity.
Qed.

Lemma scan_app_plain pre rest :
  Forall plain pre ->
  scan (pre ++ rest) = (tokens ← scan rest; Ok (map TokenA pre ++ tokens)).
Proof.
  induction 1 as [|a pre Ha _ IH]; simpl app.
  - destruct (scan rest); reflexivity.
  - rewrite (scan_cons_plain _ _ Ha), IH.
    destruct (scan rest); reflexivity.
Qed.

Lemma scan_plain argv : Forall plain argv -> scan argv = Ok (map TokenA argv).
Proof.
  intros H. rewrite <- (app_nil_r argv) at 1.
  rewrite (scan_app_plain _ _ H). simpl. now rewrite app_nil_r.
Qed.

Lemma no_option_arguments l : existsb is_option (map TokenA l) = false.
Proof. induction l; [reflexivity | assumption]. Qed.

Lemma dashes_arguments l : dashes (map TokenA l) = 0%nat.
Proof. destruct l; reflexivity. Qed.

Lemma consume_no_option tokens st :
  existsb is_option tokens = false ->
  consume tokens st =
    ('(rest, st') ← consume_positionals tokens st;
     Ok (add_extras (map arg_string_of rest) st')).
Proof.
  intros H. destruct tokens as [|t tokens]; [reflexivity|].
  simpl in *. rewrite H. reflexivity.
Qed.

Lemma get_values_word act (a : string) :
  a <> "--" ->
  get_values act [a] = (check_value act a;; Ok (Str a)).
Proof.
  intros H. unfold get_values. simpl.
  destruct (decide (a = "--")); [contradiction | reflexivity].
Qed.

Lemma take_action_positional act (a : string) st :
  positional act -> a <> "--" ->
  take_action act [a] st = Ok (store act (Str a) st).
Proof.
  intros Hact Ha. unfold take_action. rewrite (get_values_word _ _ Ha).
  destruct Hact as [-> | ->]; reflexivity.
Qed.

Ltac side := first [assumption | left; reflexivity | right; reflexivity].



Lemma check_value_Ok v : check_value StoreLog v = Ok tt -> v ∈ log_choices.
Proof.
  unfold check_value. case_bool_decide; [auto | discriminate].
Qed.













Lemma consume_plain_prefix pre rest st :
  Forall plain pre -> existsb is_option rest = true ->
  Forall positional (p_positionals st) ->
  exists st', consume (map TokenA pre ++ rest) st = consume rest st'.
Proof.
  intros Hpre Hopt. revert st.
  induction Hpre as [|a pre Ha _ IH]; intros st Hpos; [eauto|].
  apply plain_spec in Ha as [Ha _].
  simpl map. simpl app. simpl consume.
  rewrite existsb_app, Hopt, orb_true_r.
  destruct (p_positionals st) as [|act positionals] eqn:E.
  - apply IH. cbn [p_positionals add_extras]. rewrite E. constructor.
  - apply Forall_cons in Hpos as [Hact Hpos].
    cbn [arg_string_of].
    rewrite (take_action_positional _ _ _ Hact Ha).
    cbn [mbind result_bind]. apply IH.
    destruct Hact as [-> | ->]; exact Hpos.
Qed.

Lemma scan_log rest :
  scan ("--log" :: rest) =
    (tokens ← scan rest;
     Ok (TokenO "--log" {| opt_action := Some StoreLog;
                           option_string := "--log";
                           explicit_arg := None |} :: tokens)).
Proof. reflexivity. Qed.

Lemma scan_csv rest :
  scan ("--csv" :: rest) =
    (tokens ← scan rest;
     Ok (TokenO "--csv" {| opt_action := Some StoreCsv;
                           option_string := "--csv";
                           explicit_arg := None |} :: tokens)).
Proof. reflexivity. Qed.

Lemma choice_is_plain level : level ∈ log_choices -> plain level.
Proof.
  unfold log_choices. intros H.
  repeat (apply elem_of_cons in H as [-> | H]; [reflexivity|]).
  now apply elem_of_nil in H.
Qed.

Lemma take_action_log_choice (level : string) st :
  level ∈ log_choices ->
  take_action StoreLog [level] st = Ok (store StoreLog (Str level) st).
Proof.
  intros H. pose proof (choice_is_plain _ H) as [Hne _]%plain_spec.
  unfold take_action. rewrite (get_values_word _ _ Hne).
  unfold check_value. rewrite bool_decide_eq_true_2 by assumption.
  reflexivity.
Qed.

Lemma take_action_csv (a : string) st :
  a <> "--" -> take_action StoreCsv [a] st = Ok (store StoreCsv (Str a) st).
Proof.
  intros Hne. unfold take_action. rewrite (get_values_word _ _ Hne).
  reflexivity.
Qed.


(** ** The claims on the sample meshes *)

Lemma invert_J_exact_zero_witness :
  (exists J,
     Runs.gradients Sample.three !! 2%nat = Some J /\
     Sample.det3 J = zero /\
     Runs.inverses Sample.three !! 2%nat = Some all_inf) /\
  (exists J,
     Runs.gradients Sample.three !! 0%nat = Some J /\
     Sample.det3 J = one /\
     Runs.inverses Sample.three !! 0%nat = Sample.inv3 J).
Proof.
  assert (H : mapM (invert_J Sample.backend)
                (zip (Runs.gradients Sample.three)
                     (map (linalg_det Sample.backend)
                          (Runs.gradients Sample.three))) =
              Ok (Runs.inverses Sample.three)).
  { vm_compute. reflexivity. }
  split; eexists; (split; [vm_compute; reflexivity|]);
    (split; [vm_compute; reflexivity|]).
  - rewrite (proj2 (invert_J_exact_zero Sample.backend) _ _ H 2%nat _ eq_refl).
    reflexivity.
  - rewrite (proj2 (invert_J_exact_zero Sample.backend) _ _ H 0%nat _ eq_refl).
    reflexivity.
Defined.

Lemma sample_inverse_answers (J : Np.matrix) :
  eqb (linalg_det Sample.backend J) zero = false ->
  is_Some (linalg_inv Sample.backend J).
Proof.
  simpl. unfold Sample.inv3. intros ->. eauto.
Qed.

Lemma energies_by_formula_witness :
  exists w' (amips dirichlet : list float),
    compute_distortion_energies Sample.backend (Sample.fresh Sample.three) =
      (Ok tt, w') /\
    attributes (mesh w') !! "conformal_AMIPS" = Some (FloatArray amips) /\
    attributes (mesh w') !! "symmetric_Dirichlet" = Some (FloatArray dirichlet) /\
    exists V_t J J_inv a d,
      Forall2 (fun v r => vertices Sample.three !! v = Some r)
              [0; 1; 2; 4]%nat V_t /\
      J = Formula.product (Sparse.rows Sample.G) V_t /\
      Sample.det3 J = S754_zero false /\
      J_inv = repeat (repeat (S754_infinity false) 3) 3 /\
      amips !! 2%nat = Some a /\ Formula.non_finite a /\
      dirichlet !! 2%nat = Some d /\ Formula.non_finite d.
Proof.
  destruct (energies_by_formula Sample.backend (Sample.fresh Sample.three))
    as (w' & amips & dirichlet & Hrun & Ha & Hd & Hall).
  - vm_compute. reflexivity.
  - vm_compute. reflexivity.
  - vm_compute. reflexivity.
  - vm_compute. reflexivity.
  - exact sample_inverse_answers.
  - exists w', amips, dirichlet.
    split; [exact Hrun|]. split; [exact Ha|]. split; [exact Hd|].
    destruct (Hall 2%nat [0; 1; 2; 4]%nat eq_refl)
      as (V_t & J & J_inv & a & d & HV & HJ & Hinv & Hai & Haeq & Hdi & Hdeq &
          Hzero & Hdet).
    assert (HVt : V_t = [Sample.pt 0 0 0; Sample.pt 1 0 0; Sample.pt 0 1 0;
                         Sample.pt 1 1 0]).
    { repeat match goal with
      | H : Forall2 _ (_ :: _) _ |- _ =>
          apply Forall2_cons_inv_l in H as (? & ? & ? & ? & ->)
      | H : Forall2 _ [] _ |- _ => apply Forall2_nil_inv_l in H as ->
      end.
      repeat match goal with
      | H : vertices _ !! _ = Some ?x |- _ =>
          is_var x; vm_compute in H; injection H as <-
      end.
      reflexivity. }
    assert (Hdz : linalg_det Sample.backend J = S754_zero false).
    { rewrite HJ, HVt. vm_compute. reflexivity. }
    rewrite Hdz in Hinv.
    exists V_t, J, J_inv, a, d.
    split_and!; try assumption.
    + apply (Hzero false).
      change (cbrt Sample.backend) with Sample.cbrt_rn.
      rewrite Hdz. vm_compute. reflexivity.
    + apply (Hdet false). exact Hdz.
Defined.

Lemma unsupported_element_kind_iff_witness :
  fst (compute_distortion_energies Sample.backend (Sample.fresh Sample.hex)) =
    Raise unsupported_element_kind /\
  exists w',
    compute_distortion_energies Sample.backend (Sample.fresh Sample.surface) =
      (Ok tt, w') /\
    attributes (mesh w') !! "conformal_AMIPS" = Some (FloatArray []) /\
    attributes (mesh w') !! "finite_conformal_AMIPS" = Some (BoolArray []) /\
    attributes (mesh w') !! "symmetric_Dirichlet" = Some (FloatArray []) /\
    attributes (mesh w') !! "finite_symmetric_Dirichlet" = Some (BoolArray []) /\
    attributes (mesh w') !! "orientations" = Some (FloatArray []).
Proof.
  split.
  - apply (proj1 (unsupported_element_kind_iff Sample.backend
                    (Sample.fresh Sample.hex))).
    split; [vm_compute; lia | vm_compute; discriminate].
  - apply (proj2 (unsupported_element_kind_iff Sample.backend
                    (Sample.fresh Sample.surface))); reflexivity.
Defined.

Lemma quality_measures_witness :
  exists w' (ratio mins maxs : list float),
    compute_tet_quality_measures Sample.backend (Sample.distorted Sample.three) =
      (Ok tt, w') /\
    attributes (mesh w') !! "radius_ratio" = Some (FloatArray ratio) /\
    attributes (mesh w') !! "voxel_min_dihedral_angle" =
      Some (FloatArray mins) /\
    attributes (mesh w') !! "voxel_max_dihedral_angle" =
      Some (FloatArray maxs) /\
    length ratio = 3%nat /\ length mins = 3%nat /\ length maxs = 3%nat /\
    (forall i, (i < 3)%nat ->
       exists r c q mn mx,
         voxel_inradius Sample.backend Sample.three !! i = Some r /\
         voxel_circumradius Sample.backend Sample.three !! i = Some c /\
         ratio !! i = Some q /\
         q = SFdiv 53 1024 r c /\
         ((exists s, c = S754_zero s) -> Formula.non_finite q) /\
         mins !! i = Some mn /\ maxs !! i = Some mx /\
         is_minimum_of mn
           (angles_of (voxel_dihedral_angle Sample.backend Sample.three) i) /\
         is_maximum_of mx
           (angles_of (voxel_dihedral_angle Sample.backend Sample.three) i)) /\
    (3%nat = 0%nat -> mins = [] /\ maxs = []).
Proof.
  apply (quality_measures Sample.backend (Sample.distorted Sample.three)).
  unfold primitives_fit. vm_compute. auto.
Defined.

Lemma table_rows_witness :
  exists w' rows,
    output_to_csv "out.csv" (Runs.measured Sample.three) = (Ok tt, w') /\
    mesh w' = mesh (Runs.measured Sample.three) /\
    files w' !! "out.csv" =
      Some (Table
              ([CStr "index"; CStr "edge_ratio"; CStr "radius_ratio";
                CStr "min_dihedral_angle"; CStr "max_dihedral_angle";
                CStr "radius_edge_ratio"; CStr "conformal_amips";
                CStr "symmetric_dirichlet"; CStr "orientation"] :: rows)) /\
    length rows = num_voxels (geometry (mesh (Runs.measured Sample.three))) /\
    forall i,
      (i < num_voxels (geometry (mesh (Runs.measured Sample.three))))%nat ->
      exists cells,
        rows !! i = Some (CInt i :: cells) /\
        Forall2 (fun v c => shows c v i)
                (Runs.columns (Runs.measured Sample.three)) cells.
Proof.
  apply (table_rows "out.csv" (Runs.measured Sample.three)
           (Runs.columns (Runs.measured Sample.three))).
  - intros H. vm_compute in H. discriminate H.
  - vm_compute. repeat constructor.
Defined.

(** An export from a mesh that was never measured fails on the first
    attribute, and the table file, which did not exist, now holds the
    header row. *)
Lemma partial_table_counterexample :
  files (Sample.fresh Sample.corner) !! "out.csv" = None /\
  exists w',
    output_to_csv "out.csv" (Sample.fresh Sample.corner) =
      (Raise (MissingAttribute "voxel_edge_ratio"), w') /\
    files w' !! "out.csv" = Some (Table [csv_header]).
Proof.
  split; [reflexivity|].
  exists (snd (output_to_csv "out.csv" (Sample.fresh Sample.corner))).
  split; vm_compute; reflexivity.
Qed.

Lemma missing_attribute_aborts_witness :
  exists name,
    name ∈ required_attributes /\
    attributes (mesh (Sample.fresh Sample.corner)) !! name = None /\
    output_to_csv "out.csv" (Sample.fresh Sample.corner) =
      (Raise (MissingAttribute name),
       with_table "out.csv" [csv_header] (Sample.fresh Sample.corner)).
Proof.
  apply (missing_attribute_aborts "out.csv" (Sample.fresh Sample.corner)).
  - intros H. vm_compute in H. discriminate H.
  - exists "radius_ratio". split; [unfold required_attributes; in_list | reflexivity].
Defined.

Lemma warnings_iff_counts_witness :
  exists w' new,
    compute_distortion_energies Sample.backend (Sample.fresh Sample.three) =
      (Ok tt, w') /\
    log w' = log (Sample.fresh Sample.three) ++ new /\
    new =
      [ {| logger_name := "Distorsion"; levelno := 30;
           message := "degenerate tets: 1" |};
        {| logger_name := "Distorsion"; levelno := 30;
           message := "inverted tets: 1" |};
        {| logger_name := "Distorsion"; levelno := 30;
           message := "Non-finite conformal AMIPS: 1" |};
        {| logger_name := "Distorsion"; levelno := 30;
           message := "Non-finite symmetric Dirichlet: 1" |} ].
Proof.
  destruct (warnings_iff_counts Sample.backend (Sample.fresh Sample.three)
              (Sample.energies Sample.three))
    as (w' & new & n1 & n2 & n3 & n4 & Hrun & Hlog & _ & _ & _ & _ & _ &
        H1 & H2 & H3 & H4 & Hnew & _); [vm_compute; reflexivity ..|].
  exists w', new. split; [exact Hrun|]. split; [exact Hlog|].
  rewrite Hnew, H1, H2, H3, H4. vm_compute. reflexivity.
Defined.

(** ** Illustrations *)

(** IEEE division does not trap. *)
Example division_by_zero :
  div one zero = inf /\ div neg_one zero = neg_inf /\ div zero zero = nan /\
  div inf inf = nan.
Proof. repeat split; reflexivity. Qed.

(** The two masked assignments on a positive, a negative, the two zeros, a
    NaN and the two infinities. *)
Example quantize_values :
  quantize [of_Z 5; of_Z (-3); zero; neg_zero; nan; inf; neg_inf] =
  [one; neg_one; zero; neg_zero; nan; one; neg_one].
Proof. reflexivity. Qed.

(** The smallest positive determinant is not treated as zero. *)
Example smallest_determinant (B : Backend) (J : Np.matrix) :
  invert_J B (J, min_subnormal) =
  match linalg_inv B J with
  | Some M => Ok M
  | None => Raise LinAlgError
  end.
Proof. reflexivity. Qed.

(** A negative zero determinant is zero. *)
Example negative_zero_determinant (B : Backend) (J : Np.matrix) :
  invert_J B (J, neg_zero) = Ok all_inf.
Proof. reflexivity. Qed.

(** A NaN in a row wins the reduction. *)
Example amax_with_nan : Np.amax [of_Z 3; nan; of_Z 2] = Ok nan.
Proof. reflexivity. Qed.

(** The whole program on the three sample tetrahedra, with a table. *)
Example main_on_three :
  let r := main Sample.backend
             ["--csv"; "out.csv"; "--log=INFO"; "in.msh"; "out.msh"]
             (Runs.on_disk Sample.three) in
  fst r = Ok tt /\
  root_level (snd r) = INFO /\
  length (log (snd r)) = 4%nat /\
  (exists rows, files (snd r) !! "out.csv" = Some (Table rows) /\
                length rows = 4%nat) /\
  (exists m, files (snd r) !! "out.msh" = Some (MeshFile m)).
Proof. vm_compute. repeat split; eauto. Qed.

(** A level in lower case is refused by the parser. *)
Example lower_case_level :
  parse_args ["--log"; "warning"; "in.msh"; "out.msh"] = Raise usage_error.
Proof. reflexivity. Qed.

(** With the root logger at [WARNING] or below, every warning of the
    evaluator reaches the handlers. *)
Lemma warnings_are_emitted (e : Energies) (w : World) (r : LogRecord) :
  (root_level w <= WARNING)%nat ->
  r ∈ warnings e ->
  r ∈ emitted (after_distortion e w).
Proof.
  intros Hlevel Hr. unfold emitted.
  apply list_elem_of_filter. split.
  - apply warnings_spec in Hr.
    destruct Hr as [[_ ->] | [[_ ->] | [[_ ->] | [_ ->]]]]; exact Hlevel.
  - rewrite after_distortion_log. apply elem_of_app. now right.
Qed.

(** ** The distortion evaluator: failures, frame and diagnostics *)

Section DistortionMore.

Variable B : Backend.

(** X1: Every fallible step of the evaluator comes before its first write: a
    run that raises has logged nothing and stored nothing. *)
Theorem distortion_failure_leaves_world (w : World) (x : exn) :
  fst (compute_distortion_energies B w) = Raise x ->
  snd (compute_distortion_energies B w) = w.
Proof.
  destruct (compute_distortion_energies_cases B w)
    as [[_ H] | [[_ (y & _ & H)] | [_ (e & _ & H)]]]; rewrite H; simpl.
  - reflexivity.
  - reflexivity.
  - discriminate.
Qed.

(** X2: A run that returns has changed the five attributes and appended to
    the log, and nothing else: the geometry, every other attribute, the
    logging level and the files are as before. *)
Theorem distortion_frame (w w' : World) :
  compute_distortion_energies B w = (Ok tt, w') ->
  geometry (mesh w') = geometry (mesh w) /\
  (forall name, name ∉ distortion_attributes ->
     attributes (mesh w') !! name = attributes (mesh w) !! name) /\
  (exists new, log w' = log w ++ new) /\
  root_level w' = root_level w /\
  files w' = files w /\
  unwritable w' = unwritable w.
Proof.
  intros Hrun.
  apply compute_distortion_energies_Ok in Hrun as (_ & e & _ & ->).
  split_and!; try reflexivity.
  - intros name Hname. rewrite after_distortion_attributes.
    unfold distortion_attributes in Hname. unfold stored.
    rewrite !lookup_insert_ne; [reflexivity | intros <-; apply Hname; in_list ..].
  - exists (warnings e). reflexivity.
Qed.

Lemma quantize_keeps_sign (x : float) :
  eqb (if ltb (if gtb x zero then one else x) zero
       then neg_one else if gtb x zero then one else x) zero = eqb x zero /\
  ltb (if ltb (if gtb x zero then one else x) zero
       then neg_one else if gtb x zero then one else x) zero = ltb x zero.
Proof. destruct x as [[]|[]| |[] m e]; split; reflexivity. Qed.

(** X3: The two orientation diagnostics count the raw values: a tetrahedron
    is counted as degenerate exactly when its raw orientation is a zero,
    and as inverted exactly when it is negative. *)
Theorem orientation_counts (g : Geometry) (e : Energies) :
  distortion_energies B g = Ok e ->
  num_degenerate_tets e =
    Np.count_nonzero (map (fun x => eqb x zero) (tet_orientations B g)) /\
  num_inverted_tets e =
    Np.count_nonzero (map (fun x => ltb x zero) (tet_orientations B g)).
Proof.
  intros He.
  destruct (distortion_energies_Ok B g e He)
    as (Js & J_inv & _ & _ & _ & _ & _ & _ & _ & Ho).
  unfold num_degenerate_tets, num_inverted_tets.
  rewrite Ho. unfold quantize, Np.mask_assign. rewrite !map_map.
  split; f_equal; apply map_ext; intros x; apply quantize_keeps_sign.
Qed.

Lemma frobenius2_all_inf : frobenius2 all_inf = inf.
Proof. reflexivity. Qed.

Lemma add_inf_not_finite (x : float) : isfinite (Float64.add x inf) = false.
Proof. destruct x as [[]|[]| |[] m e]; reflexivity. Qed.

Lemma count_nonzero_positive (flags : list bool) i :
  flags !! i = Some true -> (0 < Np.count_nonzero flags)%nat.
Proof.
  revert i. induction flags as [|b flags IH]; intros i Hi; [discriminate|].
  unfold Np.count_nonzero in *.
  destruct i as [|i]; simpl in Hi.
  - injection Hi as ->. rewrite filter_cons_True by reflexivity. simpl. lia.
  - specialize (IH i Hi). destruct b.
    + rewrite filter_cons_True by reflexivity. simpl. lia.
    + rewrite filter_cons_False by discriminate. exact IH.
Qed.

(** X4: A tetrahedron whose deformation gradient has a zero determinant
    always ends with a symmetric Dirichlet energy that is not finite,
    whatever its Frobenius norm is: its flag is false and the run issues
    the warning for non-finite symmetric Dirichlet energies. *)
Theorem zero_determinant_flagged (w w' : World) i tet J :
  compute_distortion_energies B w = (Ok tt, w') ->
  voxels (geometry (mesh w)) !! i = Some tet ->
  deformation_gradient B (geometry (mesh w)) tet = Ok J ->
  eqb (linalg_det B J) zero = true ->
  exists (dirichlet : list float) (fd : list bool) d n,
    attributes (mesh w') !! "symmetric_Dirichlet" = Some (FloatArray dirichlet) /\
    attributes (mesh w') !! "finite_symmetric_Dirichlet" = Some (BoolArray fd) /\
    dirichlet !! i = Some d /\ isfinite d = false /\
    fd !! i = Some false /\
    (0 < n)%nat /\ warning (dirichlet_msg n) ∈ log w'.
Proof.
  intros Hrun Htet HJ Hdet.
  apply compute_distortion_energies_Ok in Hrun as (_ & e & He & ->).
  destruct (distortion_energies_Ok B _ e He)
    as (Js & J_inv & HJs & HJi & Hlen & _ & _ & Hd & Hfd & _).
  destruct (stored_lookups e (attributes (mesh w))) as (_ & _ & L3 & L4 & _).
  destruct (mapM_Ok_lookup _ _ _ _ _ HJs Htet) as (J' & HJ' & HJeq).
  rewrite HJ in HJeq. injection HJeq as <-.
  assert (Hz : zip Js (map (linalg_det B) Js) !! i = Some (J, linalg_det B J)).
  { apply lookup_zip_with_Some. exists J, (linalg_det B J).
    rewrite list_lookup_fmap, HJ'. auto. }
  destruct (mapM_Ok_lookup _ _ _ _ _ HJi Hz) as (Ji & HJi_i & HfJi).
  unfold invert_J in HfJi. simpl in HfJi. rewrite Hdet in HfJi.
  injection HfJi as <-.
  assert (Hdi : symmetric_dirichlet e !! i =
                Some (Float64.add (frobenius2 J) inf)).
  { rewrite Hd. apply lookup_zip_with_Some. exists J, (Np.full 3 3 inf).
    split; [|auto]. unfold dirichlet_of.
    change (Np.full 3 3 inf) with all_inf. now rewrite frobenius2_all_inf. }
  assert (Hfi : finite_symmetric_dirichlet e !! i = Some false).
  { rewrite Hfd, list_lookup_fmap, Hdi. simpl. now rewrite add_inf_not_finite. }
  assert (Hn : (0 < num_nonfinite_dirichlet e)%nat).
  { unfold num_nonfinite_dirichlet, Np.logical_not.
    apply (count_nonzero_positive _ i).
    now rewrite list_lookup_fmap, Hfi. }
  exists (symmetric_dirichlet e), (finite_symmetric_dirichlet e),
    (Float64.add (frobenius2 J) inf), (num_nonfinite_dirichlet e).
  rewrite after_distortion_attributes, after_distortion_log.
  split_and!; try assumption.
  - apply add_inf_not_finite.
  - apply elem_of_app. right. apply warnings_spec. auto 6.
Qed.

Lemma stored_absorbs e a : stored e (stored e a) = stored e a.
Proof.
  destruct (stored_lookups e a) as (L1 & L2 & L3 & L4 & L5).
  unfold stored at 1.
  rewrite (insert_id _ _ _ L1), (insert_id _ _ _ L2), (insert_id _ _ _ L3),
    (insert_id _ _ _ L4), (insert_id _ _ _ L5).
  reflexivity.
Qed.

(** X5: The evaluator reads the geometry only: run again on its own result,
    it returns again, leaves the attribute store as it is and hands the
    same warnings to the logger once more. *)
Theorem distortion_rerun (w w1 : World) :
  compute_distortion_energies B w = (Ok tt, w1) ->
  exists w2 new,
    compute_distortion_energies B w1 = (Ok tt, w2) /\
    mesh w2 = mesh w1 /\
    log w1 = log w ++ new /\
    log w2 = log w1 ++ new.
Proof.
  intros Hrun.
  apply compute_distortion_energies_Ok in Hrun as (Ht & e & He & ->).
  exists (after_distortion e (after_distortion e w)), (warnings e).
  split_and!.
  - now apply compute_distortion_energies_run.
  - unfold after_distortion at 1. cbn [mesh with_attributes with_mesh].
    rewrite after_distortion_attributes, stored_absorbs.
    destruct w as [[g a] ? ? ? ?]. reflexivity.
  - reflexivity.
  - reflexivity.
Qed.

End DistortionMore.

(** ** The shape quality evaluator: failures and frame *)

Lemma broadcast_Raise op (a b : list float) x :
  Np.broadcast op a b = Raise x -> exists msg, x = ValueError msg.
Proof.
  unfold Np.broadcast.
  destruct (length a =? length b)%nat; [discriminate|].
  destruct a as [|? [|? ?]], b as [|? [|? ?]]; try discriminate;
    intros [= <-]; eauto.
Qed.

Lemma reshape_rows_Raise n (a : list float) x :
  Np.reshape_rows n a = Raise x -> exists msg, x = ValueError msg.
Proof.
  unfold Np.reshape_rows. destruct n; [intros [= <-]; eauto|].
  destruct (length a mod S n =? 0)%nat; [discriminate|].
  intros [= <-]; eauto.
Qed.

Lemma amin_rows_Raise rows x :
  amin_rows rows = Raise x -> exists msg, x = ValueError msg.
Proof.
  intros H. apply mapM_Raise in H as (row & _ & H).
  destruct row; [|discriminate]. injection H as <-. eauto.
Qed.

Lemma amax_rows_Raise rows x :
  amax_rows rows = Raise x -> exists msg, x = ValueError msg.
Proof.
  intros H. apply mapM_Raise in H as (row & _ & H).
  destruct row; [|discriminate]. injection H as <-. eauto.
Qed.

Section QualityMore.

Variable B : Backend.

Lemma lift_raise {A C} (r : result A) x (k : A -> M C) w :
  r = Raise x -> (lift r ≫= k) w = (Raise x, w).
Proof. intros ->. reflexivity. Qed.

Lemma get_voxel_raise {A} name v x (k : Np.matrix -> M A) w :
  attributes (mesh w) !! name = Some v ->
  (num_voxels (geometry (mesh w)) =? 0)%nat = false ->
  Np.reshape_rows (num_voxels (geometry (mesh w))) (as_floats v) = Raise x ->
  (get_voxel_attribute name ≫= k) w = (Raise x, w).
Proof.
  intros Hv Hn Hrows.
  unfold get_voxel_attribute, get_attribute, get_world, lift, mbind, M_bind.
  rewrite Hv. cbn [mret M_ret]. rewrite Hn, Hrows. reflexivity.
Qed.

Lemma pair_raise_first {A1 A2 C} (r2 : result A2) x
  (k : A1 * A2 -> M C) w :
  ((lift (Raise x) ≫= fun a : A1 => lift r2 ≫= fun b => mret (a, b)) ≫= k) w =
  (Raise x, w).
Proof. reflexivity. Qed.

Lemma pair_raise_second {A1 A2 C} (r1 : result A1) x1 x
  (k : A1 * A2 -> M C) w :
  r1 = Ok x1 ->
  ((lift r1 ≫= fun a => lift (Raise x) ≫= fun b : A2 => mret (a, b)) ≫= k) w =
  (Raise x, w).
Proof. intros ->. reflexivity. Qed.

(** Every way the shape quality evaluator can end: with a [ValueError]
    from an array operation, or with its eight attributes stored. *)
Lemma compute_tet_quality_measures_cases w :
  (exists msg, fst (compute_tet_quality_measures B w) = Raise (ValueError msg)) \/
  (exists radius_ratio mins maxs,
     compute_tet_quality_measures B w =
       (Ok tt,
        with_attributes
          (quality_stored B (geometry (mesh w)) radius_ratio mins maxs
             (attributes (mesh w))) w)).
Proof.
  set (g := geometry (mesh w)).
  destruct (Np.divide (voxel_inradius B g) (voxel_circumradius B g))
    as [rr|x] eqn:Hdiv.
  - destruct (num_voxels g =? 0)%nat eqn:Hn.
    + right. exists rr, [], [].
      apply compute_tet_quality_measures_run; [exact Hdiv|].
      fold g. rewrite Hn. auto.
    + destruct (Np.reshape_rows (num_voxels g) (voxel_dihedral_angle B g))
        as [rows|x] eqn:Hresh.
      * destruct (amin_rows rows) as [mins|x] eqn:Hmin;
          [destruct (amax_rows rows) as [maxs|x] eqn:Hmax|].
        -- right. exists rr, mins, maxs.
           apply compute_tet_quality_measures_run; [exact Hdiv|].
           fold g. rewrite Hn. eauto.
        -- left. destruct (amax_rows_Raise _ _ Hmax) as [msg ->].
           exists msg. unfold compute_tet_quality_measures.
           rewrite !add_step.
           erewrite get_step by lookup_now. cbv beta.
           erewrite get_step by lookup_now. cbv beta.
           cbn [as_floats default predefined].
           erewrite lift_step by (cbn; exact Hdiv). cbv beta.
           rewrite add_then_set, add_step.
           erewrite get_voxel_step;
             [| lookup_now
              | cbn [attributes mesh with_attributes with_mesh geometry as_floats];
                fold g; rewrite Hn; exact Hresh].
           cbv beta. rewrite get_world_step.
           cbn [attributes mesh with_attributes with_mesh geometry].
           fold g. rewrite Hn, Hmax.
           erewrite pair_raise_second by exact Hmin. reflexivity.
        -- left. destruct (amin_rows_Raise _ _ Hmin) as [msg ->].
           exists msg. unfold compute_tet_quality_measures.
           rewrite !add_step.
           erewrite get_step by lookup_now. cbv beta.
           erewrite get_step by lookup_now. cbv beta.
           cbn [as_floats default predefined].
           erewrite lift_step by (cbn; exact Hdiv). cbv beta.
           rewrite add_then_set, add_step.
           erewrite get_voxel_step;
             [| lookup_now
              | cbn [attributes mesh with_attributes with_mesh geometry as_floats];
                fold g; rewrite Hn; exact Hresh].
           cbv beta. rewrite get_world_step.
           cbn [attributes mesh with_attributes with_mesh geometry].
           fold g. rewrite Hn, Hmin.
           rewrite pair_raise_first. reflexivity.
      * left. destruct (reshape_rows_Raise _ _ _ Hresh) as [msg ->].
        exists msg. unfold compute_tet_quality_measures.
        rewrite !add_step.
        erewrite get_step by lookup_now. cbv beta.
        erewrite get_step by lookup_now. cbv beta.
        cbn [as_floats default predefined].
        erewrite lift_step by (cbn; exact Hdiv). cbv beta.
        rewrite add_then_set, add_step.
        erewrite get_voxel_raise;
          [ reflexivity
          | lookup_now
          | cbn [attributes mesh with_attributes with_mesh geometry];
            fold g; exact Hn
          | cbn [attributes mesh with_attributes with_mesh geometry as_floats];
            exact Hresh ].
  - left. destruct (broadcast_Raise _ _ _ _ Hdiv) as [msg ->].
    exists msg. unfold compute_tet_quality_measures.
    rewrite !add_step.
    erewrite get_step by lookup_now. cbv beta.
    erewrite get_step by lookup_now. cbv beta.
    cbn [as_floats default predefined].
    erewrite lift_raise by (cbn; exact Hdiv). reflexivity.
Qed.

End QualityMore.

(** ** What a computation leaves alone *)

Section Preservation.

Context {X : Type} (f : World -> X).

Lemma preserves_bind {A C} (m : M A) (k : A -> M C) :
  preserves f m -> (forall a, preserves f (k a)) -> preserves f (m ≫= k).
Proof.
  intros Hm Hk w. specialize (Hm w).
  unfold mbind, M_bind. destruct (m w) as [[a|x] w1]; simpl in *.
  - rewrite Hk. exact Hm.
  - exact Hm.
Qed.

Lemma preserves_ret {A} (a : A) : preserves f (mret a).
Proof. intros w. reflexivity. Qed.

Lemma preserves_raise {A} x : preserves f (@raise A x).
Proof. intros w. reflexivity. Qed.

Lemma preserves_lift {A} (r : result A) : preserves f (lift r).
Proof. intros w. reflexivity. Qed.

Lemma preserves_get_world : preserves f get_world.
Proof. intros w. reflexivity. Qed.

Lemma preserves_modify (g : World -> World) :
  (forall w, f (g w) = f w) -> preserves f (modify g).
Proof. intros H w. apply H. Qed.


End Preservation.


Ltac preserve :=
  repeat first
    [ apply preserves_ret | apply preserves_raise | apply preserves_lift
    | apply preserves_get_world
    | apply preserves_bind; [|intros ?]
    | match goal with
      | |- preserves _ (if ?b then _ else _) => destruct b
      | |- preserves _ (match ?x with _ => _ end) => destruct x
      end
    | progress cbv zeta ].

Section EvaluatorsFrame.

Variable B : Backend.

Lemma add_attribute_surroundings name :
  preserves surroundings (add_attribute B name).
Proof. apply preserves_modify. reflexivity. Qed.

Lemma set_attribute_surroundings name v :
  preserves surroundings (set_attribute name v).
Proof.
  unfold set_attribute. preserve.
  apply preserves_modify. reflexivity.
Qed.

Lemma get_attribute_preserves {X} (f : World -> X) name :
  preserves f (get_attribute name).
Proof. unfold get_attribute. preserve. Qed.

Lemma get_voxel_attribute_preserves {X} (f : World -> X) name :
  preserves f (get_voxel_attribute name).
Proof.
  unfold get_voxel_attribute.
  apply preserves_bind; [apply get_attribute_preserves | intros v].
  preserve.
Qed.

Lemma logger_warn_surroundings name msg :
  preserves surroundings (logger_warn name msg).
Proof. apply preserves_modify. reflexivity. Qed.

Lemma compute_distortion_energies_surroundings :
  preserves surroundings (compute_distortion_energies B).
Proof.
  unfold compute_distortion_energies, report_anomalies, store_energies, when.
  preserve;
    first [ apply add_attribute_surroundings
          | apply logger_warn_surroundings
          | apply preserves_modify; intros; reflexivity ].
Qed.

Lemma compute_tet_quality_measures_surroundings :
  preserves surroundings (compute_tet_quality_measures B).
Proof.
  unfold compute_tet_quality_measures.
  preserve;
    first [ apply add_attribute_surroundings
          | apply get_attribute_preserves
          | apply get_voxel_attribute_preserves
          | apply preserves_modify; intros; reflexivity ].
Qed.

(** X6: Neither evaluator touches a file or the logging level, whether it
    returns or raises. *)
Theorem evaluators_leave_surroundings (w : World) :
  surroundings (snd (compute_distortion_energies B w)) = surroundings w /\
  surroundings (snd (compute_tet_quality_measures B w)) = surroundings w.
Proof.
  split.
  - apply compute_distortion_energies_surroundings.
  - apply compute_tet_quality_measures_surroundings.
Qed.

(** X7: The shape quality evaluator registers every attribute before it reads
    it, so it never fails for a missing attribute: the only exception it
    lets through is a [ValueError] of an array operation. *)
Theorem quality_only_value_errors (w : World) (x : exn) :
  fst (compute_tet_quality_measures B w) = Raise x ->
  exists msg, x = ValueError msg.
Proof.
  destruct (compute_tet_quality_measures_cases B w)
    as [[msg H] | (rr & mins & maxs & H)]; rewrite H.
  - intros [= <-]. eauto.
  - discriminate.
Qed.

(** X8: A run of the shape quality evaluator that returns has stored the
    provider's five primitives under their names and changed no attribute
    outside its own eight, so the arrays of the distortion evaluator are
    still there; geometry and log are as before. *)
Theorem quality_frame (w w' : World) :
  compute_tet_quality_measures B w = (Ok tt, w') ->
  geometry (mesh w') = geometry (mesh w) /\
  log w' = log w /\
  (forall name, name ∉ quality_attributes ->
     attributes (mesh w') !! name = attributes (mesh w) !! name) /\
  attributes (mesh w') !! "voxel_inradius" =
    Some (FloatArray (voxel_inradius B (geometry (mesh w)))) /\
  attributes (mesh w') !! "voxel_circumradius" =
    Some (FloatArray (voxel_circumradius B (geometry (mesh w)))) /\
  attributes (mesh w') !! "voxel_dihedral_angle" =
    Some (FloatArray (voxel_dihedral_angle B (geometry (mesh w)))) /\
  attributes (mesh w') !! "voxel_radius_edge_ratio" =
    Some (FloatArray (voxel_radius_edge_ratio B (geometry (mesh w)))) /\
  attributes (mesh w') !! "voxel_edge_ratio" =
    Some (FloatArray (voxel_edge_ratio B (geometry (mesh w)))).
Proof.
  intros Hrun.
  destruct (compute_tet_quality_measures_cases B w)
    as [[msg H] | (rr & mins & maxs & H)];
    [rewrite Hrun in H; discriminate H|].
  rewrite H in Hrun. injection Hrun as <-.
  cbn [mesh geometry attributes log with_attributes with_mesh].
  split_and!; try reflexivity; try (unfold quality_stored; by simplify_map_eq).
  intros name Hname. unfold quality_attributes in Hname. unfold quality_stored.
  rewrite !lookup_insert_ne; [reflexivity | intros <-; apply Hname; in_list ..].
Qed.

End EvaluatorsFrame.

(** ** The exporter: every outcome *)

Lemma item_cases v i :
  ((i < size v)%nat /\ item v i = Ok (cell_at v i)) \/
  ((size v <= i)%nat /\ item v i = Raise IndexError).
Proof.
  destruct (decide (i < size v)%nat) as [Hi|Hi].
  - left. split; [assumption | now apply item_cell_at].
  - right. split; [lia|]. unfold item.
    destruct v as [a|a]; simpl in Hi;
      rewrite (lookup_ge_None_2 a i) by lia; reflexivity.
Qed.

Lemma with_table_id path rows w :
  files w !! path = Some (Table rows) -> with_table path rows w = w.
Proof.
  intros H. unfold with_table, with_files.
  rewrite insert_id by assumption. destruct w; reflexivity.
Qed.

(** The loop of lines 118 to 127 when the rows can be formed up to index
    [k] only: it stops there with an [IndexError], the rows before it
    written. *)
Lemma for_each_seq_rows path (mk : nat -> row) (body : nat -> M unit) k n :
  (forall i w0, (i < k)%nat -> body i w0 = writerow path (mk i) w0) ->
  (forall i w0, (k <= i)%nat -> (i < n)%nat ->
                body i w0 = (Raise IndexError, w0)) ->
  forall len start w rows,
    (start <= k)%nat -> (start + len <= n)%nat ->
    files w !! path = Some (Table rows) ->
    for_each (seq start len) body w =
      (if (start + len <=? k)%nat then Ok tt else Raise IndexError,
       with_table path (rows ++ map mk (seq start (min len (k - start)))) w).
Proof.
  intros Hok Hbad. induction len as [|len IH]; intros start w rows Hs Hn Hrows.
  - simpl. rewrite Nat.add_0_r, (proj2 (Nat.leb_le _ _) Hs), app_nil_r.
    now rewrite with_table_id.
  - simpl for_each. unfold mbind, M_bind.
    destruct (decide (start < k)%nat) as [Hlt|Hge].
    + rewrite Hok by assumption.
      rewrite (writerow_run _ _ _ _ Hrows).
      rewrite (IH (S start) _ (rows ++ [mk start])); [|lia|lia|apply with_table_lookup].
      rewrite with_table_twice, <- app_assoc.
      replace (k - start)%nat with (S (k - S start)) by lia.
      replace (S start + len)%nat with (start + S len)%nat by lia.
      reflexivity.
    + rewrite Hbad by lia.
      replace (k - start)%nat with 0%nat by lia.
      rewrite Nat.min_0_r. simpl map. rewrite app_nil_r.
      destruct (start + S len <=? k)%nat eqn:E; [apply Nat.leb_le in E; lia|].
      now rewrite with_table_id.
Qed.

Lemma rows_available_le n vs : (rows_available n vs <= n)%nat.
Proof. induction vs as [|v vs IH]; simpl; lia. Qed.

Lemma rows_available_sizes n vs v :
  v ∈ vs -> (rows_available n vs <= size v)%nat.
Proof.
  induction vs as [|u vs IH]; intros Hv; [now apply elem_of_nil in Hv|].
  apply elem_of_cons in Hv as [-> | Hv]; simpl; [lia|].
  specialize (IH Hv). lia.
Qed.

Lemma rows_available_short n vs :
  (rows_available n vs < n)%nat ->
  exists v, v ∈ vs /\ size v = rows_available n vs.
Proof.
  induction vs as [|u vs IH]; simpl; intros H; [lia|].
  destruct (decide (size u <= rows_available n vs)%nat) as [Hle|Hgt].
  - exists u. split; [now left | lia].
  - destruct IH as (v & Hv & Hsz); [lia|].
    exists v. split; [now right | lia].
Qed.

Ltac read_items i :=
  repeat match goal with
  | |- context [item ?v i] =>
      let E := fresh "E" in
      destruct (item_cases v i) as [[? E] | [? E]]; rewrite E; clear E;
      cbn [mbind result_bind mret result_ret]
  end.

(** A run of the exporter on a writable path with the eight attributes
    present: the header, then the rows that can be formed. *)
Lemma output_to_csv_run (path : string) w vs :
  path ∉ unwritable w ->
  Forall2 (fun name v => attributes (mesh w) !! name = Some v)
          required_attributes vs ->
  output_to_csv path w =
    (if (num_voxels (geometry (mesh w)) <=?
         rows_available (num_voxels (geometry (mesh w))) vs)%nat
     then Ok tt else Raise IndexError,
     with_table path
       (csv_header ::
        map (table_row vs)
            (seq 0 (rows_available (num_voxels (geometry (mesh w))) vs))) w).
Proof.
  intros Hw Hall. unfold required_attributes in Hall.
  repeat match goal with
  | H : Forall2 _ (_ :: _) _ |- _ =>
      apply Forall2_cons_inv_l in H as (? & ? & ? & ? & ->)
  end.
  match goal with
  | H : Forall2 _ [] _ |- _ => apply Forall2_nil_inv_l in H as ->
  end.
  set (n := num_voxels (geometry (mesh w))).
  match goal with
  | |- context [rows_available n ?l] => set (vs := l)
  end.
  pose proof (rows_available_le n vs) as Hkn.
  assert (Hsz : forall v, v ∈ vs -> (rows_available n vs <= size v)%nat)
    by (intros v; apply rows_available_sizes).
  assert (Hshort : (rows_available n vs < n)%nat ->
                   exists v, v ∈ vs /\ size v = rows_available n vs)
    by apply rows_available_short.
  set (k := rows_available n vs) in *.
  unfold output_to_csv.
  rewrite output_to_csv_header by assumption.
  rewrite get_world_step.
  do 8 (erewrite get_step by lookup_now; cbv beta).
  cbn [mesh geometry with_table with_files]. fold n.
  erewrite (for_each_seq_rows path (table_row vs) _ k n)
    with (rows := [csv_header]).
  - rewrite with_table_twice. simpl app. rewrite Nat.sub_0_r.
    rewrite (Nat.min_r n k) by lia. reflexivity.
  - intros i w0 Hi.
    assert (Hall : forall v, v ∈ vs -> (i < size v)%nat).
    { intros v Hv. specialize (Hsz v Hv). lia. }
    unfold vs in Hall.
    read_items i; try reflexivity;
      match goal with
      | H : (size ?v <= i)%nat |- _ =>
          exfalso; assert (i < size v)%nat by (apply Hall; in_list); lia
      end.
  - intros i w0 Hk Hn.
    destruct Hshort as (v & Hv & Hsize); [lia|].
    unfold vs in Hv.
    read_items i; try reflexivity.
    exfalso.
    repeat match goal with
    | H : v ∈ _ :: _ |- _ => apply elem_of_cons in H as [-> | H]
    end; try lia.
    now apply elem_of_nil in Hv.
  - lia.
  - lia.
  - apply with_table_lookup.
Qed.

Lemma present_or_missing (a : gmap string ndarray) :
  (exists vs, Forall2 (fun name v => a !! name = Some v)
                      required_attributes vs) \/
  (exists name, name ∈ required_attributes /\ a !! name = None).
Proof.
  unfold required_attributes.
  assert (Hone : forall name names,
            name ∈ required_attributes ->
            ((exists vs, Forall2 (fun name v => a !! name = Some v) names vs) \/
             (exists name, name ∈ required_attributes /\ a !! name = None)) ->
            (exists vs, Forall2 (fun name v => a !! name = Some v)
                                (name :: names) vs) \/
            (exists name, name ∈ required_attributes /\ a !! name = None)).
  { intros name names Hin [[vs Hvs] | Hmiss]; [|now right].
    destruct (a !! name) as [v|] eqn:Hv.
    - left. exists (v :: vs). now constructor.
    - right. eauto. }
  unfold required_attributes in Hone.
  repeat (apply Hone; [in_list|]).
  left. exists []. constructor.
Qed.

Lemma output_to_csv_unwritable (path : string) w :
  path ∈ unwritable w -> output_to_csv path w = (Raise (IOError path), w).
Proof.
  intros H.
  unfold output_to_csv, open_for_writing, fspath, lift, get_world, mbind,
    M_bind.
  destruct (decide (path ∈ unwritable w)); [reflexivity | contradiction].
Qed.

Lemma output_to_csv_missing (path : string) w :
  path ∉ unwritable w ->
  (exists name, name ∈ required_attributes /\
                attributes (mesh w) !! name = None) ->
  exists name,
    name ∈ required_attributes /\
    attributes (mesh w) !! name = None /\
    output_to_csv path w =
      (Raise (MissingAttribute name), with_table path [csv_header] w).
Proof.
  intros Hw (missing & Hin & Hmiss).
  unfold output_to_csv.
  rewrite output_to_csv_header by assumption.
  rewrite get_world_step.
  unfold required_attributes in *.
  repeat match goal with
  | |- context [get_attribute ?name ≫= _] =>
      destruct (attributes (mesh w) !! name) as [?v|] eqn:?;
        [ erewrite get_step by lookup_now; cbv beta
        | exists name; split; [in_list|]; split; [assumption|];
          erewrite get_missing by lookup_now; reflexivity ]
  end.
  exfalso.
  repeat match goal with
  | H : missing ∈ _ :: _ |- _ => apply elem_of_cons in H as [-> | H]
  end; try congruence.
  now apply elem_of_nil in Hin.
Qed.



Section ExporterMore.

(** X9: With the attributes present on a writable path, the exporter returns
    exactly when every array has an entry for every tetrahedron. *)
Theorem export_returns_iff (path : string) (w : World) (vs : list ndarray) :
  path ∉ unwritable w ->
  Forall2 (fun name v => attributes (mesh w) !! name = Some v)
          required_attributes vs ->
  (fst (output_to_csv path w) = Ok tt <->
   Forall (fun v => (num_voxels (geometry (mesh w)) <= size v)%nat) vs).
Proof.
  intros Hw Hall. rewrite (output_to_csv_run _ _ _ Hw Hall). simpl.
  set (n := num_voxels (geometry (mesh w))).
  destruct (n <=? rows_available n vs)%nat eqn:E.
  - apply Nat.leb_le in E. split; [intros _|reflexivity].
    apply Forall_forall. intros v Hv.
    pose proof (rows_available_sizes n vs v Hv). lia.
  - apply Nat.leb_gt in E. split; [discriminate|]. intros Hlong. exfalso.
    destruct (rows_available_short n vs E) as (v & Hv & Hsz).
    rewrite Forall_forall in Hlong. specialize (Hlong v Hv). lia.
Qed.

(** X10: With an array that is too short, the exporter raises an [IndexError]
    at the first index the shortest array lacks; the table then holds the
    header and the rows before that index, each as a full export would
    have written it. *)
Theorem export_stops_at_short_array (path : string) (w : World)
  (vs : list ndarray) :
  path ∉ unwritable w ->
  Forall2 (fun name v => attributes (mesh w) !! name = Some v)
          required_attributes vs ->
  (rows_available (num_voxels (geometry (mesh w))) vs <
   num_voxels (geometry (mesh w)))%nat ->
  exists w' rows,
    output_to_csv path w = (Raise IndexError, w') /\
    mesh w' = mesh w /\
    files w' !! path = Some (Table (csv_header :: rows)) /\
    length rows = rows_available (num_voxels (geometry (mesh w))) vs /\
    forall i, (i < length rows)%nat -> rows !! i = Some (table_row vs i).
Proof.
  intros Hw Hall Hshort.
  rewrite (output_to_csv_run _ _ _ Hw Hall).
  set (n := num_voxels (geometry (mesh w))) in *.
  set (k := rows_available n vs) in *.
  rewrite (proj2 (Nat.leb_gt _ _) Hshort).
  eexists _, (map (table_row vs) (seq 0 k)).
  split_and!; [reflexivity | reflexivity | apply with_table_lookup | |].
  - now rewrite length_map, length_seq.
  - intros i Hi. rewrite length_map, length_seq in Hi.
    rewrite list_lookup_fmap, lookup_seq_lt by assumption. reflexivity.
Qed.

(** X11: The exceptions of the exporter: an [IOError] for a path that cannot
    be opened, with nothing written; a [MissingAttribute] for a required
    attribute that is not stored; an [IndexError] for a stored array that
    is too short. *)
Theorem exporter_exceptions (path : string) (w : World) (x : exn) :
  fst (output_to_csv path w) = Raise x ->
  (x = IOError path /\ (path ∈ unwritable w) /\
   snd (output_to_csv path w) = w) \/
  ((path ∉ unwritable w) /\
   exists name, x = MissingAttribute name /\ (name ∈ required_attributes) /\
                attributes (mesh w) !! name = None) \/
  ((path ∉ unwritable w) /\ x = IndexError /\
   exists vs,
     Forall2 (fun name v => attributes (mesh w) !! name = Some v)
             required_attributes vs /\
     Exists (fun v => (size v < num_voxels (geometry (mesh w)))%nat) vs).
Proof.
  destruct (decide (path ∈ unwritable w)) as [Hro|Hw].
  - rewrite (output_to_csv_unwritable _ _ Hro). intros [= <-]. auto.
  - destruct (present_or_missing (attributes (mesh w))) as [[vs Hall] | Hmiss].
    + rewrite (output_to_csv_run _ _ _ Hw Hall). simpl.
      destruct (_ <=? _)%nat eqn:E; [discriminate|].
      intros [= <-]. right. right. split; [assumption|]. split; [reflexivity|].
      exists vs. split; [assumption|].
      apply Nat.leb_gt in E.
      destruct (rows_available_short _ _ E) as (v & Hv & Hsz).
      apply Exists_exists. exists v. split; [assumption | lia].
    + destruct (output_to_csv_missing _ _ Hw Hmiss) as (name & Hin & Hnone & Hrun).
      rewrite Hrun. intros [= <-]. right. left. eauto 6.
Qed.


End ExporterMore.

(** ** The passes one after the other *)



Lemma modify_step {A} (g : World -> World) (k : M A) w :
  (modify g ≫= fun _ => k) w = k (g w).
Proof. reflexivity. Qed.

Section Pipeline.

Variable B : Backend.

(** The attribute store after both evaluators. *)
Lemma both_evaluators_store w w1 w2 :
  compute_distortion_energies B w = (Ok tt, w1) ->
  compute_tet_quality_measures B w1 = (Ok tt, w2) ->
  exists e radius_ratio mins maxs,
    distortion_energies B (geometry (mesh w)) = Ok e /\
    geometry (mesh w2) = geometry (mesh w) /\
    attributes (mesh w2) =
      quality_stored B (geometry (mesh w)) radius_ratio mins maxs
        (stored e (attributes (mesh w))).
Proof.
  intros H1 H2.
  apply compute_distortion_energies_Ok in H1 as (_ & e & He & ->).
  destruct (compute_tet_quality_measures_cases B (after_distortion e w))
    as [[msg H] | (rr & mins & maxs & H)];
    [rewrite H2 in H; discriminate H|].
  rewrite H in H2. injection H2 as <-.
  exists e, rr, mins, maxs. auto.
Qed.

Lemma both_stores_columns g e radius_ratio mins maxs a :
  Forall2 (fun name v =>
             quality_stored B g radius_ratio mins maxs (stored e a) !! name =
               Some v)
    required_attributes
    [FloatArray (voxel_edge_ratio B g); FloatArray radius_ratio;
     FloatArray mins; FloatArray maxs;
     FloatArray (voxel_radius_edge_ratio B g);
     FloatArray (conformal_amips e); FloatArray (symmetric_dirichlet e);
     FloatArray (orientations e)].
Proof.
  unfold required_attributes, quality_stored, stored.
  repeat (constructor; [by simplify_map_eq|]). constructor.
Qed.



(** X13: Once both evaluators have returned, every attribute the exporter
    reads is stored, so an export that follows cannot fail for a missing
    attribute: it returns, or it raises an [IOError] for its path or an
    [IndexError] for a provider array that is too short. *)
Theorem export_after_evaluators (w w1 w2 : World) (path : string) :
  compute_distortion_energies B w = (Ok tt, w1) ->
  compute_tet_quality_measures B w1 = (Ok tt, w2) ->
  (forall name, name ∈ required_attributes ->
     is_Some (attributes (mesh w2) !! name)) /\
  (fst (output_to_csv path w2) = Ok tt \/
   fst (output_to_csv path w2) = Raise (IOError path) \/
   fst (output_to_csv path w2) = Raise IndexError).
Proof.
  intros H1 H2.
  destruct (both_evaluators_store _ _ _ H1 H2)
    as (e & rr & mins & maxs & _ & _ & Hstore).
  pose proof (both_stores_columns (geometry (mesh w)) e rr mins maxs
                (attributes (mesh w))) as Hcols.
  rewrite <- Hstore in Hcols.
  split.
  - intros name Hname.
    apply list_elem_of_lookup in Hname as [i Hi].
    destruct (Forall2_lookup_l _ _ _ _ _ Hcols Hi) as (v & _ & Hv). eauto.
  - destruct (decide (path ∈ unwritable w2)) as [Hro|Hw].
    + rewrite (output_to_csv_unwritable _ _ Hro). auto.
    + rewrite (output_to_csv_run _ _ _ Hw Hcols). simpl.
      destruct (_ <=? _)%nat; auto.
Qed.


End Pipeline.

(** ** [main], from the parsed arguments on *)

Section MainMore.

Variable B : Backend.


















End MainMore.

(** ** [parse_args]: defaults, arity and the level check *)

(** X17: Without options the parser wants exactly two words: they become the
    input and the output mesh, the level is the default [WARNING] and no
    table is asked for; any other number of words is a usage error. *)
Theorem parse_args_plain (argv : list string) :
  Forall plain argv ->
  parse_args argv =
    match argv with
    | [input_mesh; output_mesh] =>
        Ok {| arg_log := "WARNING"; arg_csv := None;
              arg_input_mesh := input_mesh; arg_output_mesh := output_mesh |}
    | _ => Raise usage_error
    end.
Proof.
  intros H. unfold parse_args, parse_known_args, initial.
  rewrite (scan_plain _ H).
  cbn [mbind result_bind].
  rewrite consume_no_option by apply no_option_arguments.
  unfold consume_positionals. cbn [p_positionals length].
  destruct argv as [|a [|b rest]].
  - reflexivity.
  - apply Forall_cons in H as [[Ha _]%plain_spec _].
    cbn. rewrite take_action_positional by side.
    reflexivity.
  - apply Forall_cons in H as [[Ha _]%plain_spec H].
    apply Forall_cons in H as [[Hb _]%plain_spec H].
    cbn [map match_arguments_partial match_groups match_positional dashes drop
         mbind option_bind Nat.add take_positionals p_positionals take
         arg_string_of].
    rewrite dashes_arguments. cbn [take drop map Nat.add].
    rewrite take_action_positional by side.
    cbn [mbind result_bind store with_positionals p_positionals drop
         take_positionals take map arg_string_of].
    rewrite take_action_positional by side.
    cbn. destruct rest; reflexivity.
Qed.

(** X18: A level outside the five choices is a usage error, wherever [--log]
    stands among the words and whatever follows it. *)
Theorem parse_args_refuses_level (pre post : list string) (level : string) :
  Forall plain pre ->
  level ∉ log_choices ->
  parse_args (pre ++ "--log" :: level :: post) = Raise usage_error.
Proof.
  intros Hpre Hlevel. unfold parse_args, parse_known_args, initial.
  rewrite (scan_app_plain _ _ Hpre), scan_log.
  destruct (scan (level :: post)) as [tokens|x] eqn:Hs.
  2:{ apply scan_Raise in Hs as ->. reflexivity. }
  cbn [mbind result_bind].
  destruct (consume_plain_prefix pre
              (TokenO "--log" {| opt_action := Some StoreLog;
                                 option_string := "--log";
                                 explicit_arg := None |} :: tokens)
              {| p_log := log_default; p_csv := None;
                 p_input_mesh := None; p_output_mesh := None;
                 p_positionals := [StoreInputMesh; StoreOutputMesh];
                 p_extras := [] |} Hpre eq_refl) as [st' ->].
  { constructor; [left; reflexivity|].
    constructor; [right; reflexivity|]. constructor. }
  assert (Hc : consume
                 (TokenO "--log" {| opt_action := Some StoreLog;
                                    option_string := "--log";
                                    explicit_arg := None |} :: tokens) st' =
               Raise usage_error).
  { simpl in Hs. destruct (decide (level = "--")) as [->|Hne].
    - injection Hs as <-. reflexivity.
    - destruct (parse_optional level) as [[o|]|] eqn:Ho; simpl in Hs;
        [| |discriminate];
        (destruct (scan post) as [ts|]; simpl in Hs; [|discriminate]);
        injection Hs as <-.
      + reflexivity.
      + simpl consume. cbn [opt_action explicit_arg].
        unfold take_action. rewrite (get_values_word _ _ Hne).
        unfold check_value. rewrite bool_decide_eq_false_2 by assumption.
        reflexivity. }
  rewrite Hc. reflexivity.
Qed.

(** X19: [--log] with one of the choices and [--csv] with a file name set the
    two fields and leave the two positional words as they are. *)
Theorem parse_args_options (level csv_file input_mesh output_mesh : string) :
  level ∈ log_choices ->
  plain csv_file -> plain input_mesh -> plain output_mesh ->
  parse_args ["--log"; level; "--csv"; csv_file; input_mesh; output_mesh] =
    Ok {| arg_log := level; arg_csv := Some (Str csv_file);
          arg_input_mesh := input_mesh; arg_output_mesh := output_mesh |} /\
  parse_args [input_mesh; "--csv"; csv_file; output_mesh; "--log"; level] =
    Ok {| arg_log := level; arg_csv := Some (Str csv_file);
          arg_input_mesh := input_mesh; arg_output_mesh := output_mesh |}.
Proof.
  intros Hlevel Hcsv Hin Hout.
  pose proof (choice_is_plain _ Hlevel) as Hpl.
  pose proof (plain_spec _ Hcsv) as [Hc _].
  pose proof (plain_spec _ Hin) as [Hi _].
  pose proof (plain_spec _ Hout) as [Ho _].
  split; unfold parse_args, parse_known_args, initial.
  - rewrite scan_log, (scan_cons_plain _ _ Hpl), scan_csv,
      (scan_cons_plain _ _ Hcsv), (scan_cons_plain _ _ Hin),
      (scan_cons_plain _ _ Hout).
    cbn [scan mbind result_bind].
    simpl consume. cbn [opt_action explicit_arg].
    rewrite (take_action_log_choice _ _ Hlevel). cbn [mbind result_bind].
    rewrite (take_action_csv _ _ Hc). cbn [mbind result_bind].
    unfold consume_positionals.
    cbn [p_positionals store length match_arguments_partial match_groups
         match_positional dashes drop mbind option_bind Nat.add
         take_positionals take map arg_string_of with_positionals].
    rewrite take_action_positional by side.
    cbn [mbind result_bind p_positionals store length
         take_positionals take drop map arg_string_of with_positionals].
    rewrite take_action_positional by side.
    reflexivity.
  - rewrite (scan_cons_plain _ _ Hin), scan_csv, (scan_cons_plain _ _ Hcsv),
      (scan_cons_plain _ _ Hout), scan_log, (scan_cons_plain _ _ Hpl).
    cbn [scan mbind result_bind].
    simpl consume. cbn [opt_action explicit_arg arg_string_of].
    rewrite take_action_positional by side. cbn [mbind result_bind].
    rewrite (take_action_csv _ _ Hc). cbn [mbind result_bind].
    cbn [p_positionals store with_positionals].
    rewrite take_action_positional by side. cbn [mbind result_bind].
    rewrite (take_action_log_choice _ _ Hlevel). cbn [mbind result_bind].
    reflexivity.
Qed.

(** ** The further statements on the sample meshes *)

Lemma distortion_failure_leaves_world_witness :
  fst (compute_distortion_energies Sample.backend (Sample.fresh Cases.dangling)) =
    Raise IndexError /\
  snd (compute_distortion_energies Sample.backend (Sample.fresh Cases.dangling)) =
    Sample.fresh Cases.dangling.
Proof.
  split; [vm_compute; reflexivity|].
  apply (distortion_failure_leaves_world Sample.backend _ IndexError).
  vm_compute. reflexivity.
Defined.

Lemma distortion_frame_witness :
  geometry (mesh (Sample.distorted Sample.three)) = Sample.three /\
  attributes (mesh (Sample.distorted Sample.three)) !! "radius_ratio" = None /\
  files (Sample.distorted Sample.three) = ∅.
Proof.
  destruct (distortion_frame Sample.backend (Sample.fresh Sample.three)
              (Sample.distorted Sample.three))
    as (Hg & Ha & _ & _ & Hc & _); [vm_compute; reflexivity|].
  split; [exact Hg|]. split; [|exact Hc].
  rewrite Ha; [reflexivity|].
  unfold distortion_attributes. intros H.
  repeat (apply elem_of_cons in H as [H | H]; [discriminate H|]).
  now apply elem_of_nil in H.
Defined.

Lemma orientation_counts_witness :
  num_degenerate_tets (Sample.energies Sample.three) = 1%nat /\
  num_inverted_tets (Sample.energies Sample.three) = 1%nat.
Proof.
  destruct (orientation_counts Sample.backend Sample.three
              (Sample.energies Sample.three)) as [H1 H2];
    [vm_compute; reflexivity|].
  rewrite H1, H2. split; vm_compute; reflexivity.
Defined.

Lemma zero_determinant_flagged_witness :
  exists (dirichlet : list float) (fd : list bool) d n,
    attributes (mesh (Sample.distorted Sample.three)) !! "symmetric_Dirichlet" =
      Some (FloatArray dirichlet) /\
    attributes (mesh (Sample.distorted Sample.three))
      !! "finite_symmetric_Dirichlet" = Some (BoolArray fd) /\
    dirichlet !! 2%nat = Some d /\ isfinite d = false /\
    fd !! 2%nat = Some false /\
    (0 < n)%nat /\
    warning (dirichlet_msg n) ∈ log (Sample.distorted Sample.three).
Proof.
  eapply (zero_determinant_flagged Sample.backend (Sample.fresh Sample.three)
            _ 2%nat [0; 1; 2; 4]%nat).
  - vm_compute. reflexivity.
  - reflexivity.
  - vm_compute. reflexivity.
  - vm_compute. reflexivity.
Defined.

Lemma distortion_rerun_witness :
  exists w2 new,
    compute_distortion_energies Sample.backend (Sample.distorted Sample.three) =
      (Ok tt, w2) /\
    mesh w2 = mesh (Sample.distorted Sample.three) /\
    log (Sample.distorted Sample.three) =
      log (Sample.fresh Sample.three) ++ new /\
    log w2 = log (Sample.distorted Sample.three) ++ new.
Proof.
  apply (distortion_rerun Sample.backend (Sample.fresh Sample.three)).
  vm_compute. reflexivity.
Defined.

Lemma quality_only_value_errors_witness :
  fst (compute_tet_quality_measures Cases.skewed (Sample.fresh Sample.three)) =
    Raise (ValueError "operands could not be broadcast together") /\
  exists msg,
    ValueError "operands could not be broadcast together" = ValueError msg.
Proof.
  split; [vm_compute; reflexivity|].
  apply (quality_only_value_errors Cases.skewed (Sample.fresh Sample.three)).
  vm_compute. reflexivity.
Defined.

Lemma quality_frame_witness :
  attributes (mesh (Runs.measured Sample.three)) !! "orientations" =
    attributes (mesh (Sample.distorted Sample.three)) !! "orientations" /\
  attributes (mesh (Runs.measured Sample.three)) !! "voxel_edge_ratio" =
    Some (FloatArray (voxel_edge_ratio Sample.backend Sample.three)).
Proof.
  destruct (quality_frame Sample.backend (Sample.distorted Sample.three)
              (Runs.measured Sample.three))
    as (_ & _ & Ha & _ & _ & _ & _ & He); [vm_compute; reflexivity|].
  split; [|exact He].
  apply Ha. unfold quality_attributes. intros H.
  repeat (apply elem_of_cons in H as [H | H]; [discriminate H|]).
  now apply elem_of_nil in H.
Defined.

Lemma measured_columns :
  Forall2 (fun name v =>
             attributes (mesh (Runs.measured Sample.three)) !! name = Some v)
          required_attributes (Runs.columns (Runs.measured Sample.three)).
Proof. vm_compute. repeat constructor. Qed.

Lemma short_columns :
  Forall2 (fun name v =>
             attributes (mesh (Cases.short Sample.three)) !! name = Some v)
          required_attributes (Runs.columns (Cases.short Sample.three)).
Proof. vm_compute. repeat constructor. Qed.

Lemma nothing_unwritable (path : string) (w : World) :
  unwritable w = ∅ -> path ∉ unwritable w.
Proof. intros ->. apply not_elem_of_empty. Qed.

Lemma export_returns_iff_witness :
  (fst (output_to_csv "out.csv" (Runs.measured Sample.three)) = Ok tt <->
   Forall (fun v => (3 <= size v)%nat)
          (Runs.columns (Runs.measured Sample.three))) /\
  (fst (output_to_csv "out.csv" (Cases.short Sample.three)) = Ok tt <->
   Forall (fun v => (3 <= size v)%nat)
          (Runs.columns (Cases.short Sample.three))).
Proof.
  split.
  - apply (export_returns_iff "out.csv" (Runs.measured Sample.three));
      [apply nothing_unwritable; reflexivity | exact measured_columns].
  - apply (export_returns_iff "out.csv" (Cases.short Sample.three));
      [apply nothing_unwritable; reflexivity | exact short_columns].
Defined.

Lemma export_stops_at_short_array_witness :
  exists w' rows,
    output_to_csv "out.csv" (Cases.short Sample.three) = (Raise IndexError, w') /\
    mesh w' = mesh (Cases.short Sample.three) /\
    files w' !! "out.csv" = Some (Table (csv_header :: rows)) /\
    length rows = 2%nat /\
    forall i, (i < length rows)%nat ->
      rows !! i =
        Some (table_row (Runs.columns (Cases.short Sample.three)) i).
Proof.
  apply (export_stops_at_short_array "out.csv" (Cases.short Sample.three)
           (Runs.columns (Cases.short Sample.three))).
  - apply nothing_unwritable. reflexivity.
  - exact short_columns.
  - vm_compute. lia.
Defined.

Lemma exporter_exceptions_witness :
  fst (output_to_csv "out.csv"
         (Cases.read_only "out.csv" (Runs.measured Sample.three))) =
    Raise (IOError "out.csv") /\
  snd (output_to_csv "out.csv"
         (Cases.read_only "out.csv" (Runs.measured Sample.three))) =
    Cases.read_only "out.csv" (Runs.measured Sample.three).
Proof.
  assert (H : fst (output_to_csv "out.csv"
                     (Cases.read_only "out.csv" (Runs.measured Sample.three))) =
              Raise (IOError "out.csv")) by (vm_compute; reflexivity).
  split; [exact H|].
  destruct (exporter_exceptions "out.csv" _ _ H)
    as [(_ & _ & Hw) | [(_ & name & Hx & _) | (_ & Hx & _)]].
  - exact Hw.
  - discriminate Hx.
  - discriminate Hx.
Defined.

Lemma export_after_evaluators_witness :
  (forall name, name ∈ required_attributes ->
     is_Some (attributes (mesh (Runs.measured Sample.three)) !! name)) /\
  (fst (output_to_csv "out.csv" (Runs.measured Sample.three)) = Ok tt \/
   fst (output_to_csv "out.csv" (Runs.measured Sample.three)) =
     Raise (IOError "out.csv") \/
   fst (output_to_csv "out.csv" (Runs.measured Sample.three)) =
     Raise IndexError).
Proof.
  apply (export_after_evaluators Sample.backend (Sample.fresh Sample.three)
           (Sample.distorted Sample.three)).
  - vm_compute. reflexivity.
  - vm_compute. reflexivity.
Defined.





Lemma parse_args_plain_witness :
  parse_args ["in.msh"; "out.msh"] =
    Ok {| arg_log := "WARNING"; arg_csv := None;
          arg_input_mesh := "in.msh"; arg_output_mesh := "out.msh" |} /\
  parse_args ["in.msh"] = Raise usage_error /\
  parse_args ["a"; "b"; "c"] = Raise usage_error.
Proof.
  split_and!.
  - apply (parse_args_plain ["in.msh"; "out.msh"]). repeat constructor.
  - apply (parse_args_plain ["in.msh"]). repeat constructor.
  - apply (parse_args_plain ["a"; "b"; "c"]). repeat constructor.
Defined.

Lemma parse_args_refuses_level_witness :
  parse_args (["in.msh"] ++ "--log" :: "warning" :: ["out.msh"]) =
    Raise usage_error.
Proof.
  apply (parse_args_refuses_level ["in.msh"] ["out.msh"] "warning").
  - repeat constructor.
  - unfold log_choices. intros H.
    repeat (apply elem_of_cons in H as [H | H]; [discriminate H|]).
    now apply elem_of_nil in H.
Defined.

Lemma parse_args_options_witness :
  parse_args ["--log"; "DEBUG"; "--csv"; "t.csv"; "in.msh"; "out.msh"] =
    Ok {| arg_log := "DEBUG"; arg_csv := Some (Str "t.csv");
          arg_input_mesh := "in.msh"; arg_output_mesh := "out.msh" |} /\
  parse_args ["in.msh"; "--csv"; "t.csv"; "out.msh"; "--log"; "DEBUG"] =
    Ok {| arg_log := "DEBUG"; arg_csv := Some (Str "t.csv");
          arg_input_mesh := "in.msh"; arg_output_mesh := "out.msh" |}.
Proof.
  apply (parse_args_options "DEBUG" "t.csv" "in.msh" "out.msh"); try reflexivity.
  unfold log_choices. in_list.
Defined.
